(** * rebench: benchmark regression tracking

    A shallow embedding of [rebench.go] and [convertpath_other.go]:
    the comparison engine [compare], the report formatter [tabAlign], the
    source-root finder [findGosrc], the [go test] output parser of
    [runAndStoreBenches] and the driver [rebench].

    Conventions.
    - Go strings are byte sequences: [string] (a list of [ascii], one per
      byte); [len] is [String.length].
    - [uint64] and [int] values are [Z]; the program does no arithmetic on
      them that could wrap (lengths, and timings that are only converted to
      [float64]).
    - [float64] is [spec_float] at precision 53 and maximal exponent 1024
      (IEEE 754 binary64, round to nearest even).
    - [map[string]uint64] is a reference type: maps live in a [heap] and
      are passed around as locations; [nil] is [None].
    - [range] over a map visits the entries in an order chosen by the
      runtime: every loop takes a [ranger] that fixes this order. *)

From Stdlib Require Import ZArith Ascii SpecFloat Lia.
From stdpp Require Import gmap strings list fin_maps pretty.

Open Scope Z_scope.

(** ** The parts of Go's [strings] package used by the program *)

Module strings.

(** [len(s)] *)
Definition len (s : string) : Z := Z.of_nat (String.length s).

(** [strings.Split(s, sep)] for a one-byte separator (the program splits on
    a newline and on a tab only). *)
Fixpoint Split (s : string) (sep : ascii) : list string :=
  match s with
  | EmptyString => [EmptyString]
  | String c s' =>
      if decide (c = sep) then EmptyString :: Split s' sep
      else match Split s' sep with
           | [] => [String c EmptyString]
           | w :: ws => String c w :: ws
           end
  end.

(** [strings.Join(a, sep)] *)
Fixpoint Join (a : list string) (sep : string) : string :=
  match a with
  | [] => EmptyString
  | [w] => w
  | w :: ws => w +:+ sep +:+ Join ws sep
  end.

Fixpoint repeat_nat (s : string) (n : nat) : string :=
  match n with
  | O => EmptyString
  | S n' => s +:+ repeat_nat s n'
  end.

(** [strings.Repeat(s, count)]: panics ([None]) on a negative count. *)
Definition Repeat (s : string) (count : Z) : option string :=
  if decide (count < 0) then None else Some (repeat_nat s (Z.to_nat count)).

(** [strings.HasPrefix(s, prefix)] *)
Fixpoint HasPrefix (s pre : string) {struct pre} : bool :=
  match pre, s with
  | EmptyString, _ => true
  | String _ _, EmptyString => false
  | String a pre', String b s' => if decide (a = b) then HasPrefix s' pre' else false
  end.

(** [strings.LastIndex(s, substr)]: the index of the last occurrence of
    [substr] in [s], or [-1]. *)
Fixpoint LastIndex (s substr : string) : Z :=
  match s with
  | EmptyString => if decide (substr = EmptyString) then 0 else -1
  | String _ s' =>
      let r := LastIndex s' substr in
      if decide (0 ≤ r) then r + 1
      else if HasPrefix s substr then 0 else -1
  end.

(** [s[:n]] for [0 ≤ n ≤ len(s)] *)
Fixpoint slice_to (s : string) (n : nat) : string :=
  match n, s with
  | S n', String c s' => String c (slice_to s' n')
  | _, _ => EmptyString
  end.

(** The trailing bytes of [s] that belong to [cutset] are removed:
    [strings.TrimRight(s, cutset)] for a cutset of ASCII bytes. *)
Fixpoint TrimRight (s : string) (cutset : list ascii) : string :=
  match s with
  | EmptyString => EmptyString
  | String c s' =>
      match TrimRight s' cutset with
      | EmptyString => if decide (c ∈ cutset) then EmptyString else String c EmptyString
      | t => String c t
      end
  end.

End strings.

(** ** [float64] *)

Definition float64 : Type := spec_float.

Module f64.
Definition prec : Z := 53.
Definition emax : Z := 1024.

(** [float64(n)] for an integer [n] *)
Definition of_int (n : Z) : float64 := binary_normalize prec emax n 0 false.
(** [x / y] *)
Definition div (x y : float64) : float64 := SFdiv prec emax x y.
(** [x < y] and [x > y] *)
Definition lt (x y : float64) : bool := SFltb x y.
Definition gt (x y : float64) : bool := SFltb y x.
Definition le (x y : float64) : bool := SFleb x y.

Definition one : float64 := S754_finite false 4503599627370496 (-52).
End f64.

(** ** Maps, the heap and iteration order *)

Definition loc : Type := positive.
Abbreviation gomap := (gmap string Z).
Abbreviation heap := (gmap loc (gmap string Z)).

(** The map a (non-nil) reference points to. *)
Definition deref (h : heap) (l : loc) : gmap string Z := default ∅ (h !! l).

(** [m[k] = v] through the reference [l]. *)
Definition store (h : heap) (l : loc) (k : string) (v : Z) : heap :=
  <[l := <[k := v]> (deref h l)]> h.

(** [make(map[string]uint64)]: a location that is not in use. *)
Definition new_loc (h : heap) : loc := fresh (dom h).

(** The order in which one [range] loop visits the entries of a map: some
    permutation of them. *)
Record ranger : Type := Ranger {
  range_order : ∀ A : Type, list A → list A;
  range_order_perm : ∀ (A : Type) (l : list A), range_order A l ≡ₚ l
}.

Definition range {V : Type} (r : ranger) (m : gmap string V) : list (string * V) :=
  range_order r _ (map_to_list m).

Definition in_order : ranger := Ranger (λ _ l, l) (λ _ l, reflexivity l).
Definition reversed : ranger := Ranger (λ _ l, reverse l) (λ _ l, reverse_Permutation l).

(** ** The formatting verbs of [fmt.Sprintf] used by [compare] *)

Module fmt.

(** [%d] of a [uint64] *)
Definition d (n : Z) : string := pretty (Z.to_N n).

Definition pad6 (s : string) : string :=
  strings.repeat_nat "0" (6 - String.length s) +:+ s.

(** The integer nearest to [n / 2^k], ties to even. *)
Definition round_shift (n : Z) (k : Z) : Z :=
  let q := n / 2 ^ k in
  let r := n mod 2 ^ k in
  match 2 * r ?= 2 ^ k with
  | Lt => q
  | Gt => q + 1
  | Eq => if Z.even q then q else q + 1
  end.

(** [%f] of a [float64]: six decimals, correctly rounded. *)
Definition f (x : float64) : string :=
  match x with
  | S754_nan => "NaN"
  | S754_infinity false => "+Inf"
  | S754_infinity true => "-Inf"
  | S754_zero s => (if s then "-" else EmptyString) +:+ "0.000000"
  | S754_finite s m e =>
      let micro :=
        if decide (0 ≤ e) then Z.pos m * 1000000 * 2 ^ e
        else round_shift (Z.pos m * 1000000) (- e) in
      (if s then "-" else EmptyString) +:+ d (micro / 1000000) +:+ "."
        +:+ pad6 (d (micro mod 1000000))
  end.

End fmt.

(** ** [compare] *)

(** One line appended to [delta], by the [Sprintf] call that made it. *)
Inductive row : Type :=
  | RowMissing (key : string) (speed : Z)
      (* "%s\tMISSING\t%d\tN/A\n" *)
  | RowNew (benchName : string) (speed : Z)
      (* "%s\t%d\tMISSING\tN/A\n" *)
  | RowCompared (benchName : string) (speed oldSpeed : Z) (factor : float64)
      (* "%s\t%d\t%d\t%f\n" *)
  | RowNoFile (key : string) (speed : Z).
      (* "%s\t%d\tNO FILE\tN/A\n" *)

(** One call of the [log] package, by its message. *)
Inductive logmsg : Type :=
  | LogMissingHeader
  | LogMissingKey (key : string)
  | LogLn
  | LogNew (benchName : string)
  | LogSlower (benchName : string) (factor : float64)
  | LogRecord (benchName : string) (factor : float64)
  | LogNoBest.

Definition tab : string := String "009" EmptyString.
Definition nl : string := String "010" EmptyString.

Definition render_row (r : row) : string :=
  match r with
  | RowMissing key speed =>
      key +:+ tab +:+ "MISSING" +:+ tab +:+ fmt.d speed +:+ tab +:+ "N/A" +:+ nl
  | RowNew benchName speed =>
      benchName +:+ tab +:+ fmt.d speed +:+ tab +:+ "MISSING" +:+ tab +:+ "N/A" +:+ nl
  | RowCompared benchName speed oldSpeed factor =>
      benchName +:+ tab +:+ fmt.d speed +:+ tab +:+ fmt.d oldSpeed +:+ tab
        +:+ fmt.f factor +:+ nl
  | RowNoFile key speed =>
      key +:+ tab +:+ fmt.d speed +:+ tab +:+ "NO FILE" +:+ tab +:+ "N/A" +:+ nl
  end.

Definition delta_header : string :=
  "Benchmark Name" +:+ tab +:+ "New Speed" +:+ tab +:+ "Best Speed" +:+ tab
    +:+ "Factor (New/Old)" +:+ nl.

(** [delta] is kept as the list of its rows; this is the string. *)
Definition render_delta (rows : list row) : string :=
  delta_header +:+ foldr (λ r s, render_row r +:+ s) EmptyString rows.

(** The variables of [compare] that its loops update. *)
Record cmp_state : Type := CmpState {
  cs_heap : heap;
  cs_rows : list row;
  cs_log : list logmsg;
  cs_firstMissing : bool;
  cs_missing : bool;
  cs_tooSlow : bool
}.

Definition add_row (r : row) (st : cmp_state) : cmp_state :=
  CmpState (cs_heap st) (cs_rows st ++ [r]) (cs_log st)
           (cs_firstMissing st) (cs_missing st) (cs_tooSlow st).

Definition add_log (m : logmsg) (st : cmp_state) : cmp_state :=
  CmpState (cs_heap st) (cs_rows st) (cs_log st ++ [m])
           (cs_firstMissing st) (cs_missing st) (cs_tooSlow st).

Definition set_heap (h : heap) (st : cmp_state) : cmp_state :=
  CmpState h (cs_rows st) (cs_log st)
           (cs_firstMissing st) (cs_missing st) (cs_tooSlow st).

Definition flag_missing (st : cmp_state) : cmp_state :=
  CmpState (cs_heap st) (cs_rows st) (cs_log st) true true (cs_tooSlow st).

Definition flag_tooSlow (st : cmp_state) : cmp_state :=
  CmpState (cs_heap st) (cs_rows st) (cs_log st)
           (cs_firstMissing st) (cs_missing st) true.

(** [factor := float64(speed) / float64(oldSpeed)] *)
Definition factor_of (speed oldSpeed : Z) : float64 :=
  f64.div (f64.of_int speed) (f64.of_int oldSpeed).

(** The classification of a benchmark. [compare] has no such type: a
    benchmark is [Missing], [New], ... by the report row and the log message
    that [compare] produces for it (see [classified] below). *)
Inductive status : Type := New | Missing | Regressed | Improved | Unchanged.

(** The branch taken by
    [if factor > speedTol { ... } else if factor < recordTol { ... }]. *)
Definition judge (speedTol recordTol factor : float64) : status :=
  if f64.gt factor speedTol then Regressed
  else if f64.lt factor recordTol then Improved
  else Unchanged.

(** The body of the loop over [oldBenches] (the missing comparison). *)
Definition missing_step (benches : loc) (st : cmp_state) (kv : string * Z) : cmp_state :=
  let '(key, speed) := kv in
  match deref (cs_heap st) benches !! key with
  | Some _ => st
  | None =>
      let st1 :=
        if cs_firstMissing st then st
        else flag_missing (add_log LogMissingHeader st) in
      add_row (RowMissing key speed) (add_log (LogMissingKey key) st1)
  end.

(** The body of the loop over [benches] (the speed comparison). *)
Definition speed_step (oldBenches : loc) (speedTol recordTol : float64)
    (st : cmp_state) (kv : string * Z) : cmp_state :=
  let '(benchName, speed) := kv in
  match deref (cs_heap st) oldBenches !! benchName with
  | None =>
      set_heap (store (cs_heap st) oldBenches benchName speed)
        (add_log (LogNew benchName) (add_row (RowNew benchName speed) st))
  | Some oldSpeed =>
      let factor := factor_of speed oldSpeed in
      let st1 := add_row (RowCompared benchName speed oldSpeed factor) st in
      match judge speedTol recordTol factor with
      | Regressed => flag_tooSlow (add_log (LogSlower benchName factor) st1)
      | Improved =>
          add_log (LogRecord benchName factor)
            (set_heap (store (cs_heap st1) oldBenches benchName speed) st1)
      | _ => st1
      end
  end.

(** The body of the loop over [benches] when there is no best file. *)
Definition nofile_step (oldBenches : loc) (st : cmp_state) (kv : string * Z) : cmp_state :=
  let '(key, speed) := kv in
  set_heap (store (cs_heap st) oldBenches key speed) (add_row (RowNoFile key speed) st).

(** What [compare] returns, with the heap it leaves and what it logged. *)
Record cmp_result : Type := CmpResult {
  res_heap : heap;
  res_rows : list row;
  res_bestBenches : loc;
  res_missing : bool;
  res_tooSlow : bool;
  res_log : list logmsg
}.

Definition res_delta (r : cmp_result) : string := render_delta (res_rows r).

(** The contents of the map returned as [bestBenches]. *)
Definition res_best (r : cmp_result) : gmap string Z :=
  deref (res_heap r) (res_bestBenches r).

Definition finish (st : cmp_state) (bestBenches : loc) : cmp_result :=
  CmpResult (cs_heap st) (cs_rows st) bestBenches (cs_missing st) (cs_tooSlow st) (cs_log st).

(** [compare(oldBenches, benches, pkgPath, speedTol, recordTol)] run on the
    heap [h]; [rOld] orders the loop over [oldBenches], [rNew] the loop over
    [benches]. Each loop visits the entries its map has when the loop
    starts: the first loop writes to no map, and the second one writes to
    [oldBenches] only (were [benches] the same map, every name would be
    found and a write would store the value already there). *)
Definition compare (rOld rNew : ranger) (h : heap)
    (oldBenches : option loc) (benches : loc) (pkgPath : string)
    (speedTol recordTol : float64) : cmp_result :=
  let st0 := CmpState h [] [] false false false in
  match oldBenches with
  | Some old =>
      let st1 := foldl (missing_step benches) st0 (range rOld (deref h old)) in
      let st2 := add_log LogLn st1 in
      let st3 := foldl (speed_step old speedTol recordTol) st2
                   (range rNew (deref h benches)) in
      finish st3 old
  | None =>
      let st1 := add_log LogNoBest st0 in
      let old := new_loc h in
      let st2 := set_heap (<[old := ∅]> h) st1 in
      let st3 := foldl (nofile_step old) st2 (range rNew (deref h benches)) in
      finish st3 old
  end.

(** The classification of a benchmark, read off the report row and the log
    message [compare] produced for it. *)
Definition classified (r : cmp_result) (name : string) (s : status) : Prop :=
  match s with
  | Missing => ∃ speed, RowMissing name speed ∈ res_rows r
  | New => ∃ speed, RowNew name speed ∈ res_rows r ∨ RowNoFile name speed ∈ res_rows r
  | Regressed =>
      ∃ speed oldSpeed factor,
        RowCompared name speed oldSpeed factor ∈ res_rows r
        ∧ LogSlower name factor ∈ res_log r
  | Improved =>
      ∃ speed oldSpeed factor,
        RowCompared name speed oldSpeed factor ∈ res_rows r
        ∧ LogRecord name factor ∈ res_log r
  | Unchanged =>
      ∃ speed oldSpeed factor,
        RowCompared name speed oldSpeed factor ∈ res_rows r
        ∧ (∀ f, LogSlower name f ∉ res_log r)
        ∧ (∀ f, LogRecord name f ∉ res_log r)
  end.

(** ** [tabAlign] *)

Definition intMax (a b : Z) : Z := if decide (a > b) then a else b.

(** [for i, str := range cols { max[i] = intMax(max[i], len(str)) }], from
    index [i] on; indexing the array out of range panics ([None]). *)
Fixpoint widen_from (i : nat) (cols : list string) (max : list Z) : option (list Z) :=
  match cols with
  | [] => Some max
  | str :: cols' =>
      old ← max !! i;
      widen_from (S i) cols' (<[i := intMax old (strings.len str)]> max)
  end.

(** The first loop of [tabAlign] over the rows. *)
Fixpoint widen_rows (rows : list string) (max : list Z) : option (list Z) :=
  match rows with
  | [] => Some max
  | row :: rows' =>
      let cols := strings.Split row "009" in
      if decide (length cols ≠ 4%nat) then widen_rows rows' max
      else max' ← widen_from 0 cols max; widen_rows rows' max'
  end.

(** [for i := 0; i < len(cols)-1; i++ { str += Repeat(" ", max[i]-len(cols[i])+4);
    str += cols[i+1] }] with [n] iterations left. *)
Fixpoint pad_from (max : list Z) (cols : list string) (i n : nat) (str : string)
    : option string :=
  match n with
  | O => Some str
  | S n' =>
      m ← max !! i;
      c ← cols !! i;
      sp ← strings.Repeat " " (m - strings.len c + 4);
      nxt ← cols !! S i;
      pad_from max cols (S i) n' ((str +:+ sp) +:+ nxt)
  end.

Definition align_cols (max : list Z) (cols : list string) : option string :=
  str ← cols !! 0%nat;
  pad_from max cols 0 (length cols - 1) str.

(** The second loop of [tabAlign]: row [r] on, writing [aligned[r]]. *)
Fixpoint align_rows (max : list Z) (rows : list string) (r : nat)
    (aligned : list string) : option (list string) :=
  match rows with
  | [] => Some aligned
  | row :: rows' =>
      let cols := strings.Split row "009" in
      if decide (length cols ≠ 4%nat) then align_rows max rows' (S r) aligned
      else
        str ← align_cols max cols;
        if decide (r < length aligned)%nat
        then align_rows max rows' (S r) (<[r := str]> aligned)
        else None
  end.

(** [tabAlign(delta)]; [None] is a run-time panic. *)
Definition tabAlign (delta : string) : option string :=
  let rows := strings.Split delta "010" in
  max ← widen_rows rows [0; 0; 0; 0];
  aligned ← align_rows max rows 0 (replicate (length rows) EmptyString);
  Some (strings.Join aligned nl).

(** ** [convertPath] (the build for systems other than Windows) and [findGosrc] *)

Definition convertPath (pathFromTest : string) : string := pathFromTest.

Definition reform (pieces : list string) : string := strings.Join pieces "/".

Definition findGosrc (pwd pkgName : string) : string :=
  let path := convertPath pkgName in
  let index := strings.LastIndex pwd path in
  if decide (index ≤ 1) then EmptyString
  else strings.slice_to pwd (Z.to_nat (index - 1)).

(** ** [strings.TrimSpace] and [strconv.ParseUint] *)

Module unicode.

Definition bytes (l : list N) : string := String.string_of_list_ascii (ascii_of_N <$> l).

(** The UTF-8 encodings of the code points with [unicode.IsSpace]:
    U+0009..U+000D, U+0020, U+0085, U+00A0, U+1680, U+2000..U+200A,
    U+2028, U+2029, U+202F, U+205F, U+3000. *)
Definition spaces : list string :=
  bytes <$> [ [9]; [10]; [11]; [12]; [13]; [32]; [194; 133]; [194; 160];
              [225; 154; 128];
              [226; 128; 128]; [226; 128; 129]; [226; 128; 130];
              [226; 128; 131]; [226; 128; 132]; [226; 128; 133];
              [226; 128; 134]; [226; 128; 135]; [226; 128; 136];
              [226; 128; 137]; [226; 128; 138];
              [226; 128; 168]; [226; 128; 169]; [226; 128; 175];
              [226; 129; 159]; [227; 128; 128] ]%N.

Fixpoint drop (n : nat) (s : string) : string :=
  match n, s with
  | S n', String _ s' => drop n' s'
  | _, _ => s
  end.

(** Removes the leading runes of [s] whose encoding is in [runes]; every
    round removes at least one byte, so [String.length s] rounds are
    enough. *)
Fixpoint trim_left (runes : list string) (fuel : nat) (s : string) : string :=
  match fuel with
  | O => s
  | S fuel' =>
      match List.find (strings.HasPrefix s) runes with
      | Some r =>
          if decide (r = EmptyString) then s
          else trim_left runes fuel' (drop (String.length r) s)
      | None => s
      end
  end.

End unicode.

Module strings_trim.
(** [strings.TrimSpace(s)] *)
Definition TrimSpace (s : string) : string :=
  let s1 := unicode.trim_left unicode.spaces (String.length s) s in
  String.rev
    (unicode.trim_left (String.rev <$> unicode.spaces) (String.length s1) (String.rev s1)).
End strings_trim.

Module strconv.

Definition digit (c : ascii) : option Z :=
  let n := Z.of_N (N_of_ascii c) in
  if decide (48 ≤ n ≤ 57) then Some (n - 48) else None.

Fixpoint digits (s : string) (acc : Z) : option Z :=
  match s with
  | EmptyString => Some acc
  | String c s' => d ← digit c; digits s' (10 * acc + d)
  end.

(** [strconv.ParseUint(s, 10, 64)]: [None] when it returns an error (an
    empty string, a byte that is not a decimal digit, or a value that does
    not fit 64 bits). *)
Definition ParseUint (s : string) : option Z :=
  if decide (s = EmptyString) then None
  else v ← digits s 0; if decide (v < 2 ^ 64) then Some v else None.

End strconv.

(** ** [runAndStoreBenches] *)

Inductive go_error : Type :=
  | ErrGoTest   (* errors.New("Problem running go test") *)
  | ErrConvert. (* errors.New("Couldn't convert benchmark time to uint64") *)

(** [record] and [curr]. *)
Record parse_state : Type := ParseState {
  ps_record : gmap string (gmap string Z);
  ps_curr : gmap string Z
}.

(** [result]: the columns of a line, each trimmed. *)
Definition columns (line : string) : list string :=
  strings_trim.TrimSpace <$> strings.Split line "009".

(** The cutset [" ns/op"]. *)
Definition ns_op : list ascii := [" "; "n"; "s"; "/"; "o"; "p"]%char.

(** The body of the loop over the lines; [inl] is the early return with an
    error. *)
Definition parse_step (st : parse_state) (line : string) : go_error + parse_state :=
  match columns line with
  | r0 :: r1 :: r2 :: _ =>
      if decide (r0 = "?") then inr st
      else if strings.HasPrefix r0 "Benchmark" then
        let time := strings.TrimRight r2 ns_op in
        match strconv.ParseUint time with
        | None => inl ErrConvert
        | Some t => inr (ParseState (ps_record st) (<[r0 := t]> (ps_curr st)))
        end
      else if decide (r0 = "ok") then
        inr (ParseState (<[r1 := ps_curr st]> (ps_record st)) ∅)
      else inr st
  | _ => inr st
  end.

Fixpoint parse_lines (st : parse_state) (lines : list string) : go_error + parse_state :=
  match lines with
  | [] => inr st
  | line :: lines' =>
      match parse_step st line with
      | inl e => inl e
      | inr st' => parse_lines st' lines'
      end
  end.

(** What [runAndStoreBenches] returns when the loop ends in [r]: [nil] and
    the error of the early return, or [record] and [nil]. *)
Definition parse_result (r : go_error + parse_state)
    : option (gmap string (gmap string Z)) * option go_error :=
  match r with
  | inl e => (None, Some e)
  | inr st => (Some (ps_record st), None)
  end.

(** [record] and [curr] before the loop. *)
Definition parse_init : parse_state := ParseState ∅ ∅.

(** The parser of [runAndStoreBenches], on the output [outstr] of [go test]. *)
Definition parse_output (outstr : string)
    : option (gmap string (gmap string Z)) * option go_error :=
  parse_result (parse_lines parse_init (strings.Split outstr "010")).

(** [runAndStoreBenches()]; [gotest] is what [gotest.Output()] gave: the
    output, or [None] for an error. *)
Definition runAndStoreBenches (gotest : option string)
    : option (gmap string (gmap string Z)) * option go_error :=
  match gotest with
  | None => (None, Some ErrGoTest)
  | Some out => parse_output out
  end.

(** ** The file system, [backupMarshallAndStore] and [unmarshallAndStoreBench] *)

(** [encoding/json] on [map[string]uint64] is a parameter of the model. *)
Record json_codec : Type := JsonCodec {
  json_Marshal : gmap string Z → string;
  json_Unmarshal : string → option (gmap string Z)
}.

(** The working directory, the directories one can enter and the files, by
    path. An operation fails only when a file or directory it needs is not
    there. *)
Record world : Type := World {
  w_cwd : string;
  w_dirs : gset string;
  w_files : gmap string string
}.

Module os.
(** A file name of the program, relative to the working directory. *)
Definition path (w : world) (name : string) : string := reform [w_cwd w; name].

(** [_, err := os.Stat(name); !os.IsNotExist(err)] *)
Definition exists_ (w : world) (name : string) : bool :=
  bool_decide (is_Some (w_files w !! path w name)).

Definition Remove (w : world) (name : string) : world :=
  World (w_cwd w) (w_dirs w) (delete (path w name) (w_files w)).

Definition Rename (w : world) (oldname newname : string) : world :=
  match w_files w !! path w oldname with
  | Some data =>
      World (w_cwd w) (w_dirs w)
            (<[path w newname := data]> (delete (path w oldname) (w_files w)))
  | None => w
  end.

Definition WriteFile (w : world) (name data : string) : world :=
  World (w_cwd w) (w_dirs w) (<[path w name := data]> (w_files w)).

(** [os.Chdir(dir)]; [None] is an error. *)
Definition Chdir (w : world) (dir : string) : option world :=
  if decide (dir ∈ w_dirs w) then Some (World dir (w_dirs w) (w_files w)) else None.
End os.

(** One of the three backups of [backupMarshallAndStore]. *)
Definition backup (name old : string) (w : world) : world :=
  if os.exists_ w name then os.Rename (os.Remove w old) name old else w.

Definition backupMarshallAndStore (js : json_codec) (delta : string)
    (benches newBest : gmap string Z) (w : world) : world :=
  let w1 := backup ".bench_results.json" ".bench_results.json.old" w in
  let w2 := backup ".bench_best.json" ".bench_best.json.old" w1 in
  let w3 := backup "bench_comparison.txt" ".bench_comparison.txt.old" w2 in
  let w4 :=
    if decide (0 < size benches)%nat
    then os.WriteFile w3 ".bench_results.json" (json_Marshal js benches) else w3 in
  let w5 :=
    if decide (0 < size newBest)%nat
    then os.WriteFile w4 ".bench_best.json" (json_Marshal js newBest) else w4 in
  if decide ((0 < size benches)%nat ∨ (0 < size newBest)%nat)
  then os.WriteFile w5 "bench_comparison.txt" delta else w5.

Definition unmarshallAndStoreBench (js : json_codec) (w : world) (fileName : string)
    : option (gmap string Z) :=
  match w_files w !! os.path w fileName with
  | None => None
  | Some raw => json_Unmarshal js raw
  end.

(** ** [rebench] *)

(** The iteration orders of one run: of the loop that finds [gosrc], of the
    loop over the packages, and of the two loops of [compare] for each
    package. *)
Record schedule : Type := Schedule {
  sch_first : ranger;
  sch_pkgs : ranger;
  sch_old : string → ranger;
  sch_new : string → ranger
}.

(** How a call of [rebench] ends: it returns a code, [log.Fatalln] ends the
    process, or a run-time panic does. *)
Inductive outcome : Type := Returned (code : Z) | Fatal | Panic.

(** [float64(percent) / 100] *)
Definition tolerance (percent : Z) : float64 := f64.div (f64.of_int percent) (f64.of_int 100).

(** The loop of [rebench] over the packages; [None] is a panic. In every
    round [benches] and the map read from [.bench_best.json] are two
    distinct maps. *)
Fixpoint pkg_loop (js : json_codec) (sch : schedule) (gosrc : string)
    (speedTol recordTol : float64) (pkgs : list (string * gmap string Z))
    (w : world) (missing tooSlow : bool) : option (world * bool * bool) :=
  match pkgs with
  | [] => Some (w, missing, tooSlow)
  | (pkgPath, benches) :: pkgs' =>
      match os.Chdir w (reform [gosrc; pkgPath]) with
      | None => pkg_loop js sch gosrc speedTol recordTol pkgs' w missing tooSlow
      | Some w1 =>
          let read := unmarshallAndStoreBench js w1 ".bench_best.json" in
          let h : heap :=
            match read with
            | Some old => {[ 1%positive := benches; 2%positive := old ]}
            | None => {[ 1%positive := benches ]}
            end in
          let oldBenches := match read with Some _ => Some 2%positive | None => None end in
          let r := compare (sch_old sch pkgPath) (sch_new sch pkgPath) h oldBenches
                     1%positive pkgPath speedTol recordTol in
          match tabAlign (res_delta r) with
          | None => None
          | Some report =>
              let w2 := backupMarshallAndStore js report
                          (deref (res_heap r) 1%positive)
                          (deref (res_heap r) (res_bestBenches r)) w1 in
              pkg_loop js sch gosrc speedTol recordTol pkgs' w2
                       (missing || res_missing r) (tooSlow || res_tooSlow r)
          end
      end
  end.

(** [rebench(speedTolPercent, recordTolPercent)] in the world [w]; the calls
    of [log] are left out, and [os.Getwd] returns [w_cwd w]. *)
Definition rebench (js : json_codec) (sch : schedule) (gotest : option string)
    (w : world) (speedTolPercent recordTolPercent : Z) : outcome * world :=
  match runAndStoreBenches gotest with
  | (_, Some err) => (Returned (-1), w)
  | (record, None) =>
      let record := default ∅ record in
      if decide (size record = 0%nat) then (Returned 0, w)
      else
        let pwd := w_cwd w in
        let speedTol := tolerance speedTolPercent in
        let recordTol := tolerance recordTolPercent in
        let gosrc :=
          match range (sch_first sch) record with
          | [] => Some EmptyString
          | (key, _) :: _ =>
              let g := findGosrc pwd key in
              if decide (g = EmptyString) then None else Some g
          end in
        match gosrc with
        | None => (Fatal, w)
        | Some gosrc =>
            match pkg_loop js sch gosrc speedTol recordTol
                    (range (sch_pkgs sch) record) w false false with
            | None => (Panic, w)
            | Some (w', missing, tooSlow) =>
                let exitCode := 0 in
                let exitCode := if missing then 1 else exitCode in
                let exitCode := if tooSlow then 1 else exitCode in
                (Returned exitCode, w')
            end
        end
  end.

(** ** Closed forms of the loops of [compare] *)

(** The value [compare] leaves in the best map for a benchmark of [benches]
    with timing [speed], when the best map had [o] for it. *)
Definition best_of (speedTol recordTol : float64) (o : option Z) (speed : Z) : Z :=
  match o with
  | None => speed
  | Some oldSpeed =>
      match judge speedTol recordTol (factor_of speed oldSpeed) with
      | Improved => speed
      | _ => oldSpeed
      end
  end.

(** The best map after [compare], from the best map [B] and the current
    map [C]. *)
Definition new_baseline (speedTol recordTol : float64) (B C : gmap string Z)
    : gmap string Z :=
  merge (λ ob oc, match oc with
                  | None => ob
                  | Some c => Some (best_of speedTol recordTol ob c)
                  end) B C.

Definition missing_row (kv : string * Z) : row := RowMissing kv.1 kv.2.

Definition is_missing (C : gmap string Z) (kv : string * Z) : Prop := C !! kv.1 = None.

Definition speed_row (B : gmap string Z) (kv : string * Z) : row :=
  match B !! kv.1 with
  | None => RowNew kv.1 kv.2
  | Some o => RowCompared kv.1 kv.2 o (factor_of kv.2 o)
  end.

Definition speed_logs (speedTol recordTol : float64) (B : gmap string Z)
    (kv : string * Z) : list logmsg :=
  match B !! kv.1 with
  | None => [LogNew kv.1]
  | Some o =>
      match judge speedTol recordTol (factor_of kv.2 o) with
      | Regressed => [LogSlower kv.1 (factor_of kv.2 o)]
      | Improved => [LogRecord kv.1 (factor_of kv.2 o)]
      | _ => []
      end
  end.

Definition speed_slow (speedTol recordTol : float64) (B : gmap string Z)
    (kv : string * Z) : bool :=
  match B !! kv.1 with
  | None => false
  | Some o =>
      match judge speedTol recordTol (factor_of kv.2 o) with
      | Regressed => true
      | _ => false
      end
  end.

Definition nofile_row (kv : string * Z) : row := RowNoFile kv.1 kv.2.

(** ** Example data *)

Module examples.
(** The regression scenario: both benchmarks got much slower. *)
Definition regression : heap :=
  {[ 1%positive := {[ "X" := 1; "Y" := 1 ]};
     2%positive := {[ "X" := 500000000; "Y" := 5000000000 ]} ]}.

(** The improvement scenario. *)
Definition improvement : heap :=
  {[ 1%positive := {[ "X" := 1000; "Y" := 10000 ]};
     2%positive := {[ "X" := 500; "Y" := 10000 ]} ]}.

(** A benchmark of the best file is missing from the run. *)
Definition missing : heap :=
  {[ 1%positive := {[ "A" := 500; "B" := 10000 ]};
     2%positive := {[ "B" := 10000 ]} ]}.

(** The run equals the best file. *)
Definition same : heap :=
  {[ 1%positive := {[ "A" := 500; "B" := 10000 ]};
     2%positive := {[ "A" := 500; "B" := 10000 ]} ]}.

(** The default tolerances, [-speedTol 150] and [-recordTol 70]. *)
Definition speedTol : float64 := tolerance 150.
Definition recordTol : float64 := tolerance 70.
End examples.

(** ** The layout [tabAlign] computes *)

Definition fields (row : string) : list string := strings.Split row "009".

(** A row with exactly four fields. *)
Definition well_formed (row : string) : Prop := length (fields row) = 4%nat.

Definition field_width (i : nat) (row : string) : nat :=
  String.length (fields row !!! i).

(** The width of column [i]: the largest width of field [i] among the
    well-formed rows. *)
Definition col_width (rows : list string) (i : nat) : nat :=
  max_list_with (field_width i) (filter well_formed rows).

Definition spaces (n : nat) : string := strings.repeat_nat " " n.

(** Field [c] of column [i], followed by the spaces up to the column width
    and four more. *)
Definition pad (rows : list string) (i : nat) (c : string) : string :=
  c +:+ spaces (col_width rows i - String.length c + 4).

(** The output line for [row]: aligned when it is well formed, otherwise
    empty. *)
Definition aligned_row (rows : list string) (row : string) : string :=
  match fields row with
  | [c0; c1; c2; c3] => pad rows 0 c0 +:+ pad rows 1 c1 +:+ pad rows 2 c2 +:+ c3
  | _ => EmptyString
  end.

Module examples_text.
(** Two well-formed rows around a row with one field. *)
Definition report : string :=
  "a" +:+ tab +:+ "bbb" +:+ tab +:+ "c" +:+ tab +:+ "d" +:+ nl
  +:+ "bad" +:+ nl
  +:+ "eeee" +:+ tab +:+ "f" +:+ tab +:+ "g" +:+ tab +:+ "h".
End examples_text.

(** ** Occurrences of a substring *)

(** [substr] occurs in [s] at index [i]. *)
Definition occurs_at (s substr : string) (i : nat) : Prop :=
  ∃ pre post, s = pre +:+ substr +:+ post ∧ String.length pre = i.

(** [i] is the index of the last occurrence of [substr] in [s]. *)
Definition last_occurrence (s substr : string) (i : nat) : Prop :=
  occurs_at s substr i ∧ ∀ j, occurs_at s substr j → (j ≤ i)%nat.

(** [s] ends with [suffix]. *)
Definition ends_with (s suffix : string) : Prop := ∃ pre, s = pre +:+ suffix.

(** ** The kinds of line in the output of [go test] *)

(** A benchmark measurement: at least three columns, the first with the
    prefix [Benchmark]. *)
Definition is_measurement (line : string) : Prop :=
  match columns line with
  | r0 :: _ :: _ :: _ => strings.HasPrefix r0 "Benchmark" = true
  | _ => False
  end.

(** The third column without its unit suffix. *)
Definition timing_field (line : string) : string :=
  match columns line with
  | _ :: _ :: r2 :: _ => strings.TrimRight r2 ns_op
  | _ => EmptyString
  end.

(** A measurement whose timing is not an unsigned 64-bit integer. *)
Definition bad_timing (line : string) : Prop :=
  is_measurement line ∧ strconv.ParseUint (timing_field line) = None.

(** A flush: at least three columns, the first exactly [ok]. *)
Definition is_flush (line : string) : Prop :=
  match columns line with
  | r0 :: _ :: _ :: _ => r0 = "ok"
  | _ => False
  end.

Module examples_output.
Definition ok_line : string := "ok  " +:+ tab +:+ "example.com/pkg" +:+ tab +:+ "6.5s".
Definition sleep_line : string :=
  "BenchmarkSleep" +:+ tab +:+ "       1" +:+ tab +:+ "1000123456 ns/op".
Definition bad_line : string :=
  "BenchmarkBad" +:+ tab +:+ "       1" +:+ tab +:+ "12.5 ns/op".
Definition orphan_line : string :=
  "BenchmarkOrphan" +:+ tab +:+ "     100" +:+ tab +:+ "42 ns/op".

(** One package, flushed. *)
Definition good : string := "PASS" +:+ nl +:+ sleep_line +:+ nl +:+ ok_line.
(** A timing with a decimal point. *)
Definition bad : string := sleep_line +:+ nl +:+ bad_line +:+ nl +:+ ok_line.

(** A codec for the examples: it prints the entries of a map, and reads
    back the one text [show fast]. *)
Definition dq : string := String "034" EmptyString.
Definition show_entry (kv : string * Z) : string :=
  dq +:+ kv.1 +:+ dq +:+ ":" +:+ fmt.d kv.2.
Definition show (m : gmap string Z) : string :=
  "{" +:+ strings.Join (show_entry <$> map_to_list m) "," +:+ "}".
Definition fast : gmap string Z := {[ "BenchmarkSleep" := 500 ]}.
Definition json : json_codec :=
  JsonCodec show (λ raw, if decide (raw = show fast) then Some fast else None).
Definition sched : schedule :=
  Schedule in_order in_order (λ _, in_order) (λ _, in_order).
(** A package directory without files, and one with a best file. *)
Definition w0 : world := World "/go/src/example.com/pkg" {[ "/go/src/example.com/pkg" ]} ∅.
Definition w1 : world :=
  World "/go/src/example.com/pkg" {[ "/go/src/example.com/pkg" ]}
        {[ "/go/src/example.com/pkg/.bench_best.json" := show fast ]}.
End examples_output.

(** ** Rounding to nearest even, in integer arithmetic

    [binary_round_aux] keeps a positive real as an integer mantissa with a
    round bit and a sticky bit. For the real [A / D] these three are the
    digits of one integer, its code. *)

(** The code of [A / D]: [2 * floor (2A / D)], plus one when [2A / D] is
    not an integer. *)
Definition code (A D : Z) : Z := 2 * (2 * A / D) + (if 2 * A mod D =? 0 then 0 else 1).

(** The code of half the value. *)
Definition halve (c : Z) : Z := 2 * (c / 4) + (if c mod 4 =? 0 then 0 else 1).

(** The integer nearest to the value with code [c], ties to even. *)
Definition rne (c : Z) : Z :=
  c / 4 + (if c mod 4 =? 3 then 1
           else if c mod 4 =? 2 then (if Z.even (c / 4) then 0 else 1)
           else 0).

Definition loc_code (l : location) : Z :=
  match l with
  | loc_Exact => 0
  | loc_Inexact Lt => 1
  | loc_Inexact Eq => 2
  | loc_Inexact Gt => 3
  end.

Definition rec_code (mrs : shr_record) : Z :=
  4 * shr_m mrs + (if shr_r mrs then 2 else 0) + (if shr_s mrs then 1 else 0).

(** [2^52] and [2^53]: the mantissa of a normal [float64] is in
    [[two52, two53)]. *)
Definition two52 : Z := 4503599627370496.
Definition two53 : Z := 9007199254740992.

(** The float with mantissa [r] in [[two52, two53]] and exponent [E]. *)
Definition normal (r E : Z) : float64 :=
  if r <? two53 then S754_finite false (Z.to_pos r) E
  else S754_finite false (Z.to_pos two52) (E + 1).

(** A key for the floats that are not NaN: [SFcompare] compares keys
    lexicographically. *)
Definition key (x : float64) : Z * Z * Z :=
  match x with
  | S754_nan => (0, 0, 0)
  | S754_infinity true => (-2, 0, 0)
  | S754_infinity false => (2, 0, 0)
  | S754_zero _ => (0, 0, 0)
  | S754_finite true m e => (-1, - e, - Z.pos m)
  | S754_finite false m e => (1, e, Z.pos m)
  end.

Definition key_lt (k1 k2 : Z * Z * Z) : Prop :=
  let '(a1, b1, c1) := k1 in
  let '(a2, b2, c2) := k2 in
  a1 < a2 ∨ a1 = a2 ∧ (b1 < b2 ∨ b1 = b2 ∧ c1 < c2).

Definition key_le (k1 k2 : Z * Z * Z) : Prop := key_lt k1 k2 ∨ k1 = k2.

Definition is_nan (x : float64) : Prop := x = S754_nan.

(** ** [getPieces], and the build for Windows ([convertpath_windows.go]) *)

Definition getPieces (path : string) : list string := strings.Split path "/".

Module windows.

(** [strings.Replace(s, old, new, -1)] for a one-byte [old] and a one-byte
    [new]: every occurrence is replaced. *)
Fixpoint Replace (s : string) (old new : ascii) : string :=
  match s with
  | EmptyString => EmptyString
  | String c s' => String (if decide (c = old) then new else c) (Replace s' old new)
  end.

(** The backslash. *)
Definition bs : ascii := "092".

Definition convertPath (pathFromTest : string) : string := Replace pathFromTest "/" bs.

Definition getPieces (path : string) : list string := strings.Split path bs.

Definition reform (pieces : list string) : string :=
  strings.Join pieces (String bs EmptyString).

(** [findGosrc] as it is built on Windows: with this [convertPath]. *)
Definition findGosrc (pwd pkgName : string) : string :=
  let path := convertPath pkgName in
  let index := strings.LastIndex pwd path in
  if decide (index ≤ 1) then EmptyString
  else strings.slice_to pwd (Z.to_nat (index - 1)).

End windows.

(** ** The bytes of a string *)

(** The byte [c] occurs in [s]. *)
Definition contains (s : string) (c : ascii) : Prop := c ∈ String.list_ascii_of_string s.

(** A byte that is neither a tab nor a newline. *)
Definition plain (c : ascii) : Prop := c ≠ "009"%char ∧ c ≠ "010"%char.

(** ** The rows of the report *)

(** The benchmark a row is about (its first field). *)
Definition row_name (r : row) : string :=
  match r with
  | RowMissing key _ => key
  | RowNew benchName _ => benchName
  | RowCompared benchName _ _ _ => benchName
  | RowNoFile key _ => key
  end.

(** The four fields of a row, as the [Sprintf] call of [compare] prints
    them. *)
Definition row_fields (r : row) : list string :=
  match r with
  | RowMissing key speed => [key; "MISSING"; fmt.d speed; "N/A"]
  | RowNew benchName speed => [benchName; fmt.d speed; "MISSING"; "N/A"]
  | RowCompared benchName speed oldSpeed factor =>
      [benchName; fmt.d speed; fmt.d oldSpeed; fmt.f factor]
  | RowNoFile key speed => [key; fmt.d speed; "NO FILE"; "N/A"]
  end.

(** The fields of the header line of [delta]. *)
Definition header_fields : list string :=
  ["Benchmark Name"; "New Speed"; "Best Speed"; "Factor (New/Old)"].

(** Where column [k] starts in an aligned row: after the columns before it,
    each as wide as its widest field and four spaces. *)
Fixpoint column_start (rows : list string) (k : nat) : nat :=
  match k with
  | O => O
  | S k' => (column_start rows k' + col_width rows k' + 4)%nat
  end.

(** The bytes of [s] from index [n] on: [s[n:]]. *)
Definition slice_from (s : string) (n : nat) : string := unicode.drop n s.

(** ** The output of [go test]: the package of a flush line *)

(** The second column of a line. *)
Definition flush_package (line : string) : option string := columns line !! 1%nat.

(** A line the parser skips: it is neither a measurement nor a flush. *)
Definition is_skipped (line : string) : Prop := ¬ is_measurement line ∧ ¬ is_flush line.

(** What the parser lets into a map: a name that starts with [Benchmark]
    and a timing that fits 64 bits. *)
Definition parsed_entry (name : string) (t : Z) : Prop :=
  strings.HasPrefix name "Benchmark" = true ∧ 0 ≤ t < 2 ^ 64.

(** ** The files of a package directory *)

(** The names [backupMarshallAndStore] uses. *)
Definition artifacts : list string :=
  [ ".bench_results.json"; ".bench_results.json.old";
    ".bench_best.json"; ".bench_best.json.old";
    "bench_comparison.txt"; ".bench_comparison.txt.old" ].

(** The contents of the file [name] of the working directory, if there is
    one. *)
Definition file (w : world) (name : string) : option string :=
  w_files w !! os.path w name.

(** A codec that reads back what it wrote. *)
Definition round_trips (js : json_codec) (m : gmap string Z) : Prop :=
  json_Unmarshal js (json_Marshal js m) = Some m.

(** * Properties *)

(** ** Iteration order *)

Section range_facts.
Context {V : Type}.
Implicit Types (r : ranger) (m : gmap string V).

Lemma range_perm r m : range r m ≡ₚ map_to_list m.
Proof. apply range_order_perm. Qed.

Lemma range_NoDup_fst r m : NoDup (range r m).*1.
Proof. rewrite range_perm. apply NoDup_fst_map_to_list. Qed.

Lemma elem_of_range r m k v : (k, v) ∈ range r m ↔ m !! k = Some v.
Proof. rewrite range_perm. apply elem_of_map_to_list. Qed.

Lemma list_to_map_range r m : list_to_map (range r m) = m.
Proof.
  rewrite (list_to_map_proper _ (map_to_list m)).
  - apply list_to_map_to_list.
  - apply range_NoDup_fst.
  - apply range_perm.
Qed.

Lemma range_any r1 r2 m : range r1 m ≡ₚ range r2 m.
Proof. by rewrite !range_perm. Qed.
End range_facts.

(** ** The heap *)

Lemma deref_store_eq h l k v : deref (store h l k v) l = <[k := v]> (deref h l).
Proof. unfold deref, store. by rewrite lookup_insert_eq. Qed.

Lemma lookup_store_ne h l l' k v : l ≠ l' → store h l k v !! l' = h !! l'.
Proof. intros. unfold store. by rewrite lookup_insert_ne. Qed.

Lemma lookup_store_is_Some h l l' k v : is_Some (h !! l') → is_Some (store h l k v !! l').
Proof.
  intros. unfold store. destruct (decide (l = l')) as [->|].
  - rewrite lookup_insert_eq. eauto.
  - by rewrite lookup_insert_ne.
Qed.

Lemma new_loc_fresh h : h !! new_loc h = None.
Proof. apply not_elem_of_dom. unfold new_loc. apply is_fresh. Qed.

(** ** The loop over the old benchmarks *)

Section missing_loop.
Variable benches : loc.

Lemma missing_step_heap st kv : cs_heap (missing_step benches st kv) = cs_heap st.
Proof.
  destruct kv as [key speed]. unfold missing_step.
  destruct (deref _ _ !! key); [done|]. by destruct (cs_firstMissing st).
Qed.

Lemma missing_loop_heap l st : cs_heap (foldl (missing_step benches) st l) = cs_heap st.
Proof.
  revert st. induction l as [|kv l IH]; intros st; simpl; [done|].
  by rewrite IH, missing_step_heap.
Qed.

Lemma missing_loop_tooSlow l st :
  cs_tooSlow (foldl (missing_step benches) st l) = cs_tooSlow st.
Proof.
  revert st. induction l as [|[key speed] l IH]; intros st; simpl; [done|].
  rewrite IH. unfold missing_step.
  destruct (deref _ _ !! key); [done|]. by destruct (cs_firstMissing st).
Qed.

Lemma missing_loop_rows l st :
  cs_rows (foldl (missing_step benches) st l)
  = cs_rows st ++ (missing_row <$> filter (is_missing (deref (cs_heap st) benches)) l).
Proof.
  revert st. induction l as [|[key speed] l IH]; intros st; cbn [foldl].
  { simpl. by rewrite app_nil_r. }
  rewrite IH, missing_step_heap.
  destruct (deref (cs_heap st) benches !! key) eqn:E.
  - rewrite filter_cons_False by (unfold is_missing; simpl; congruence).
    unfold missing_step. by rewrite E.
  - rewrite filter_cons_True by done.
    unfold missing_step. rewrite E.
    destruct (cs_firstMissing st); simpl; by rewrite <- app_assoc.
Qed.

(** The flag [missing] is raised exactly when some row was added. *)
Lemma missing_loop_flag l st :
  cs_firstMissing st = cs_missing st →
  let st' := foldl (missing_step benches) st l in
  cs_firstMissing st' = cs_missing st'
  ∧ cs_missing st'
    = cs_missing st
      || bool_decide (filter (is_missing (deref (cs_heap st) benches)) l ≠ []).
Proof.
  revert st. induction l as [|[key speed] l IH]; intros st Hst; cbn [foldl].
  { split; [done|]. rewrite bool_decide_false by (intros H; by apply H).
    by rewrite orb_false_r. }
  destruct (IH (missing_step benches st (key, speed))) as [IH1 IH2].
  { unfold missing_step. destruct (deref _ _ !! key); [done|].
    destruct (cs_firstMissing st) eqn:F; simpl; congruence. }
  split; [done|]. rewrite IH2, missing_step_heap.
  destruct (deref (cs_heap st) benches !! key) eqn:E.
  - rewrite filter_cons_False by (unfold is_missing; simpl; congruence).
    unfold missing_step. by rewrite E.
  - rewrite filter_cons_True by done.
    rewrite (bool_decide_true (_ :: _ ≠ [])) by done.
    rewrite orb_true_r. unfold missing_step. rewrite E.
    destruct (cs_firstMissing st) eqn:F; simpl.
    + by rewrite <- Hst.
    + done.
Qed.

(** What the loop logs: the names of the missing benchmarks, and a header. *)
Lemma missing_loop_log l st m :
  m ∈ cs_log (foldl (missing_step benches) st l) →
  m ∈ cs_log st ∨ m = LogMissingHeader ∨ ∃ key, m = LogMissingKey key.
Proof.
  revert st. induction l as [|[key speed] l IH]; intros st; simpl; [by left|].
  intros [H|H]%IH; [|by right].
  revert H. unfold missing_step.
  destruct (deref _ _ !! key); [by left|].
  destruct (cs_firstMissing st); simpl; rewrite ?elem_of_app, ?list_elem_of_singleton.
  - intros [?| ->]; eauto.
  - intros [[?| ->]| ->]; eauto.
Qed.

Lemma missing_loop_log_key l st key speed :
  (key, speed) ∈ l → deref (cs_heap st) benches !! key = None →
  LogMissingKey key ∈ cs_log (foldl (missing_step benches) st l).
Proof.
  assert (mono : ∀ l st m, m ∈ cs_log st → m ∈ cs_log (foldl (missing_step benches) st l)).
  { clear. induction l as [|[k s] l IH]; intros st m Hm; simpl; [done|].
    apply IH. unfold missing_step. destruct (deref _ _ !! k); [done|].
    destruct (cs_firstMissing st); simpl; set_solver. }
  revert st. induction l as [|[k s] l IH]; intros st Hin Hnone; cbn [foldl].
  { by apply elem_of_nil in Hin. }
  apply elem_of_cons in Hin as [[= <- <-]|Hin].
  - apply mono. unfold missing_step. rewrite Hnone.
    destruct (cs_firstMissing st); simpl; set_solver.
  - apply IH; [done|]. by rewrite missing_step_heap.
Qed.
End missing_loop.

(** ** The loop over the new benchmarks *)

Section speed_loop.
Variables (old : loc) (speedTol recordTol : float64).

Local Abbreviation step := (speed_step old speedTol recordTol).
Local Abbreviation best := (best_of speedTol recordTol).

(** One round, in terms of the best map [B] before it. *)
Lemma speed_step_spec st kv :
  let B := deref (cs_heap st) old in
  let st' := step st kv in
  cs_rows st' = cs_rows st ++ [speed_row B kv]
  ∧ cs_log st' = cs_log st ++ speed_logs speedTol recordTol B kv
  ∧ cs_tooSlow st' = cs_tooSlow st || speed_slow speedTol recordTol B kv
  ∧ cs_missing st' = cs_missing st
  ∧ deref (cs_heap st') old = <[kv.1 := best (B !! kv.1) kv.2]> B
  ∧ (∀ l', l' ≠ old → cs_heap st' !! l' = cs_heap st !! l')
  ∧ (∀ l', is_Some (cs_heap st !! l') → is_Some (cs_heap st' !! l')).
Proof.
  destruct kv as [name speed]. intros B st'. subst st'.
  unfold speed_step, speed_row, speed_logs, speed_slow, best_of. simpl. fold B.
  destruct (B !! name) as [oldSpeed|] eqn:E.
  - destruct (judge speedTol recordTol (factor_of speed oldSpeed)); simpl;
      rewrite ?app_nil_r, ?orb_false_r, ?orb_true_r, ?deref_store_eq;
      repeat split; try done;
      try (fold B; by rewrite insert_id);
      try (intros; by apply lookup_store_ne);
      try (intros; by apply lookup_store_is_Some).
  - simpl. rewrite orb_false_r, deref_store_eq.
    repeat split; try done;
      try (intros; by apply lookup_store_ne);
      try (intros; by apply lookup_store_is_Some).
Qed.

Lemma speed_row_insert B k v kv : kv.1 ≠ k → speed_row (<[k := v]> B) kv = speed_row B kv.
Proof. intros. unfold speed_row. by rewrite lookup_insert_ne. Qed.

Lemma speed_logs_insert B k v kv :
  kv.1 ≠ k →
  speed_logs speedTol recordTol (<[k := v]> B) kv = speed_logs speedTol recordTol B kv.
Proof. intros. unfold speed_logs. by rewrite lookup_insert_ne. Qed.

Lemma speed_slow_insert B k v kv :
  kv.1 ≠ k →
  speed_slow speedTol recordTol (<[k := v]> B) kv = speed_slow speedTol recordTol B kv.
Proof. intros. unfold speed_slow. by rewrite lookup_insert_ne. Qed.

Lemma existsb_ext_in {A} (f g : A → bool) (l : list A) :
  (∀ x, x ∈ l → f x = g x) → existsb f l = existsb g l.
Proof.
  induction l as [|x l IH]; intros H; simpl; [done|].
  rewrite H by left. f_equal. apply IH. intros. apply H. by right.
Qed.

(** The whole loop over entries with distinct names, in terms of the best
    map [B] before it: every round reads the entry of [B] for its own
    name. *)
Lemma speed_loop_spec l st :
  NoDup l.*1 →
  let B := deref (cs_heap st) old in
  let st' := foldl step st l in
  cs_rows st' = cs_rows st ++ (speed_row B <$> l)
  ∧ cs_log st' = cs_log st ++ (l ≫= speed_logs speedTol recordTol B)
  ∧ cs_tooSlow st' = cs_tooSlow st || existsb (speed_slow speedTol recordTol B) l
  ∧ cs_missing st' = cs_missing st
  ∧ (∀ k, deref (cs_heap st') old !! k
          = match (list_to_map l : gmap string Z) !! k with
            | Some s => Some (best (B !! k) s)
            | None => B !! k
            end)
  ∧ (∀ l', l' ≠ old → cs_heap st' !! l' = cs_heap st !! l')
  ∧ (∀ l', is_Some (cs_heap st !! l') → is_Some (cs_heap st' !! l')).
Proof.
  revert st. induction l as [|[name speed] l IH]; intros st Hnd B st'; subst st'.
  { simpl. rewrite !app_nil_r, orb_false_r. repeat split; done. }
  cbn [foldl]. rewrite fmap_cons in Hnd. apply NoDup_cons in Hnd as [Hname Hnd].
  destruct (speed_step_spec st (name, speed))
    as (Hr & Hl & Hs & Hm & Hd & Hframe & Hsome).
  destruct (IH (step st (name, speed)) Hnd) as (IHr & IHl & IHs & IHm & IHd & IHf & IHsome).
  fold B in Hr, Hl, Hs, Hd. cbn [fst snd] in Hd, Hname.
  assert (Hother : ∀ kv, kv ∈ l → kv.1 ≠ name).
  { intros kv Hkv Heq. apply Hname. rewrite <- Heq. by apply list_elem_of_fmap_2. }
  rewrite Hd in IHr, IHl, IHs, IHd.
  repeat split.
  - rewrite IHr, Hr, <- app_assoc. simpl. do 2 f_equal.
    apply list_fmap_ext. intros i kv Hkv. apply speed_row_insert, Hother.
    by eapply list_elem_of_lookup_2.
  - rewrite IHl, Hl, <- app_assoc, bind_cons. do 2 f_equal.
    apply Forall_bind_ext, Forall_forall. intros kv Hkv.
    by apply speed_logs_insert, Hother.
  - rewrite IHs, Hs, <- orb_assoc. simpl. do 2 f_equal.
    apply existsb_ext_in. intros kv Hkv. by apply speed_slow_insert, Hother.
  - by rewrite IHm, Hm.
  - intros k. rewrite IHd. rewrite list_to_map_cons.
    destruct (decide (k = name)) as [->|Hne].
    + rewrite (not_elem_of_list_to_map_1 l name) by done.
      by rewrite !lookup_insert_eq.
    + rewrite !(lookup_insert_ne _ name k) by done. done.
  - intros l' Hl'. by rewrite IHf, Hframe.
  - intros l' Hl'. by apply IHsome, Hsome.
Qed.
End speed_loop.

(** ** The loop that records everything, when there is no best file *)

Section nofile_loop.
Variable old : loc.

Lemma nofile_loop_spec l st :
  NoDup l.*1 →
  let st' := foldl (nofile_step old) st l in
  cs_rows st' = cs_rows st ++ (nofile_row <$> l)
  ∧ cs_log st' = cs_log st
  ∧ cs_tooSlow st' = cs_tooSlow st
  ∧ cs_missing st' = cs_missing st
  ∧ (∀ k, deref (cs_heap st') old !! k
          = match (list_to_map l : gmap string Z) !! k with
            | Some s => Some s
            | None => deref (cs_heap st) old !! k
            end)
  ∧ (∀ l', l' ≠ old → cs_heap st' !! l' = cs_heap st !! l')
  ∧ (∀ l', is_Some (cs_heap st !! l') → is_Some (cs_heap st' !! l')).
Proof.
  revert st. induction l as [|[key speed] l IH]; intros st Hnd st'; subst st'.
  { simpl. rewrite app_nil_r. repeat split; done. }
  cbn [foldl]. rewrite fmap_cons in Hnd. apply NoDup_cons in Hnd as [Hkey Hnd].
  destruct (IH (nofile_step old st (key, speed)) Hnd)
    as (IHr & IHl & IHs & IHm & IHd & IHf & IHsome).
  cbn [fst] in Hkey.
  set (st1 := nofile_step old st (key, speed)) in *.
  assert (cs_rows st1 = cs_rows st ++ [nofile_row (key, speed)]) as Hr by done.
  assert (cs_heap st1 = store (cs_heap st) old key speed) as Hh by done.
  repeat split.
  - rewrite IHr, Hr, <- app_assoc. done.
  - by rewrite IHl.
  - by rewrite IHs.
  - by rewrite IHm.
  - intros k. rewrite IHd, list_to_map_cons, Hh, deref_store_eq.
    destruct (decide (k = key)) as [->|Hne].
    + rewrite (not_elem_of_list_to_map_1 l key) by done.
      by rewrite !lookup_insert_eq.
    + by rewrite !(lookup_insert_ne _ key k) by done.
  - intros l' Hl'. rewrite IHf, Hh by done. by apply lookup_store_ne.
  - intros l' Hl'. apply IHsome. rewrite Hh. by apply lookup_store_is_Some.
Qed.
End nofile_loop.

(** ** [compare], both branches, in closed form *)

Section compare_spec.
Variables (rOld rNew : ranger) (h : heap) (benches : loc) (pkgPath : string).
Variables (speedTol recordTol : float64).

Local Abbreviation C := (deref h benches).

(** With a best map. *)
Lemma compare_present old :
  let B := deref h old in
  let r := compare rOld rNew h (Some old) benches pkgPath speedTol recordTol in
  res_bestBenches r = old
  ∧ res_rows r = (missing_row <$> filter (is_missing C) (range rOld B))
                 ++ (speed_row B <$> range rNew C)
  ∧ res_missing r = bool_decide (filter (is_missing C) (range rOld B) ≠ [])
  ∧ res_tooSlow r = existsb (speed_slow speedTol recordTol B) (range rNew C)
  ∧ deref (res_heap r) old = new_baseline speedTol recordTol B C
  ∧ (∀ l', l' ≠ old → res_heap r !! l' = h !! l')
  ∧ (is_Some (h !! old) → is_Some (res_heap r !! old))
  ∧ ∃ log1,
      res_log r = log1 ++ LogLn :: (range rNew C ≫= speed_logs speedTol recordTol B)
      ∧ (∀ m, m ∈ log1 → m = LogMissingHeader ∨ ∃ key, m = LogMissingKey key)
      ∧ (∀ key speed, B !! key = Some speed → C !! key = None →
                      LogMissingKey key ∈ log1).
Proof.
  intros B r. subst r. unfold compare, finish. cbn [res_bestBenches res_rows
    res_missing res_tooSlow res_heap res_log].
  set (st0 := CmpState h [] [] false false false).
  set (st1 := foldl (missing_step benches) st0 (range rOld (deref h old))).
  assert (cs_heap st1 = h) as Hh1 by apply missing_loop_heap.
  assert (cs_rows st1 = missing_row <$> filter (is_missing C) (range rOld B)) as Hr1
    by apply missing_loop_rows.
  assert (cs_tooSlow st1 = false) as Hs1 by apply missing_loop_tooSlow.
  assert (cs_missing st1 = bool_decide (filter (is_missing C) (range rOld B) ≠ []))
    as Hm1 by apply (missing_loop_flag benches (range rOld B) st0 eq_refl).
  destruct (speed_loop_spec old speedTol recordTol (range rNew C) (add_log LogLn st1))
    as (Hr & Hl & Hs & Hm & Hd & Hf & Hsome).
  { apply range_NoDup_fst. }
  simpl in Hr, Hl, Hs, Hm, Hd, Hf, Hsome.
  rewrite Hh1 in Hr, Hl, Hs, Hd, Hf, Hsome. fold B in Hr, Hl, Hs, Hd.
  repeat split.
  - by rewrite Hr, Hr1.
  - by rewrite Hm, Hm1.
  - by rewrite Hs, Hs1.
  - apply map_eq. intros k. rewrite Hd. unfold new_baseline.
    rewrite lookup_merge, list_to_map_range.
    destruct (B !! k), (C !! k); done.
  - done.
  - intros ?. by apply Hsome.
  - exists (cs_log st1). split; [by rewrite Hl, <- app_assoc|]. split.
    + intros m Hm'. apply missing_loop_log in Hm' as [Hm'|Hm']; [|done].
      by apply elem_of_nil in Hm'.
    + intros key speed HB HC. eapply missing_loop_log_key; [|done].
      by apply elem_of_range.
Qed.

(** Without one. *)
Lemma compare_absent :
  let r := compare rOld rNew h None benches pkgPath speedTol recordTol in
  res_bestBenches r = new_loc h
  ∧ res_rows r = (nofile_row <$> range rNew C)
  ∧ res_missing r = false
  ∧ res_tooSlow r = false
  ∧ res_log r = [LogNoBest]
  ∧ res_heap r !! new_loc h = Some C
  ∧ (∀ l', l' ≠ new_loc h → res_heap r !! l' = h !! l').
Proof.
  intros r. subst r. unfold compare, finish. cbn [res_bestBenches res_rows
    res_missing res_tooSlow res_heap res_log].
  set (st2 := set_heap _ _).
  destruct (nofile_loop_spec (new_loc h) (range rNew C) st2)
    as (Hr & Hl & Hs & Hm & Hd & Hf & Hsome).
  { apply range_NoDup_fst. }
  simpl in Hr, Hl, Hs, Hm, Hd, Hf, Hsome.
  repeat split; try done.
  - destruct (Hsome (new_loc h)) as [M HM].
    { rewrite lookup_insert_eq. eauto. }
    rewrite HM. f_equal. apply map_eq. intros k.
    specialize (Hd k). unfold deref at 1 in Hd. rewrite HM in Hd. simpl in Hd.
    rewrite Hd, list_to_map_range. unfold deref at 2. rewrite lookup_insert_eq. simpl.
    rewrite lookup_empty. by destruct (C !! k).
  - intros l' Hl'. rewrite Hf by done. by rewrite lookup_insert_ne.
Qed.
End compare_spec.

(** ** [float64] facts used by [compare] *)

Lemma SFdiv_self_finite s m e :
  SFdiv 53 1024 (S754_finite s m e) (S754_finite s m e) = f64.one.
Proof.
  assert (SFdiv_core_binary 53 1024 (Z.pos m) e (Z.pos m) e
          = (9007199254740992, -53, loc_Exact)) as Hcore.
  { unfold SFdiv_core_binary. cbv zeta. rewrite !Z.sub_diag.
    change (Z.min (fexp 53 1024 0) 0) with (-53).
    change (0 - -53) with 53. cbv beta iota.
    rewrite Z.shiftl_mul_pow2 by done.
    pose proof (Z_div_mod_full (Z.pos m * 2 ^ 53) (Z.pos m)) as Hdm.
    unfold Z.div, Z.modulo in *. 
    pose proof (Z.div_mul (2 ^ 53) (Z.pos m)) as Hq.
    pose proof (Z.mod_mul (2 ^ 53) (Z.pos m)) as Hr.
    rewrite (Z.mul_comm (2 ^ 53)) in Hq, Hr.
    unfold Z.div, Z.modulo in Hq, Hr.
    destruct (Z.div_eucl (Z.pos m * 2 ^ 53) (Z.pos m)) as [q r].
    simpl in Hq, Hr. rewrite Hq, Hr by done. 
    unfold new_location. destruct (Z.even (Z.pos m)); reflexivity. }
  unfold SFdiv. rewrite Hcore. by destruct s.
Qed.

(** [x / x] is 1, or NaN when [x] is zero, infinite or NaN. *)
Lemma factor_of_self x : factor_of x x = S754_nan ∨ factor_of x x = f64.one.
Proof.
  unfold factor_of, f64.div. destruct (f64.of_int x) as [s|s| |s m e].
  - by left.
  - by left.
  - by left.
  - right. apply SFdiv_self_finite.
Qed.

Lemma judge_self speedTol recordTol x :
  f64.gt f64.one speedTol = false → f64.lt f64.one recordTol = false →
  judge speedTol recordTol (factor_of x x) = Unchanged.
Proof.
  intros Hs Hr. unfold judge. destruct (factor_of_self x) as [-> | ->].
  - unfold f64.gt, f64.lt, SFltb. by destruct speedTol.
  - by rewrite Hs, Hr.
Qed.

(** ** The claims about [compare] *)

Lemma existsb_elem {A} (f : A → bool) (l : list A) x : x ∈ l → f x = true → existsb f l = true.
Proof. intros Hx Hf. apply existsb_exists. exists x. by rewrite <- list_elem_of_In. Qed.

Lemma existsb_none {A} (f : A → bool) (l : list A) :
  (∀ x, x ∈ l → f x = false) → existsb f l = false.
Proof.
  intros H. apply not_true_is_false. intros (x & Hx & Hf)%existsb_exists.
  apply list_elem_of_In in Hx. rewrite H in Hf; done.
Qed.

Lemma existsb_perm {A} (f : A → bool) (l1 l2 : list A) :
  l1 ≡ₚ l2 → existsb f l1 = existsb f l2.
Proof.
  intros Hp. apply eq_true_iff_eq. rewrite !existsb_exists.
  by setoid_rewrite <- list_elem_of_In; setoid_rewrite Hp.
Qed.

Lemma bind_all_nil {A B} (f : A → list B) (l : list A) :
  (∀ x, x ∈ l → f x = []) → l ≫= f = [].
Proof.
  induction l as [|x l IH]; intros H; [done|].
  rewrite bind_cons, H, IH; [done| |by left]. intros. apply H. by right.
Qed.

(** C1. For a benchmark [name] of both the best map [B] and the current map
    [C] whose factor exceeds [speedTol], [compare] classifies it Regressed
    (its row and the "slower than expected" message), raises [tooSlow], and
    the map it returns as the new best still has the old value for
    [name]. *)
Theorem compare_regressed_keeps_old (rOld rNew : ranger) (h : heap)
    (old benches : loc) (pkgPath : string) (speedTol recordTol : float64)
    (B C : gmap string Z) (name : string) (b c : Z) :
  h !! old = Some B → h !! benches = Some C →
  B !! name = Some b → C !! name = Some c →
  f64.gt (factor_of c b) speedTol = true →
  let r := compare rOld rNew h (Some old) benches pkgPath speedTol recordTol in
  classified r name Regressed
  ∧ res_tooSlow r = true
  ∧ res_best r !! name = Some b.
Proof.
  intros HB HC Hb Hc Hgt r.
  destruct (compare_present rOld rNew h benches pkgPath speedTol recordTol old)
    as (Hbest & Hrows & _ & Hslow & Hd & _ & _ & log1 & Hlog & _).
  fold r in Hbest, Hrows, Hslow, Hd, Hlog.
  assert (deref h old = B) as EB by (unfold deref; by rewrite HB).
  assert (deref h benches = C) as EC by (unfold deref; by rewrite HC).
  rewrite EB, EC in *.
  assert (Hin : (name, c) ∈ range rNew C) by by apply elem_of_range.
  assert (Hj : judge speedTol recordTol (factor_of c b) = Regressed).
  { unfold judge. by rewrite Hgt. }
  split; [|split].
  - exists c, b, (factor_of c b). split.
    + rewrite Hrows. apply elem_of_app. right.
      apply (list_elem_of_fmap_2' _ _ (name, c)); [done|].
      unfold speed_row. simpl. by rewrite Hb.
    + rewrite Hlog. apply elem_of_app. right. apply elem_of_cons. right.
      apply list_elem_of_bind. exists (name, c). split; [|done].
      unfold speed_logs. simpl. rewrite Hb, Hj. by left.
  - rewrite Hslow. apply (existsb_elem _ _ (name, c)); [done|].
    unfold speed_slow. simpl. by rewrite Hb, Hj.
  - unfold res_best. rewrite Hbest, Hd. unfold new_baseline.
    rewrite lookup_merge, Hb, Hc. simpl. by rewrite Hj.
Qed.

Lemma compare_regressed_keeps_old_witness :
  let r := compare in_order reversed examples.regression (Some 1%positive) 2%positive
             "pkg" examples.speedTol examples.recordTol in
  classified r "Y" Regressed ∧ res_tooSlow r = true ∧ res_best r !! "Y" = Some 1.
Proof.
  apply (compare_regressed_keeps_old in_order reversed examples.regression
           1%positive 2%positive "pkg" examples.speedTol examples.recordTol
           {[ "X" := 1; "Y" := 1 ]} {[ "X" := 500000000; "Y" := 5000000000 ]}
           "Y" 1 5000000000); reflexivity.
Defined.

(** C2. With a best map [B], the map returned as the new best has every
    key of [B]; a key of [B] that the current map lacks gets a MISSING row,
    raises [missing] and keeps its old value. *)
Theorem compare_keeps_baseline_keys (rOld rNew : ranger) (h : heap)
    (old benches : loc) (pkgPath : string) (speedTol recordTol : float64)
    (B : gmap string Z) :
  h !! old = Some B →
  let C := deref h benches in
  let r := compare rOld rNew h (Some old) benches pkgPath speedTol recordTol in
  dom B ⊆ dom (res_best r)
  ∧ ∀ key b, B !! key = Some b → C !! key = None →
      classified r key Missing
      ∧ LogMissingKey key ∈ res_log r
      ∧ res_missing r = true
      ∧ res_best r !! key = Some b.
Proof.
  intros HB C r.
  destruct (compare_present rOld rNew h benches pkgPath speedTol recordTol old)
    as (Hbest & Hrows & Hmiss & _ & Hd & _ & _ & log1 & Hlog & _ & Hkeys).
  fold r C in Hbest, Hrows, Hmiss, Hd, Hlog, Hkeys.
  assert (deref h old = B) as EB by (unfold deref; by rewrite HB).
  rewrite EB in *.
  assert (Hlook : ∀ key b, B !! key = Some b → is_Some (res_best r !! key)).
  { intros key b Hb. unfold res_best. rewrite Hbest, Hd. unfold new_baseline.
    rewrite lookup_merge, Hb. destruct (C !! key); simpl; eauto. }
  split.
  - intros key [b Hb]%elem_of_dom. apply elem_of_dom. eauto.
  - intros key b Hb Hc.
    assert (Hin : (key, b) ∈ filter (is_missing C) (range rOld B)).
    { apply list_elem_of_filter. split; [done|]. by apply elem_of_range. }
    repeat split.
    + exists b. rewrite Hrows. apply elem_of_app. left.
      by apply (list_elem_of_fmap_2' _ _ (key, b)).
    + rewrite Hlog. apply elem_of_app. left. by eapply Hkeys.
    + rewrite Hmiss. apply bool_decide_true. intros Hnil.
      rewrite Hnil in Hin. by apply elem_of_nil in Hin.
    + unfold res_best. rewrite Hbest, Hd. unfold new_baseline.
      by rewrite lookup_merge, Hb, Hc.
Qed.

Lemma compare_keeps_baseline_keys_witness :
  let r := compare reversed in_order examples.missing (Some 1%positive) 2%positive
             "pkg" examples.speedTol examples.recordTol in
  dom ({[ "A" := 500; "B" := 10000 ]} : gmap string Z) ⊆ dom (res_best r)
  ∧ ∀ key b, ({[ "A" := 500; "B" := 10000 ]} : gmap string Z) !! key = Some b →
      deref examples.missing 2%positive !! key = None →
      classified r key Missing
      ∧ LogMissingKey key ∈ res_log r
      ∧ res_missing r = true
      ∧ res_best r !! key = Some b.
Proof.
  apply (compare_keeps_baseline_keys reversed in_order examples.missing
           1%positive 2%positive "pkg" examples.speedTol examples.recordTol
           {[ "A" := 500; "B" := 10000 ]}); reflexivity.
Defined.

(** C3. Without a best map, every key of the current map [C] gets a
    NO FILE row (and no other row is made), both flags stay false, and the
    map returned as the new best is a new map, distinct from every map of
    the heap, with the contents of [C]; [C] itself is untouched. *)
Theorem compare_absent_records_all (rOld rNew : ranger) (h : heap)
    (benches : loc) (pkgPath : string) (speedTol recordTol : float64)
    (C : gmap string Z) :
  h !! benches = Some C →
  let r := compare rOld rNew h None benches pkgPath speedTol recordTol in
  (∀ key c, C !! key = Some c → classified r key New)
  ∧ (∀ x, x ∈ res_rows r → ∃ key c, x = RowNoFile key c ∧ C !! key = Some c)
  ∧ res_missing r = false
  ∧ res_tooSlow r = false
  ∧ h !! res_bestBenches r = None
  ∧ res_bestBenches r ≠ benches
  ∧ res_heap r !! res_bestBenches r = Some C
  ∧ res_heap r !! benches = Some C.
Proof.
  intros HC r.
  destruct (compare_absent rOld rNew h benches pkgPath speedTol recordTol)
    as (Hbest & Hrows & Hmiss & Hslow & _ & Hnew & Hframe).
  fold r in Hbest, Hrows, Hmiss, Hslow, Hnew, Hframe.
  assert (deref h benches = C) as EC by (unfold deref; by rewrite HC).
  rewrite EC in *.
  assert (new_loc h ≠ benches) as Hne.
  { intros Heq. pose proof (new_loc_fresh h) as Hf. rewrite Heq, HC in Hf. done. }
  rewrite Hbest, Hmiss, Hslow, Hnew, Hframe by done.
  split; [|split]; [| |pose proof (new_loc_fresh h); repeat split; done].
  - intros key c Hc. exists c. right. rewrite Hrows.
    apply (list_elem_of_fmap_2' _ _ (key, c)); [|done]. by apply elem_of_range.
  - intros x. rewrite Hrows. intros ([key c] & -> & Hin)%list_elem_of_fmap.
    exists key, c. split; [done|]. by apply elem_of_range in Hin.
Qed.

Lemma compare_absent_records_all_witness :
  let r := compare in_order in_order examples.improvement None 2%positive
             "pkg" examples.speedTol examples.recordTol in
  let C : gmap string Z := {[ "X" := 500; "Y" := 10000 ]} in
  (∀ key c, C !! key = Some c → classified r key New)
  ∧ (∀ x, x ∈ res_rows r → ∃ key c, x = RowNoFile key c ∧ C !! key = Some c)
  ∧ res_missing r = false
  ∧ res_tooSlow r = false
  ∧ examples.improvement !! res_bestBenches r = None
  ∧ res_bestBenches r ≠ 2%positive
  ∧ res_heap r !! res_bestBenches r = Some C
  ∧ res_heap r !! 2%positive = Some C.
Proof.
  apply (compare_absent_records_all in_order in_order examples.improvement
           2%positive "pkg" examples.speedTol examples.recordTol
           {[ "X" := 500; "Y" := 10000 ]}); reflexivity.
Defined.

(** The improvement scenario: ["X"] halves its timing and becomes the new
    best, ["Y"] is unchanged, nothing is flagged. *)
Example compare_improvement_scenario :
  let r := compare in_order in_order examples.improvement (Some 1%positive) 2%positive
             "pkg" examples.speedTol examples.recordTol in
  classified r "X" Improved
  ∧ classified r "Y" Unchanged
  ∧ res_best r = {[ "X" := 500; "Y" := 10000 ]}
  ∧ res_missing r = false ∧ res_tooSlow r = false.
Proof.
  split; [|split; [|by vm_compute]].
  - exists 500, 1000, (factor_of 500 1000). split; vm_compute; set_solver.
  - exists 10000, 10000, (factor_of 10000 10000). split; [vm_compute; set_solver|].
    split; intros f Hin; vm_compute in Hin;
      apply list_elem_of_In in Hin; simpl in Hin;
      repeat (destruct Hin as [Hin|Hin]; [discriminate|]); done.
Qed.

(** The missing scenario: ["A"] is not in the run; it is reported and
    kept. *)
Example compare_missing_scenario :
  let r := compare in_order in_order examples.missing (Some 1%positive) 2%positive
             "pkg" examples.speedTol examples.recordTol in
  classified r "A" Missing
  ∧ res_missing r = true
  ∧ res_best r = {[ "A" := 500; "B" := 10000 ]}.
Proof.
  split; [|by vm_compute]. exists 500. vm_compute. set_solver.
Qed.

(** C8 as stated fails when the tolerances do not enclose 1: with
    [-speedTol 50] a run that equals the best file is flagged too slow and
    its benchmarks are not classified Unchanged. *)
Lemma compare_same_counterexample :
  let r := compare in_order in_order examples.same (Some 1%positive) 2%positive
             "pkg" (tolerance 50) (tolerance 70) in
  examples.same !! 1%positive = examples.same !! 2%positive
  ∧ res_tooSlow r = true
  ∧ ¬ classified r "A" Unchanged.
Proof.
  split; [reflexivity|]. split; [reflexivity|].
  intros (speed & oldSpeed & factor & _ & Hslow & _).
  apply (Hslow f64.one). vm_compute.
  apply list_elem_of_In. simpl. auto.
Qed.

(** C8, amended. When [speedTol] is not below 1 and [recordTol] is not
    above 1, comparing a best map [B] with a current map of the same
    contents classifies every key Unchanged, leaves the best map as it was
    and raises no flag. *)
Theorem compare_same_unchanged (rOld rNew : ranger) (h : heap)
    (old benches : loc) (pkgPath : string) (speedTol recordTol : float64)
    (B : gmap string Z) :
  h !! old = Some B → h !! benches = Some B →
  f64.gt f64.one speedTol = false → f64.lt f64.one recordTol = false →
  let r := compare rOld rNew h (Some old) benches pkgPath speedTol recordTol in
  (∀ key b, B !! key = Some b → classified r key Unchanged)
  ∧ res_heap r !! res_bestBenches r = Some B
  ∧ res_missing r = false
  ∧ res_tooSlow r = false.
Proof.
  intros HB HC Hs Hr r.
  destruct (compare_present rOld rNew h benches pkgPath speedTol recordTol old)
    as (Hbest & Hrows & Hmiss & Hslow & Hd & _ & Hsome & log1 & Hlog & Hlog1 & _).
  fold r in Hbest, Hrows, Hmiss, Hslow, Hd, Hsome, Hlog.
  assert (deref h old = B) as EB by (unfold deref; by rewrite HB).
  assert (deref h benches = B) as EC by (unfold deref; by rewrite HC).
  rewrite EB, EC in *.
  assert (Hj : ∀ kv, kv ∈ range rNew B →
            B !! kv.1 = Some kv.2
            ∧ judge speedTol recordTol (factor_of kv.2 kv.2) = Unchanged).
  { intros [k v] Hkv%elem_of_range. split; [done|]. by apply judge_self. }
  assert (Hnolog : range rNew B ≫= speed_logs speedTol recordTol B = []).
  { apply bind_all_nil. intros kv Hkv. destruct (Hj kv Hkv) as [Hl Hu].
    unfold speed_logs. by rewrite Hl, Hu. }
  assert (Hbase : new_baseline speedTol recordTol B B = B).
  { apply map_eq. intros k. unfold new_baseline. rewrite lookup_merge.
    destruct (B !! k) as [v|] eqn:Hk; simpl; [|done].
    unfold best_of. by rewrite judge_self. }
  split; [|split; [|split]].
  - intros key b Hb. exists b, b, (factor_of b b). split; [|split].
    + rewrite Hrows. apply elem_of_app. right.
      apply (list_elem_of_fmap_2' _ _ (key, b)); [by apply elem_of_range|].
      unfold speed_row. simpl. by rewrite Hb.
    + intros f. rewrite Hlog, Hnolog. intros [Hin|Hin]%elem_of_app.
      * apply Hlog1 in Hin as [?|[? ?]]; done.
      * apply elem_of_cons in Hin as [?|Hin]; [done|]. by apply elem_of_nil in Hin.
    + intros f. rewrite Hlog, Hnolog. intros [Hin|Hin]%elem_of_app.
      * apply Hlog1 in Hin as [?|[? ?]]; done.
      * apply elem_of_cons in Hin as [?|Hin]; [done|]. by apply elem_of_nil in Hin.
  - rewrite Hbest. destruct Hsome as [M HM]; [by rewrite HB|].
    rewrite HM. f_equal. unfold deref in Hd. rewrite HM in Hd. simpl in Hd.
    by rewrite Hd.
  - rewrite Hmiss. apply bool_decide_false. intros Hne. apply Hne.
    apply elem_of_nil_inv. intros [k v] [Hm Hin]%list_elem_of_filter.
    apply elem_of_range in Hin. unfold is_missing in Hm. simpl in Hm. congruence.
  - rewrite Hslow. apply existsb_none. intros kv Hkv.
    destruct (Hj kv Hkv) as [Hl Hu]. unfold speed_slow. by rewrite Hl, Hu.
Qed.

Lemma compare_same_unchanged_witness :
  let r := compare reversed reversed examples.same (Some 1%positive) 2%positive
             "pkg" examples.speedTol examples.recordTol in
  let B : gmap string Z := {[ "A" := 500; "B" := 10000 ]} in
  (∀ key b, B !! key = Some b → classified r key Unchanged)
  ∧ res_heap r !! res_bestBenches r = Some B
  ∧ res_missing r = false
  ∧ res_tooSlow r = false.
Proof.
  apply (compare_same_unchanged reversed reversed examples.same
           1%positive 2%positive "pkg" examples.speedTol examples.recordTol
           {[ "A" := 500; "B" := 10000 ]}); reflexivity.
Defined.

(** C4 as stated fails: [compare] writes to the best map it is given. Here
    the record for ["X"] replaces the old value in the caller's map. *)
Lemma compare_pure_counterexample :
  let r := compare in_order in_order examples.improvement (Some 1%positive) 2%positive
             "pkg" examples.speedTol examples.recordTol in
  examples.improvement !! 1%positive = Some {[ "X" := 1000; "Y" := 10000 ]}
  ∧ res_heap r !! 1%positive = Some {[ "X" := 500; "Y" := 10000 ]}
  ∧ res_heap r !! 1%positive ≠ examples.improvement !! 1%positive.
Proof.
  split; [reflexivity|]. split; [reflexivity|].
  intros Heq. assert (Some 500 = Some 1000); [|done].
  change (Some 500) with (res_heap (compare in_order in_order examples.improvement
    (Some 1%positive) 2%positive "pkg" examples.speedTol examples.recordTol)
    !! 1%positive ≫= (.!! "X")).
  by rewrite Heq.
Qed.

(** C4, amended. [compare] changes no map but the best map: given one, it
    updates it in place and returns it; given none, it returns a new map.
    Every other map of the heap, the current map among them, is left as it
    was. For the same heap, maps and tolerances, the flags, the map returned
    and the heap left behind do not depend on the order in which the loops
    visit the maps, and the rows of [delta] are the same up to their
    order. *)
Theorem compare_frame_and_order (rOld rNew rOld' rNew' : ranger) (h : heap)
    (oldBenches : option loc) (benches : loc) (pkgPath : string)
    (speedTol recordTol : float64) :
  (∀ old, oldBenches = Some old → is_Some (h !! old)) →
  let r := compare rOld rNew h oldBenches benches pkgPath speedTol recordTol in
  let r' := compare rOld' rNew' h oldBenches benches pkgPath speedTol recordTol in
  (∀ old, oldBenches = Some old → res_bestBenches r = old)
  ∧ (oldBenches = None → h !! res_bestBenches r = None)
  ∧ (∀ l, l ≠ res_bestBenches r → res_heap r !! l = h !! l)
  ∧ res_heap r' = res_heap r
  ∧ res_bestBenches r' = res_bestBenches r
  ∧ res_missing r' = res_missing r
  ∧ res_tooSlow r' = res_tooSlow r
  ∧ res_rows r' ≡ₚ res_rows r.
Proof.
  intros Hvalid r r'. destruct oldBenches as [old|].
  - destruct (Hvalid old eq_refl) as [B HB].
    destruct (compare_present rOld rNew h benches pkgPath speedTol recordTol old)
      as (Hbest & Hrows & Hmiss & Hslow & Hd & Hf & Hsome & _).
    destruct (compare_present rOld' rNew' h benches pkgPath speedTol recordTol old)
      as (Hbest' & Hrows' & Hmiss' & Hslow' & Hd' & Hf' & Hsome' & _).
    fold r in Hbest, Hrows, Hmiss, Hslow, Hd, Hf, Hsome.
    fold r' in Hbest', Hrows', Hmiss', Hslow', Hd', Hf', Hsome'.
    split; [by intros ? [= <-]|]. split; [done|].
    rewrite Hbest, Hbest'. split; [done|]. split; [|split; [done|split; [|split]]].
    + apply map_eq. intros l. destruct (decide (l = old)) as [->|Hne].
      * destruct Hsome as [M HM]; [eauto|]. destruct Hsome' as [M' HM']; [eauto|].
        rewrite HM, HM'. f_equal. unfold deref in Hd, Hd'.
        rewrite HM in Hd. rewrite HM' in Hd'. simpl in Hd, Hd'. congruence.
      * by rewrite Hf, Hf'.
    + rewrite Hmiss, Hmiss'. apply bool_decide_ext.
      assert (Hp : filter (is_missing (deref h benches)) (range rOld' (deref h old))
                   ≡ₚ filter (is_missing (deref h benches)) (range rOld (deref h old))).
      { apply filter_Permutation, range_any. }
      split; intros Hne Hnil; apply Hne; rewrite Hnil in Hp.
      * by apply Permutation_nil_r in Hp.
      * by apply Permutation_nil_l in Hp.
    + rewrite Hslow, Hslow'. apply existsb_perm, range_any.
    + rewrite Hrows, Hrows'. apply Permutation_app.
      * apply fmap_Permutation, filter_Permutation, range_any.
      * apply fmap_Permutation, range_any.
  - destruct (compare_absent rOld rNew h benches pkgPath speedTol recordTol)
      as (Hbest & Hrows & Hmiss & Hslow & _ & Hnew & Hf).
    destruct (compare_absent rOld' rNew' h benches pkgPath speedTol recordTol)
      as (Hbest' & Hrows' & Hmiss' & Hslow' & _ & Hnew' & Hf').
    fold r in Hbest, Hrows, Hmiss, Hslow, Hnew, Hf.
    fold r' in Hbest', Hrows', Hmiss', Hslow', Hnew', Hf'.
    split; [done|]. rewrite Hbest, Hbest', Hmiss, Hmiss', Hslow, Hslow'.
    split; [intros _; apply new_loc_fresh|]. split; [done|].
    split; [|split; [done|split; [done|split; [done|]]]].
    + apply map_eq. intros l. destruct (decide (l = new_loc h)) as [->|Hne].
      * by rewrite Hnew, Hnew'.
      * by rewrite Hf, Hf'.
    + rewrite Hrows, Hrows'. apply fmap_Permutation, range_any.
Qed.

Lemma compare_frame_and_order_witness :
  let r := compare in_order in_order examples.improvement (Some 1%positive) 2%positive
             "pkg" examples.speedTol examples.recordTol in
  let r' := compare reversed reversed examples.improvement (Some 1%positive) 2%positive
             "pkg" examples.speedTol examples.recordTol in
  (∀ old, Some 1%positive = Some old → res_bestBenches r = old)
  ∧ (Some 1%positive = None → examples.improvement !! res_bestBenches r = None)
  ∧ (∀ l, l ≠ res_bestBenches r → res_heap r !! l = examples.improvement !! l)
  ∧ res_heap r' = res_heap r
  ∧ res_bestBenches r' = res_bestBenches r
  ∧ res_missing r' = res_missing r
  ∧ res_tooSlow r' = res_tooSlow r
  ∧ res_rows r' ≡ₚ res_rows r.
Proof.
  apply (compare_frame_and_order in_order in_order reversed reversed
           examples.improvement (Some 1%positive) 2%positive "pkg"
           examples.speedTol examples.recordTol).
  intros old [= <-]. vm_compute. eauto.
Defined.

(** ** [tabAlign] *)

Lemma append_assoc (s1 s2 s3 : string) : (s1 +:+ s2) +:+ s3 = s1 +:+ s2 +:+ s3.
Proof.
  induction s1 as [|c s1 IH]; [done|].
  change (String c ((s1 +:+ s2) +:+ s3) = String c (s1 +:+ s2 +:+ s3)).
  by rewrite IH.
Qed.

Lemma well_formed_fields row :
  well_formed row → ∃ c0 c1 c2 c3, fields row = [c0; c1; c2; c3].
Proof.
  unfold well_formed. destruct (fields row) as [|c0 [|c1 [|c2 [|c3 [|? ?]]]]]; try done.
  eauto.
Qed.

Lemma max_list_with_le {A} (f : A → nat) (l : list A) x :
  x ∈ l → (f x ≤ max_list_with f l)%nat.
Proof.
  induction 1 as [x l|x y l _ IH]; simpl; lia.
Qed.

Lemma col_width_le rows row i :
  row ∈ rows → well_formed row → (field_width i row ≤ col_width rows i)%nat.
Proof.
  intros Hin Hwf. apply max_list_with_le. by apply list_elem_of_filter.
Qed.

Lemma intMax_max a b : intMax a b = Z.max a b.
Proof. unfold intMax. case_decide; lia. Qed.

Lemma widen_from_four c0 c1 c2 c3 m0 m1 m2 m3 :
  widen_from 0 [c0; c1; c2; c3] [m0; m1; m2; m3]
  = Some [intMax m0 (strings.len c0); intMax m1 (strings.len c1);
          intMax m2 (strings.len c2); intMax m3 (strings.len c3)].
Proof. reflexivity. Qed.

Lemma col_width_cons_other row rows i :
  ¬ well_formed row → col_width (row :: rows) i = col_width rows i.
Proof. intros. unfold col_width. by rewrite filter_cons_False. Qed.

Lemma col_width_cons_well_formed row rows i :
  well_formed row →
  col_width (row :: rows) i = (field_width i row `max` col_width rows i)%nat.
Proof. intros. unfold col_width. by rewrite filter_cons_True. Qed.

(** The first loop: every entry of [max] grows to the column width. *)
Lemma widen_rows_spec rows m0 m1 m2 m3 :
  0 ≤ m0 → 0 ≤ m1 → 0 ≤ m2 → 0 ≤ m3 →
  widen_rows rows [m0; m1; m2; m3]
  = Some [Z.max m0 (Z.of_nat (col_width rows 0)); Z.max m1 (Z.of_nat (col_width rows 1));
          Z.max m2 (Z.of_nat (col_width rows 2)); Z.max m3 (Z.of_nat (col_width rows 3))].
Proof.
  revert m0 m1 m2 m3. induction rows as [|row rows IH]; intros m0 m1 m2 m3 ????.
  { unfold col_width. simpl. by rewrite !Z.max_l by lia. }
  cbn [widen_rows]. fold (fields row). destruct (decide (length (fields row) ≠ 4%nat)) as [Hn|Hwf].
  - rewrite IH by done. by rewrite !col_width_cons_other.
  - apply dec_stable in Hwf. rewrite !col_width_cons_well_formed by done.
    unfold field_width.
    destruct (well_formed_fields row Hwf) as (c0 & c1 & c2 & c3 & Hf).
    rewrite Hf, widen_from_four, !intMax_max. cbn [mbind option_bind].
    unfold strings.len. rewrite IH by lia.
    change ([c0; c1; c2; c3] !!! 0%nat) with c0.
    change ([c0; c1; c2; c3] !!! 1%nat) with c1.
    change ([c0; c1; c2; c3] !!! 2%nat) with c2.
    change ([c0; c1; c2; c3] !!! 3%nat) with c3.
    by rewrite !Nat2Z.inj_max, !Z.max_assoc.
Qed.

Lemma Repeat_nonneg s n : 0 ≤ n → strings.Repeat s n = Some (strings.repeat_nat s (Z.to_nat n)).
Proof. intros. unfold strings.Repeat. by rewrite decide_False by lia. Qed.

(** One aligned row, when the fields fit their columns. *)
Lemma align_cols_spec rows c0 c1 c2 c3 :
  (String.length c0 ≤ col_width rows 0)%nat →
  (String.length c1 ≤ col_width rows 1)%nat →
  (String.length c2 ≤ col_width rows 2)%nat →
  align_cols [Z.of_nat (col_width rows 0); Z.of_nat (col_width rows 1);
              Z.of_nat (col_width rows 2); Z.of_nat (col_width rows 3)]
             [c0; c1; c2; c3]
  = Some (pad rows 0 c0 +:+ pad rows 1 c1 +:+ pad rows 2 c2 +:+ c3).
Proof.
  intros H0 H1 H2. unfold align_cols. simpl.
  rewrite !Repeat_nonneg by (unfold strings.len; lia). simpl. f_equal.
  unfold pad, spaces, strings.len. rewrite !append_assoc. repeat f_equal; lia.
Qed.

(** The second loop writes the slots [r], [r+1], ... of [aligned]. *)
Lemma align_rows_spec all rows pre :
  (∀ row, row ∈ rows → row ∈ all) →
  align_rows [Z.of_nat (col_width all 0); Z.of_nat (col_width all 1);
              Z.of_nat (col_width all 2); Z.of_nat (col_width all 3)]
             rows (length pre) (pre ++ replicate (length rows) EmptyString)
  = Some (pre ++ (aligned_row all <$> rows)).
Proof.
  revert pre. induction rows as [|row rows IH]; intros pre Hall.
  { done. }
  cbn [align_rows]. fold (fields row).
  assert (Hnext : ∀ s, pre ++ s :: replicate (length rows) EmptyString
                       = (pre ++ [s]) ++ replicate (length rows) EmptyString)
    by (intros; by rewrite <- app_assoc).
  assert (Hlen : S (length pre) = length (pre ++ [EmptyString]))
    by (rewrite length_app; simpl; lia).
  destruct (decide (length (fields row) ≠ 4%nat)) as [Hn|Hwf].
  - simpl. rewrite Hnext, Hlen, IH by (intros; apply Hall; by right).
    rewrite <- app_assoc. simpl. unfold aligned_row at 2.
    destruct (fields row) as [|c0 [|c1 [|c2 [|c3 [|? ?]]]]]; done.
  - apply dec_stable in Hwf.
    destruct (well_formed_fields row Hwf) as (c0 & c1 & c2 & c3 & Hf).
    assert (Hrow : row ∈ all) by (apply Hall; by left).
    pose proof (col_width_le all row 0 Hrow Hwf) as H0.
    pose proof (col_width_le all row 1 Hrow Hwf) as H1.
    pose proof (col_width_le all row 2 Hrow Hwf) as H2.
    unfold field_width in H0, H1, H2. rewrite Hf in H0, H1, H2. simpl in H0, H1, H2.
    rewrite Hf, align_cols_spec by done. cbn [mbind option_bind].
    rewrite decide_True by (rewrite length_app; simpl; lia).
    replace (<[length pre := _]> _) with
      ((pre ++ [pad all 0 c0 +:+ pad all 1 c1 +:+ pad all 2 c2 +:+ c3])
         ++ replicate (length rows) EmptyString).
    2:{ rewrite <- app_assoc. simpl. 
        rewrite <- (Nat.add_0_r (length pre)) at 1. by rewrite insert_app_r. }
    replace (S (length pre)) with
      (length (pre ++ [pad all 0 c0 +:+ pad all 1 c1 +:+ pad all 2 c2 +:+ c3]))
      by (rewrite length_app; simpl; lia).
    rewrite IH by (intros; apply Hall; by right).
    rewrite <- app_assoc. simpl. unfold aligned_row at 2. by rewrite Hf.
Qed.

(** C5 as stated fails: a row that is not well formed leaves an empty line
    in the output; it is not removed. *)
Lemma tabAlign_drops_rows_counterexample :
  let rows := strings.Split examples_text.report "010" in
  rows = ["a" +:+ tab +:+ "bbb" +:+ tab +:+ "c" +:+ tab +:+ "d"; "bad";
          "eeee" +:+ tab +:+ "f" +:+ tab +:+ "g" +:+ tab +:+ "h"]
  ∧ tabAlign examples_text.report
    = Some ("a       bbb    c    d" +:+ nl +:+ nl +:+ "eeee    f      g    h")
  ∧ tabAlign examples_text.report
    ≠ Some (strings.Join (aligned_row rows <$> filter well_formed rows) nl).
Proof. split; [reflexivity|]. split; [reflexivity|]. vm_compute. discriminate. Qed.

(** C5, amended. [tabAlign] never panics. Its output has one line for every
    row of the input, in the same order: for a row with exactly four fields,
    each of the first three fields followed by (its column's width - its own
    width + 4) spaces and then the fourth field, where a column's width is
    the largest width of that field among the rows with four fields; for any
    other row, an empty line. *)
Theorem tabAlign_layout (delta : string) :
  let rows := strings.Split delta "010" in
  tabAlign delta = Some (strings.Join (aligned_row rows <$> rows) nl).
Proof.
  intros rows. unfold tabAlign. fold rows.
  rewrite widen_rows_spec by done. cbn [mbind option_bind].
  rewrite !Z.max_r by lia.
  pose proof (align_rows_spec rows rows [] (λ _ H, H)) as Ha.
  simpl in Ha. rewrite Ha. done.
Qed.

(** ** [strings.HasPrefix], [strings.LastIndex] and [findGosrc] *)

Lemma append_cons c (s1 s2 : string) : String c s1 +:+ s2 = String c (s1 +:+ s2).
Proof. done. Qed.

Lemma append_nil_l (s : string) : EmptyString +:+ s = s.
Proof. done. Qed.

Lemma HasPrefix_spec s pre : strings.HasPrefix s pre = true ↔ ∃ post, s = pre +:+ post.
Proof.
  revert s. induction pre as [|a pre IH]; intros s.
  { split; [by exists s|done]. }
  destruct s as [|b s]; simpl.
  { split; [done|]. by intros [post ?]. }
  case_decide as Hab.
  - subst b. rewrite IH. split; intros [post Hp]; exists post.
    + by rewrite append_cons, <- Hp.
    + rewrite append_cons in Hp. by injection Hp.
  - split; [done|]. intros [post Hp]. rewrite append_cons in Hp. by injection Hp.
Qed.

Lemma occurs_at_0 s substr : occurs_at s substr 0 ↔ strings.HasPrefix s substr = true.
Proof.
  rewrite HasPrefix_spec. split.
  - intros ([|? ?] & post & -> & Hlen); [|done]. eauto.
  - intros [post ->]. by exists EmptyString, post.
Qed.

Lemma occurs_at_S c s substr i : occurs_at (String c s) substr (S i) ↔ occurs_at s substr i.
Proof.
  split.
  - intros ([|a pre] & post & Heq & Hlen); [done|].
    rewrite append_cons in Heq. injection Heq as -> ->.
    exists pre, post. split; [done|]. simpl in Hlen. lia.
  - intros (pre & post & -> & Hlen). exists (String c pre), post.
    split; [done|]. simpl. lia.
Qed.

Lemma occurs_at_nil substr i : occurs_at EmptyString substr i ↔ substr = EmptyString ∧ i = 0%nat.
Proof.
  split.
  - intros ([|? ?] & post & Heq & Hlen); [|done].
    rewrite append_nil_l in Heq. destruct substr; [done|done].
  - intros [-> ->]. by exists EmptyString, EmptyString.
Qed.

(** [LastIndex] returns [-1] when there is no occurrence, and otherwise the
    index of the last one. *)
Lemma LastIndex_spec s substr :
  (strings.LastIndex s substr = -1 ∧ ∀ i, ¬ occurs_at s substr i)
  ∨ (0 ≤ strings.LastIndex s substr
     ∧ last_occurrence s substr (Z.to_nat (strings.LastIndex s substr))).
Proof.
  induction s as [|c s IH]; simpl.
  - case_decide as He.
    + right. split; [done|]. split.
      * by apply occurs_at_nil.
      * intros j [_ ->]%occurs_at_nil. done.
    + left. split; [done|]. intros i [? _]%occurs_at_nil. done.
  - destruct IH as [[Hr Hno]|[Hr [Hocc Hlast]]].
    + rewrite Hr. rewrite decide_False by lia.
      destruct (strings.HasPrefix (String c s) substr) eqn:Hp.
      * right. split; [done|]. split; [by apply occurs_at_0|].
        intros [|j]; [done|]. intros Hj%occurs_at_S. by apply Hno in Hj.
      * left. split; [done|]. intros [|i].
        -- rewrite occurs_at_0. congruence.
        -- intros Hi%occurs_at_S. by apply Hno in Hi.
    + rewrite decide_True by done. right. split; [lia|].
      replace (Z.to_nat (strings.LastIndex s substr + 1))
        with (S (Z.to_nat (strings.LastIndex s substr))) by lia.
      split; [by apply occurs_at_S|].
      intros [|j]; [lia|]. intros Hj%occurs_at_S. apply Hlast in Hj. lia.
Qed.

Lemma last_occurrence_unique s substr i j :
  last_occurrence s substr i → last_occurrence s substr j → i = j.
Proof. intros [Hi Hil] [Hj Hjl]. apply Hil in Hj. apply Hjl in Hi. lia. Qed.

Lemma slice_to_length s n : (n ≤ String.length s)%nat → String.length (strings.slice_to s n) = n.
Proof.
  revert s. induction n as [|n IH]; intros [|c s] Hn; simpl in *; try done; try lia.
  rewrite IH; lia.
Qed.

Lemma slice_to_prefix pre s : strings.slice_to (pre +:+ s) (String.length pre) = pre.
Proof. induction pre as [|c pre IH]; simpl; [by destruct s|]. by rewrite IH. Qed.

Lemma occurs_at_length s substr i : occurs_at s substr i → (i ≤ String.length s)%nat.
Proof.
  intros (pre & post & -> & <-). clear.
  induction pre as [|c pre IH]; simpl; lia.
Qed.

Lemma split_last pre :
  pre ≠ EmptyString →
  ∃ root sep, pre = root +:+ String sep EmptyString
              ∧ S (String.length root) = String.length pre.
Proof.
  induction pre as [|c pre IH]; intros Hne; [done|].
  destruct pre as [|c' pre].
  - by exists EmptyString, c.
  - destruct IH as (root & sep & Hpre & Hr); [done|].
    exists (String c root), sep. split; [by rewrite Hpre|]. simpl in *. lia.
Qed.

(** C6 as stated fails: the package path need not match the trailing
    segments of the working directory; an occurrence anywhere counts. *)
Lemma findGosrc_trailing_counterexample :
  ¬ ends_with "/a/b/c" (convertPath "b") ∧ findGosrc "/a/b/c" "b" = "/a".
Proof.
  split; [|reflexivity].
  intros [pre Heq]. unfold convertPath in Heq.
  do 6 (destruct pre as [|? pre]; [discriminate|]; rewrite append_cons in Heq;
        injection Heq as _ Heq).
  destruct pre; discriminate.
Qed.

(** C6, amended. [findGosrc] returns the empty string exactly when the
    converted package path occurs nowhere in [pwd], or when its last
    occurrence starts at index 0 or 1; otherwise it returns the part of
    [pwd] that ends one byte before the last occurrence, which is not
    empty. The occurrence may be anywhere in [pwd]. *)
Theorem findGosrc_last_occurrence (pwd pkgName : string) :
  let path := convertPath pkgName in
  (findGosrc pwd pkgName = EmptyString
   ↔ (∀ i, ¬ occurs_at pwd path i) ∨ (∃ i, last_occurrence pwd path i ∧ (i ≤ 1)%nat))
  ∧ (∀ i, last_occurrence pwd path i → (2 ≤ i)%nat →
       findGosrc pwd pkgName = strings.slice_to pwd (i - 1)
       ∧ ∃ sep rest, pwd = findGosrc pwd pkgName +:+ String sep (path +:+ rest)).
Proof.
  intros path. unfold findGosrc. fold path.
  destruct (LastIndex_spec pwd path) as [[Hr Hno]|[Hr Hlast]].
  - rewrite Hr. rewrite decide_True by lia. split.
    + split; [by left|done].
    + intros i [Hi _]. by apply Hno in Hi.
  - set (n := Z.to_nat (strings.LastIndex pwd path)) in *.
    assert (strings.LastIndex pwd path = Z.of_nat n) as -> by lia.
    split.
    + case_decide as Hle.
      * split; [|done]. intros _. right. exists n. split; [done|lia].
      * split.
        -- intros Hempty. exfalso.
           pose proof (occurs_at_length _ _ _ (proj1 Hlast)) as Hlen.
           apply (f_equal String.length) in Hempty.
           rewrite slice_to_length in Hempty by lia. simpl in Hempty. lia.
        -- intros [Hno|(i & Hi & Hle')].
           ++ destruct (Hno n). apply Hlast.
           ++ rewrite (last_occurrence_unique _ _ _ _ Hi Hlast) in Hle'. lia.
    + intros i Hi Hge. rewrite (last_occurrence_unique _ _ _ _ Hi Hlast) in *.
      rewrite decide_False by lia.
      replace (Z.to_nat (Z.of_nat n - 1)) with (n - 1)%nat by lia.
      split; [done|].
      destruct Hlast as [(pre & post & Hpwd & Hlen) _].
      destruct (split_last pre) as (root & sep & -> & Hroot).
      { intros ->. simpl in Hlen. lia. }
      assert (String.length root = (n - 1)%nat) as Hroot' by lia.
      exists sep, post. rewrite Hpwd, <- Hroot'.
      rewrite !append_assoc, slice_to_prefix. done.
Qed.

(** ** The parser *)

Lemma parse_step_bad st line : bad_timing line → parse_step st line = inl ErrConvert.
Proof.
  unfold bad_timing, is_measurement, timing_field, parse_step.
  destruct (columns line) as [|r0 [|r1 [|r2 rest]]]; try by intros [[] _].
  intros [Hp Hu]. rewrite Hp, Hu.
  case_decide as Hq; [|done]. subst r0. done.
Qed.

Lemma parse_step_error st line e : parse_step st line = inl e → e = ErrConvert ∧ bad_timing line.
Proof.
  unfold bad_timing, is_measurement, timing_field, parse_step.
  destruct (columns line) as [|r0 [|r1 [|r2 rest]]]; try done.
  case_decide; [done|].
  destruct (strings.HasPrefix r0 "Benchmark") eqn:Hp.
  - destruct (strconv.ParseUint _) eqn:Hu; [done|]. by intros [= <-].
  - by case_decide.
Qed.

(** A line that is not a flush leaves [record] as it is. *)
Lemma parse_step_record st line st' :
  ¬ is_flush line → parse_step st line = inr st' → ps_record st' = ps_record st.
Proof.
  unfold is_flush, parse_step.
  destruct (columns line) as [|r0 [|r1 [|r2 rest]]]; try by intros _ [= <-].
  intros Hf. case_decide; [by intros [= <-]|].
  destruct (strings.HasPrefix r0 "Benchmark").
  - destruct (strconv.ParseUint _); [|done]. by intros [= <-].
  - case_decide; [done|]. by intros [= <-].
Qed.

Lemma parse_lines_app st l1 l2 :
  parse_lines st (l1 ++ l2)
  = match parse_lines st l1 with
    | inl e => inl e
    | inr st1 => parse_lines st1 l2
    end.
Proof.
  revert st. induction l1 as [|line l1 IH]; intros st; simpl; [done|].
  destruct (parse_step st line); [done|]. apply IH.
Qed.

Lemma parse_lines_bad st lines line :
  line ∈ lines → bad_timing line → parse_lines st lines = inl ErrConvert.
Proof.
  intros Hin Hbad. revert st.
  induction Hin as [line lines|line other lines _ IH]; intros st; simpl.
  - by rewrite parse_step_bad.
  - destruct (parse_step st other) as [e|st'] eqn:Hs; [|by apply IH].
    by apply parse_step_error in Hs as [-> _].
Qed.

(** Lines without a flush leave [record] as it is, when they parse. *)
Lemma parse_lines_no_flush st lines :
  (∀ line, line ∈ lines → ¬ is_flush line) →
  match parse_lines st lines with
  | inl _ => ∃ line, line ∈ lines ∧ bad_timing line
  | inr st' => ps_record st' = ps_record st
  end.
Proof.
  revert st. induction lines as [|line lines IH]; intros st Hnf; simpl; [done|].
  destruct (parse_step st line) as [e|st1] eqn:Hs.
  - apply parse_step_error in Hs as [_ Hbad]. exists line. split; [by left|done].
  - apply parse_step_record in Hs; [|apply Hnf; by left].
    specialize (IH st1 (λ l H, Hnf l (list_elem_of_further _ _ _ H))).
    destruct (parse_lines st1 lines).
    + destruct IH as (l & Hl & Hbad). exists l. split; [by right|done].
    + by rewrite IH.
Qed.

Lemma Split_nonempty s sep : strings.Split s sep ≠ [].
Proof.
  induction s as [|c s IH]; simpl; [done|].
  case_decide; [done|]. by destruct (strings.Split s sep).
Qed.

Lemma Split_app s1 s2 sep :
  strings.Split (s1 +:+ String sep s2) sep = strings.Split s1 sep ++ strings.Split s2 sep.
Proof.
  induction s1 as [|c s1 IH].
  - simpl. by rewrite decide_True.
  - rewrite append_cons. simpl. rewrite IH. case_decide; [done|].
    pose proof (Split_nonempty s1 sep).
    by destruct (strings.Split s1 sep).
Qed.

(** A first run: no best file, everything is recorded, exit code 0. *)
Example rebench_first_run :
  let '(code, w) := rebench examples_output.json examples_output.sched
                      (Some examples_output.good) examples_output.w0 150 70 in
  code = Returned 0
  ∧ dom (w_files w)
    = {[ "/go/src/example.com/pkg/.bench_results.json";
         "/go/src/example.com/pkg/.bench_best.json";
         "/go/src/example.com/pkg/bench_comparison.txt" ]}
  ∧ w_files w !! "/go/src/example.com/pkg/.bench_best.json"
    = Some (examples_output.show {[ "BenchmarkSleep" := 1000123456 ]}).
Proof. vm_compute. repeat split; reflexivity. Qed.

(** A run much slower than the best file: exit code 1, the best file keeps
    its timing and the old one becomes the backup. *)
Example rebench_regression_run :
  let '(code, w) := rebench examples_output.json examples_output.sched
                      (Some examples_output.good) examples_output.w1 150 70 in
  code = Returned 1
  ∧ w_files w !! "/go/src/example.com/pkg/.bench_best.json"
    = Some (examples_output.show examples_output.fast)
  ∧ w_files w !! "/go/src/example.com/pkg/.bench_best.json.old"
    = Some (examples_output.show examples_output.fast)
  ∧ w_files w !! "/go/src/example.com/pkg/.bench_results.json"
    = Some (examples_output.show {[ "BenchmarkSleep" := 1000123456 ]}).
Proof. vm_compute. repeat split; reflexivity. Qed.

(** C7. When the output of [go test] has a benchmark measurement line whose
    timing field is not an unsigned 64-bit integer, [runAndStoreBenches]
    returns no record and an error, and [rebench] returns -1 with the file
    system as it found it. *)
Theorem bad_timing_aborts (outstr line : string) :
  line ∈ strings.Split outstr "010" → bad_timing line →
  runAndStoreBenches (Some outstr) = (None, Some ErrConvert)
  ∧ ∀ js sch w speedTolPercent recordTolPercent,
      rebench js sch (Some outstr) w speedTolPercent recordTolPercent
      = (Returned (-1), w).
Proof.
  intros Hin Hbad.
  assert (runAndStoreBenches (Some outstr) = (None, Some ErrConvert)) as Hrun.
  { unfold runAndStoreBenches, parse_output.
    by rewrite (parse_lines_bad _ _ line). }
  split; [done|]. intros. unfold rebench. by rewrite Hrun.
Qed.

Lemma bad_timing_aborts_witness :
  runAndStoreBenches (Some examples_output.bad) = (None, Some ErrConvert)
  ∧ ∀ js sch w speedTolPercent recordTolPercent,
      rebench js sch (Some examples_output.bad) w speedTolPercent recordTolPercent
      = (Returned (-1), w).
Proof.
  apply (bad_timing_aborts examples_output.bad examples_output.bad_line).
  - vm_compute. apply list_elem_of_In. simpl. auto.
  - split; vm_compute; reflexivity.
Defined.

(** Lines without a flush and with good timings, at the end, change
    nothing. *)
Lemma parse_lines_cut st lines rest :
  (∀ line, line ∈ rest → ¬ is_flush line) →
  (∀ line, line ∈ rest → ¬ bad_timing line) →
  parse_result (parse_lines st (lines ++ rest)) = parse_result (parse_lines st lines).
Proof.
  intros Hnf Hgood. rewrite parse_lines_app.
  destruct (parse_lines st lines) as [e|st1]; [done|].
  pose proof (parse_lines_no_flush st1 _ Hnf) as Hrest.
  destruct (parse_lines st1 rest) as [e|st2]; simpl.
  - destruct Hrest as (line & Hin & Hbad). by destruct (Hgood line Hin).
  - by rewrite Hrest.
Qed.

(** For texts: what follows the last flush line can be cut off. *)
Corollary parse_output_cut_text (outstr rest : string) :
  (∀ line, line ∈ strings.Split rest "010" → ¬ is_flush line) →
  (∀ line, line ∈ strings.Split rest "010" → ¬ bad_timing line) →
  parse_output (outstr +:+ nl +:+ rest) = parse_output outstr.
Proof.
  intros Hnf Hgood. unfold parse_output.
  change (outstr +:+ nl +:+ rest) with (outstr +:+ String "010" rest).
  rewrite Split_app. by apply parse_lines_cut.
Qed.

(** C10 as stated fails: a measurement that no flush line follows is not
    always discarded without an error. After the last flush line of this
    text comes a measurement with the timing [12.5]; the parser returns the
    conversion error and no record, though the text without that line
    parses. *)
Lemma unflushed_bad_timing_counterexample :
  let outstr := examples_output.good +:+ nl +:+ examples_output.bad_line in
  strings.Split outstr "010"
  = ["PASS"; examples_output.sleep_line; examples_output.ok_line]
    ++ [examples_output.bad_line]
  ∧ is_measurement examples_output.bad_line
  ∧ ¬ is_flush examples_output.bad_line
  ∧ parse_output examples_output.good
    = (Some {[ "example.com/pkg" := {[ "BenchmarkSleep" := 1000123456 ]} ]}, None)
  ∧ parse_output outstr = (None, Some ErrConvert).
Proof.
  cbv zeta. split; [reflexivity|]. split; [reflexivity|].
  split; [vm_compute; discriminate|]. split; reflexivity.
Qed.

(** C10, amended. The lines after the last flush line of the output do not
    reach the record, and they are silent only when their timings parse.
    Cut the lines of the output in two, with no flush line in the second
    part [rest]: when the timings of [rest] parse, the parser returns what
    the first part alone gives, and no error; whenever the parser returns a
    record, it is the record of the first part; and a measurement of [rest]
    whose timing does not parse makes the parser return the conversion
    error and no record. *)
Theorem unflushed_lines_dropped (outstr : string) (lines rest : list string) :
  strings.Split outstr "010" = lines ++ rest →
  (∀ line, line ∈ rest → ¬ is_flush line) →
  ((∀ line, line ∈ rest → ¬ bad_timing line) →
     parse_output outstr = parse_result (parse_lines parse_init lines))
  ∧ (∀ record, parse_output outstr = (Some record, None) →
       parse_result (parse_lines parse_init lines) = (Some record, None))
  ∧ (∀ line, line ∈ rest → bad_timing line →
       parse_output outstr = (None, Some ErrConvert)).
Proof.
  intros Hsplit Hnf. unfold parse_output. rewrite Hsplit. split; [|split].
  - intros Hgood. by apply parse_lines_cut.
  - rewrite parse_lines_app.
    destruct (parse_lines parse_init lines) as [e|st1]; [done|].
    pose proof (parse_lines_no_flush st1 _ Hnf) as Hrest.
    destruct (parse_lines st1 rest) as [e|st2]; simpl; [done|].
    by rewrite Hrest.
  - intros line Hin Hbad.
    rewrite (parse_lines_bad parse_init (lines ++ rest) line); [done| |done].
    apply elem_of_app. by right.
Qed.

Lemma unflushed_lines_dropped_witness :
  parse_output (examples_output.good +:+ nl +:+ examples_output.orphan_line)
  = (Some {[ "example.com/pkg" := {[ "BenchmarkSleep" := 1000123456 ]} ]}, None).
Proof.
  assert (∀ line, line ∈ [examples_output.orphan_line] →
                  line = examples_output.orphan_line) as Hline.
  { intros line Hin. apply list_elem_of_In in Hin. by destruct Hin as [<-|[]]. }
  assert (∀ line, line ∈ [examples_output.orphan_line] → ¬ is_flush line) as Hnf.
  { intros line ->%Hline. vm_compute. discriminate. }
  apply (proj1 (unflushed_lines_dropped
                  (examples_output.good +:+ nl +:+ examples_output.orphan_line)
                  ["PASS"; examples_output.sleep_line; examples_output.ok_line]
                  [examples_output.orphan_line] eq_refl Hnf)).
  intros line ->%Hline. intros [_ Hbad]. vm_compute in Hbad. discriminate.
Defined.

(** ** Rounding: the factor is monotone in the new timing *)

Ltac divmod a b :=
  let H1 := fresh "Hdm" in let H2 := fresh "Hmb" in
  pose proof (Z.div_mod a b ltac:(lia)) as H1;
  pose proof (Z.mod_pos_bound a b ltac:(lia)) as H2.

Ltac case_eqb :=
  repeat match goal with |- context [?x =? ?y] => destruct (Z.eqb_spec x y) end.

Lemma code_mono A B D : 0 < D → A ≤ B → code A D ≤ code B D.
Proof.
  intros HD HAB. unfold code.
  divmod (2 * A) D. divmod (2 * B) D.
  assert (2 * A / D ≤ 2 * B / D) by (apply Z.div_le_mono; lia).
  destruct (Z.eqb_spec (2 * A mod D) 0), (Z.eqb_spec (2 * B mod D) 0); nia.
Qed.

Lemma code_scale k A D : 0 < k → 0 < D → code (k * A) (k * D) = code A D.
Proof.
  intros Hk HD. unfold code.
  replace (2 * (k * A)) with (k * (2 * A)) by lia.
  rewrite Z.div_mul_cancel_l, Z.mul_mod_distr_l by lia.
  destruct (Z.eqb_spec (2 * A mod D) 0) as [->|]; [by rewrite Z.mul_0_r|].
  destruct (Z.eqb_spec (k * (2 * A mod D)) 0); [nia|done].
Qed.

Lemma code_le_cross A1 D1 A2 D2 :
  0 < D1 → 0 < D2 → A1 * D2 ≤ A2 * D1 → code A1 D1 ≤ code A2 D2.
Proof.
  intros H1 H2 H. rewrite <- (code_scale D2 A1 D1), <- (code_scale D1 A2 D2) by done.
  rewrite (Z.mul_comm D2 D1). apply code_mono; nia.
Qed.

Lemma halve_code A D : 0 < D → halve (code A D) = code A (2 * D).
Proof.
  intros HD. unfold halve, code.
  replace (2 * A / (2 * D)) with (A / D) by (by rewrite Z.div_mul_cancel_l by lia).
  rewrite Z.mul_mod_distr_l by lia.
  divmod A D. divmod (2 * A) D.
  set (q := A / D) in *. set (r := A mod D) in *.
  set (f := 2 * A / D) in *. set (g := 2 * A mod D) in *.
  set (i := if g =? 0 then 0 else 1).
  assert (0 ≤ i ≤ 1) by (subst i; destruct (g =? 0); lia).
  assert (Hk : D * (f - 2 * q) = 2 * r - g) by lia.
  assert (0 ≤ f - 2 * q) by nia.
  assert (f - 2 * q ≤ 1) by nia.
  clearbody q r f g.
  assert (Hq : (2 * f + i) / 4 = q).
  { symmetry. apply (Z.div_unique _ _ _ (2 * f + i - 4 * q)); lia. }
  assert (Hm : (2 * f + i) mod 4 = 2 * f + i - 4 * q).
  { symmetry. apply (Z.mod_unique _ _ q); lia. }
  rewrite Hq, Hm.
  assert (f = 2 * q ∨ f = 2 * q + 1) as [Hf|Hf] by lia.
  - assert (g = 2 * r) by (subst f; lia).
    subst i. destruct (Z.eqb_spec g 0); case_eqb; lia.
  - assert (g = 2 * r - D) by (subst f; lia).
    subst i. destruct (Z.eqb_spec g 0); case_eqb; lia.
Qed.

Lemma rne_mono c1 c2 : 0 ≤ c1 → c1 ≤ c2 → rne c1 ≤ rne c2.
Proof.
  intros H0 H. unfold rne.
  divmod c1 4. divmod c2 4.
  assert (c1 / 4 ≤ c2 / 4) by (apply Z.div_le_mono; lia).
  pose proof (Z.even_spec (c1 / 4)) as E1. pose proof (Z.even_spec (c2 / 4)) as E2.
  pose proof (Z.odd_spec (c1 / 4)) as O1. 
  rewrite <- Z.negb_even in O1.
  destruct (Z.eqb_spec (c1 mod 4) 3), (Z.eqb_spec (c1 mod 4) 2),
    (Z.eqb_spec (c2 mod 4) 3), (Z.eqb_spec (c2 mod 4) 2); try lia;
    destruct (Z.even (c1 / 4)) eqn:Ev1; destruct (Z.even (c2 / 4)) eqn:Ev2; try lia.
  all: try (assert (c1 / 4 < c2 / 4) by lia; lia).
  all: try (destruct (proj1 E2 eq_refl) as [k2 Hk2]; destruct (proj1 O1 eq_refl) as [k1 Hk1]; lia).
Qed.

Lemma code_bounds A D lo hi :
  0 < D → lo * D ≤ A < hi * D → 4 * lo ≤ code A D < 4 * hi.
Proof.
  intros HD [Hlo Hhi]. unfold code. divmod (2 * A) D.
  destruct (Z.eqb_spec (2 * A mod D) 0); nia.
Qed.

Lemma rne_bounds c lo hi : 4 * lo ≤ c < 4 * hi → lo ≤ rne c ≤ hi.
Proof.
  intros [Hlo Hhi]. unfold rne. divmod c 4.
  destruct (Z.eqb_spec (c mod 4) 3), (Z.eqb_spec (c mod 4) 2); try destruct (Z.even (c / 4)); lia.
Qed.

Lemma rec_code_of_loc m l : rec_code (shr_record_of_loc m l) = 4 * m + loc_code l.
Proof. destruct l as [|[]]; unfold rec_code; simpl; lia. Qed.

Lemma shr_m_of_loc m l : shr_m (shr_record_of_loc m l) = m.
Proof. by destruct l as [|[]]. Qed.

Lemma div4 m k : 0 ≤ k < 4 → (4 * m + k) / 4 = m.
Proof. intros. symmetry. apply (Z.div_unique _ _ _ k); lia. Qed.

Lemma mod4 m k : 0 ≤ k < 4 → (4 * m + k) mod 4 = k.
Proof. intros. symmetry. apply (Z.mod_unique _ _ m); lia. Qed.

Lemma shr_1_code mrs :
  0 ≤ shr_m mrs →
  rec_code (shr_1 mrs) = halve (rec_code mrs) ∧ shr_m (shr_1 mrs) = shr_m mrs / 2.
Proof.
  destruct mrs as [m r s]. simpl. intros Hm. unfold halve, rec_code. simpl.
  set (k := (if r then 2 else 0) + (if s then 1 else 0)).
  assert (0 ≤ k < 4) by (subst k; destruct r, s; lia).
  replace (4 * m + (if r then 2 else 0) + (if s then 1 else 0)) with (4 * m + k) by lia.
  rewrite div4, mod4 by done.
  destruct m as [|p|p]; [| |lia].
  - subst k. destruct r, s; simpl; split; reflexivity.
  - assert (Hdiv : ∀ q b, 0 ≤ b < 2 → (2 * q + b) / 2 = q).
    { intros q b ?. symmetry. apply (Z.div_unique _ _ _ b); lia. }
    destruct p as [p|p|]; simpl shr_1; simpl shr_m; simpl shr_r; simpl shr_s.
    + rewrite Pos2Z.inj_xI. rewrite (Hdiv (Z.pos p) 1) by lia.
      split; [|done]. subst k. destruct r, s; simpl orb; case_eqb; lia.
    + rewrite Pos2Z.inj_xO. replace (2 * Z.pos p) with (2 * Z.pos p + 0) at 2 by lia.
      rewrite (Hdiv (Z.pos p) 0) by lia.
      split; [|done]. subst k. destruct r, s; simpl orb; case_eqb; lia.
    + split; [|done]. subst k. destruct r, s; simpl orb; case_eqb; lia.
Qed.

Lemma round_nearest_even_code mrs :
  round_nearest_even (shr_m mrs) (loc_of_shr_record mrs) = rne (rec_code mrs).
Proof.
  destruct mrs as [m r s]. unfold rne, rec_code. simpl.
  set (k := (if r then 2 else 0) + (if s then 1 else 0)).
  assert (0 ≤ k < 4) by (subst k; destruct r, s; lia).
  replace (4 * m + (if r then 2 else 0) + (if s then 1 else 0)) with (4 * m + k) by lia.
  rewrite div4, mod4 by done.
  subst k. destruct r, s; simpl; try destruct (Z.even m); lia.
Qed.

(** Shifting right by [n] bits doubles the denominator [n] times. *)
Lemma iter_shr_code n : ∀ mrs A D,
  0 < D → 0 ≤ shr_m mrs → rec_code mrs = code A D →
  rec_code (SpecFloat.iter_pos shr_1 n mrs) = code A (D * 2 ^ Z.pos n)
  ∧ 0 ≤ shr_m (SpecFloat.iter_pos shr_1 n mrs).
Proof.
  assert (step : ∀ mrs A D, 0 < D → 0 ≤ shr_m mrs → rec_code mrs = code A D →
            rec_code (shr_1 mrs) = code A (D * 2) ∧ 0 ≤ shr_m (shr_1 mrs)).
  { intros mrs A D HD Hm Hc. destruct (shr_1_code mrs Hm) as [-> ->].
    rewrite Hc, halve_code, (Z.mul_comm D 2) by done. split; [done|].
    apply Z.div_pos; lia. }
  induction n as [n IH|n IH|]; intros mrs A D HD Hm Hc; simpl SpecFloat.iter_pos.
  - destruct (step mrs A D HD Hm Hc) as [Hc1 Hm1].
    destruct (IH _ A (D * 2) ltac:(lia) Hm1 Hc1) as [Hc2 Hm2].
    destruct (IH _ A (D * 2 * 2 ^ Z.pos n) ltac:(nia) Hm2 Hc2) as [Hc3 Hm3].
    split; [|done]. rewrite Hc3. f_equal.
    rewrite Pos2Z.inj_xI, Z.pow_add_r, Z.pow_mul_r, Z.pow_1_r by lia.
    replace (2 ^ 2) with 4 by done.
    assert (4 ^ Z.pos n = 2 ^ Z.pos n * 2 ^ Z.pos n).
    { rewrite <- Z.pow_add_r by lia. replace (Z.pos n + Z.pos n) with (2 * Z.pos n) by lia.
      by rewrite Z.pow_mul_r by lia. }
    lia.
  - destruct (IH _ A D HD Hm Hc) as [Hc2 Hm2].
    destruct (IH _ A (D * 2 ^ Z.pos n) ltac:(nia) Hm2 Hc2) as [Hc3 Hm3].
    split; [|done]. rewrite Hc3. f_equal.
    rewrite Pos2Z.inj_xO. rewrite <- Z.mul_assoc, <- Z.pow_add_r by lia.
    do 2 f_equal. lia.
  - rewrite Z.pow_1_r. by apply step.
Qed.

(** *** The number of bits *)

Lemma digits2_pos_bounds p :
  2 ^ (Z.pos (digits2_pos p) - 1) ≤ Z.pos p < 2 ^ Z.pos (digits2_pos p).
Proof.
  induction p as [p IH|p IH|]; simpl digits2_pos; [| |done].
  - rewrite Pos2Z.inj_succ. change (Z.pos p~1) with (2 * Z.pos p + 1).
    replace (Z.succ (Z.pos (digits2_pos p)) - 1) with (Z.succ (Z.pos (digits2_pos p) - 1)) by lia.
    rewrite !Z.pow_succ_r by lia. lia.
  - rewrite Pos2Z.inj_succ. change (Z.pos p~0) with (2 * Z.pos p).
    replace (Z.succ (Z.pos (digits2_pos p)) - 1) with (Z.succ (Z.pos (digits2_pos p) - 1)) by lia.
    rewrite !Z.pow_succ_r by lia. lia.
Qed.

Lemma Zdigits2_unique x k : 2 ^ (k - 1) ≤ x < 2 ^ k → 0 < x → Zdigits2 x = k.
Proof.
  intros [Hlo Hhi] Hx. destruct x as [|p|p]; [lia| |lia]. simpl.
  pose proof (digits2_pos_bounds p) as [Hl Hh].
  set (d := Z.pos (digits2_pos p)) in *.
  assert (0 < d) by (subst d; lia).
  assert (0 < k).
  { destruct (Z_lt_le_dec 0 k); [done|]. 
    assert (2 ^ k ≤ 2 ^ 0) by (destruct (Z_lt_le_dec k 0); [rewrite Z.pow_neg_r by lia; done|apply Z.pow_le_mono_r; lia]).
    simpl in *. lia. }
  destruct (Z_lt_le_dec d k) as [Hlt|Hge].
  - assert (2 ^ d ≤ 2 ^ (k - 1)) by (apply Z.pow_le_mono_r; lia). lia.
  - destruct (Z_lt_le_dec k d) as [Hlt|Hge']; [|lia].
    assert (2 ^ k ≤ 2 ^ (d - 1)) by (apply Z.pow_le_mono_r; lia). lia.
Qed.

Lemma shr_fexp_shift m e l n :
  0 ≤ n → two52 * 2 ^ n ≤ m < two53 * 2 ^ n → -1074 ≤ e + n →
  shr_fexp 53 1024 m e l
  = (fst (shr (shr_record_of_loc m l) e n), e + n).
Proof.
  intros Hn Hm He. unfold shr_fexp.
  assert (Zdigits2 m = 53 + n) as ->.
  { apply Zdigits2_unique; [|unfold two52 in *; nia].
    replace (53 + n - 1) with (52 + n) by lia.
    rewrite !Z.pow_add_r by lia. unfold two52, two53 in *. 
    change (2 ^ 52) with 4503599627370496. change (2 ^ 53) with 9007199254740992. lia. }
  unfold fexp, emin. rewrite Z.max_l by lia.
  replace (53 + n + e - 53 - e) with n by lia.
  unfold shr. destruct n; simpl; f_equal; lia.
Qed.

Lemma shr_code m l e n A D :
  0 < D → 0 ≤ n → 0 ≤ m → 4 * m + loc_code l = code A D →
  let mrs := fst (shr (shr_record_of_loc m l) e n) in
  rec_code mrs = code A (D * 2 ^ n).
Proof.
  intros HD Hn Hm Hc mrs. subst mrs. unfold shr.
  destruct n as [|n|n]; [| |lia]; simpl fst.
  - by rewrite rec_code_of_loc, Z.mul_1_r.
  - eapply iter_shr_code; [done| |]; by rewrite ?shr_m_of_loc, ?rec_code_of_loc.
Qed.

Lemma binary_round_aux_spec m l e n A D :
  0 < D → 0 ≤ n → 4 * m + loc_code l = code A D →
  two52 * 2 ^ n ≤ m < two53 * 2 ^ n →
  two52 * (D * 2 ^ n) ≤ A < two53 * (D * 2 ^ n) →
  -1074 ≤ e + n → e + n + 1 ≤ 971 →
  binary_round_aux 53 1024 false m e l = normal (rne (code A (D * 2 ^ n))) (e + n).
Proof.
  intros HD Hn Hc Hm HA Hlo Hhi.
  assert (0 < 2 ^ n) by (apply Z.pow_pos_nonneg; lia).
  assert (0 ≤ m) by (unfold two52 in *; nia).
  unfold binary_round_aux. rewrite (shr_fexp_shift m e l n) by done.
  set (mrs := fst (shr (shr_record_of_loc m l) e n)).
  assert (rec_code mrs = code A (D * 2 ^ n)) as Hcode by (by apply shr_code).
  rewrite round_nearest_even_code, Hcode.
  set (r := rne (code A (D * 2 ^ n))).
  assert (two52 ≤ r ≤ two53) as Hr.
  { apply rne_bounds, code_bounds; [nia|done]. }
  clearbody r. unfold normal. destruct (Z.ltb_spec r two53) as [Hlt|Hge].
  - rewrite (shr_fexp_shift r (e + n) loc_Exact 0) by (rewrite ?Z.pow_0_r; lia).
    simpl fst. cbn [shr_record_of_loc shr_m].
    destruct r as [|r|r]; [unfold two52 in *; lia| |unfold two52 in *; lia].
    replace (e + n + 0) with (e + n) by lia.
    assert ((e + n <=? 1024 - 53) = true) as -> by (apply Z.leb_le; lia).
    done.
  - assert (r = two53) as -> by lia.
    rewrite (shr_fexp_shift two53 (e + n) loc_Exact 1) by (unfold two52, two53; lia).
    assert ((e + n + 1 <=? 1024 - 53) = true) as -> by (apply Z.leb_le; lia).
    done.
Qed.

(** *** Normal results and their order *)

Lemma normal_shape r E :
  two52 ≤ r ≤ two53 →
  ∃ m e, normal r E = S754_finite false m e
         ∧ two52 ≤ Z.pos m < two53
         ∧ (r < two53 ∧ Z.pos m = r ∧ e = E ∨ r = two53 ∧ Z.pos m = two52 ∧ e = E + 1).
Proof.
  intros Hr. unfold normal. destruct (Z.ltb_spec r two53).
  - exists (Z.to_pos r), E. unfold two52 in *. rewrite Z2Pos.id by lia.
    split; [done|]. split; [lia|]. left. done.
  - exists (Z.to_pos two52), (E + 1). split; [done|]. split; [done|]. right.
    split; [lia|done].
Qed.

Lemma finite_le m1 e1 m2 e2 :
  e1 < e2 ∨ e1 = e2 ∧ Z.pos m1 ≤ Z.pos m2 →
  SFleb (S754_finite false m1 e1) (S754_finite false m2 e2) = true.
Proof.
  intros H. unfold SFleb, SFcompare.
  change (Pos.compare_cont Eq m1 m2) with (Pos.compare m1 m2).
  destruct (Z.compare_spec e1 e2); [|done|lia].
  destruct (Pos.compare_spec m1 m2); [done|done|lia].
Qed.

Lemma normal_lex r1 E1 r2 E2 m1 e1 m2 e2 :
  two52 ≤ r1 ≤ two53 → two52 ≤ r2 ≤ two53 →
  E1 < E2 ∨ E1 = E2 ∧ r1 ≤ r2 →
  normal r1 E1 = S754_finite false m1 e1 →
  normal r2 E2 = S754_finite false m2 e2 →
  two52 ≤ Z.pos m1 < two53 ∧ two52 ≤ Z.pos m2 < two53
  ∧ E1 ≤ e1 ≤ E1 + 1 ∧ E2 ≤ e2 ≤ E2 + 1
  ∧ (e1 < e2 ∨ e1 = e2 ∧ Z.pos m1 ≤ Z.pos m2).
Proof.
  intros Hr1 Hr2 Hle H1 H2.
  destruct (normal_shape r1 E1 Hr1) as (m1' & e1' & H1' & Hm1 & Hs1).
  destruct (normal_shape r2 E2 Hr2) as (m2' & e2' & H2' & Hm2 & Hs2).
  rewrite H1 in H1'. rewrite H2 in H2'. injection H1' as <- <-. injection H2' as <- <-.
  repeat split; try lia.
Qed.

Lemma normal_le r1 E1 r2 E2 :
  two52 ≤ r1 ≤ two53 → two52 ≤ r2 ≤ two53 →
  E1 < E2 ∨ E1 = E2 ∧ r1 ≤ r2 →
  SFleb (normal r1 E1) (normal r2 E2) = true.
Proof.
  intros Hr1 Hr2 Hle.
  destruct (normal_shape r1 E1 Hr1) as (m1 & e1 & H1 & _).
  destruct (normal_shape r2 E2 Hr2) as (m2 & e2 & H2 & _).
  destruct (normal_lex r1 E1 r2 E2 m1 e1 m2 e2) as (_ & _ & _ & _ & Hlex); try done.
  rewrite H1, H2. by apply finite_le.
Qed.

(** Two roundings in a row of binades: the one of the smaller value is the
    smaller float. *)
Lemma round_le A1 D1 E1 A2 D2 E2 :
  0 < D1 → 0 < D2 →
  two52 * D1 ≤ A1 < two53 * D1 → two52 * D2 ≤ A2 < two53 * D2 →
  E1 < E2 ∨ E1 = E2 ∧ A1 * D2 ≤ A2 * D1 →
  let r1 := rne (code A1 D1) in
  let r2 := rne (code A2 D2) in
  two52 ≤ r1 ≤ two53 ∧ two52 ≤ r2 ≤ two53 ∧ (E1 < E2 ∨ E1 = E2 ∧ r1 ≤ r2).
Proof.
  intros HD1 HD2 HA1 HA2 Hle r1 r2.
  assert (two52 ≤ r1 ≤ two53) by (apply rne_bounds, code_bounds; done).
  assert (two52 ≤ r2 ≤ two53) by (apply rne_bounds, code_bounds; done).
  split; [done|]. split; [done|].
  destruct Hle as [?|[-> Hc]]; [by left|right]. split; [done|].
  apply rne_mono; [|by apply code_le_cross].
  pose proof (code_bounds A1 D1 two52 two53 HD1 HA1). unfold two52 in *. lia.
Qed.

(** *** [float64(n)] *)

Lemma code_int A : code A 1 = 4 * A.
Proof. unfold code. rewrite Z.div_1_r, Z.mod_1_r. simpl. lia. Qed.

Lemma iter_xO p k : Z.pos (Pos.iter xO p k) = Z.pos p * 2 ^ Z.pos k.
Proof.
  induction k as [|k IH] using Pos.peano_ind.
  - simpl. lia.
  - rewrite Pos.iter_succ, Pos2Z.inj_succ, Z.pow_succ_r by lia.
    change (Z.pos (Pos.iter xO p k)~0) with (2 * Z.pos (Pos.iter xO p k)).
    rewrite IH. lia.
Qed.

Lemma pow2_split a b : 0 ≤ a → 0 ≤ b → 2 ^ (a + b) = 2 ^ a * 2 ^ b.
Proof. intros. by rewrite Z.pow_add_r. Qed.

(** [float64(c)] for [0 < c < 2^64]: [c] has [d] bits; it is shifted to 53
    bits, to the left exactly, to the right with rounding. *)
Lemma of_int_spec c :
  0 < c < 2 ^ 64 →
  let d := Zdigits2 c in
  let s := Z.max (53 - d) 0 in
  let n := Z.max (d - 53) 0 in
  1 ≤ d ≤ 64
  ∧ 2 ^ (d - 1) ≤ c < 2 ^ d
  ∧ two52 * 2 ^ n ≤ c * 2 ^ s < two53 * 2 ^ n
  ∧ f64.of_int c = normal (rne (code (c * 2 ^ s) (2 ^ n))) (d - 53).
Proof.
  intros [Hc0 Hc64] d s n.
  destruct c as [|p|p]; [lia| |lia].
  pose proof (digits2_pos_bounds p) as Hd. fold (Zdigits2 (Z.pos p)) in Hd. fold d in Hd.
  assert (1 ≤ d) by (subst d; simpl; lia).
  assert (d ≤ 64).
  { destruct (Z_lt_le_dec 64 d); [|done].
    assert (2 ^ 64 ≤ 2 ^ (d - 1)) by (apply Z.pow_le_mono_r; lia). lia. }
  assert (0 < 2 ^ n) by (apply Z.pow_pos_nonneg; lia).
  assert (0 < 2 ^ s) by (apply Z.pow_pos_nonneg; lia).
  assert (Hbin : two52 * 2 ^ n ≤ Z.pos p * 2 ^ s < two53 * 2 ^ n).
  { unfold two52, two53. change 4503599627370496 with (2 ^ 52). change 9007199254740992 with (2 ^ 53).
    rewrite <- !pow2_split by lia.
    destruct (Z_lt_le_dec d 53).
    - replace n with 0 by lia. replace s with (53 - d) by lia.
      replace (52 + 0) with ((d - 1) + (53 - d)) by lia.
      replace (53 + 0) with (d + (53 - d)) by lia.
      rewrite !pow2_split by lia. nia.
    - replace n with (d - 53) by lia. replace s with 0 by lia.
      replace (52 + (d - 53)) with (d - 1) by lia.
      replace (53 + (d - 53)) with d by lia. lia. }
  do 3 (split; [done|]).
  unfold f64.of_int, binary_normalize, binary_round.
  change (Z.pos (digits2_pos p)) with d. unfold f64.prec, f64.emax.
  assert (fexp 53 1024 (d + 0) = d - 53) as ->.
  { unfold fexp, emin. lia. }
  unfold shl_align. destruct (Z_lt_le_dec d 53) as [Hlt|Hge].
  - destruct (d - 53 - 0) as [|k|k] eqn:Hk; [lia|lia|].
    assert (s = Z.pos k) as Hs by lia. assert (n = 0) as Hn by lia.
    rewrite Hs, Hn in *. rewrite Z.pow_0_r in *.
    rewrite iter_xO.
    rewrite (binary_round_aux_spec _ _ _ 0 (Z.pos p * 2 ^ Z.pos k) 1);
      rewrite ?Z.pow_0_r, ?Z.mul_1_r, ?code_int; try done; try (simpl loc_code; lia).
    by replace (d - 53 + 0) with (d - 53) by lia.
  - assert (s = 0) as Hs by lia. assert (n = d - 53) as Hn by lia.
    rewrite Hs, Hn in *. rewrite Z.pow_0_r, Z.mul_1_r in *.
    assert (binary_round_aux 53 1024 false (Z.pos p) 0 loc_Exact
            = normal (rne (code (Z.pos p) (2 ^ (d - 53)))) (d - 53)) as Hb.
    { rewrite (binary_round_aux_spec _ _ _ (d - 53) (Z.pos p) 1);
        rewrite ?Z.mul_1_l, ?code_int; try done; try (simpl loc_code; lia). }
    destruct (d - 53 - 0) eqn:Hk; [exact Hb|exact Hb|lia].
Qed.

(** *** Division *)

Lemma new_location_code D A :
  0 < D → 0 ≤ A → 4 * (A / D) + loc_code (new_location D (A mod D)) = code A D.
Proof.
  intros HD HA. unfold code.
  divmod A D. divmod (2 * A) D.
  set (q := A / D) in *. set (r := A mod D) in *.
  set (f := 2 * A / D) in *. set (g := 2 * A mod D) in *.
  assert (Hk : D * (f - 2 * q) = 2 * r - g) by lia.
  assert (0 ≤ f - 2 * q) by nia.
  assert (f - 2 * q ≤ 1) by nia.
  clearbody q r f g.
  unfold new_location, new_location_even, new_location_odd.
  assert (2 * r = D → Z.even D = true).
  { intros <-. by rewrite Z.even_mul. }
  assert (f = 2 * q ∧ g = 2 * r ∨ f = 2 * q + 1 ∧ g = 2 * r - D) as Hfg.
  { assert (f = 2 * q ∨ f = 2 * q + 1) as [Hf|Hf] by lia; subst f; [left|right]; lia. }
  destruct (Z.even D) eqn:Hev;
    destruct (Z.eqb_spec r 0), (Z.eqb_spec g 0); simpl loc_code; try lia;
    match goal with
    | |- context [?a ?= ?b] => destruct (Z.compare_spec a b); simpl loc_code; lia
    end.
Qed.

Lemma Zdigits2_normal m : two52 ≤ Z.pos m < two53 → Zdigits2 (Z.pos m) = 53.
Proof. intros. apply Zdigits2_unique; [|lia]. unfold two52, two53 in *. simpl. lia. Qed.

(** The quotient of two floats with 53-bit mantissas. *)
Lemma SFdiv_normal m1 e1 m2 e2 :
  two52 ≤ Z.pos m1 < two53 → two52 ≤ Z.pos m2 < two53 →
  -100 ≤ e1 ≤ 100 → -100 ≤ e2 ≤ 100 →
  let n := if Z.pos m1 <? Z.pos m2 then 0 else 1 in
  two52 * (Z.pos m2 * 2 ^ n) ≤ Z.pos m1 * two53 < two53 * (Z.pos m2 * 2 ^ n)
  ∧ SFdiv 53 1024 (S754_finite false m1 e1) (S754_finite false m2 e2)
    = normal (rne (code (Z.pos m1 * two53) (Z.pos m2 * 2 ^ n))) (e1 - e2 - 53 + n).
Proof.
  intros Hm1 Hm2 He1 He2 n.
  assert (Hbin : two52 * (Z.pos m2 * 2 ^ n) ≤ Z.pos m1 * two53 < two53 * (Z.pos m2 * 2 ^ n)).
  { subst n. unfold two52, two53 in *. destruct (Z.ltb_spec (Z.pos m1) (Z.pos m2)); simpl; lia. }
  split; [done|].
  unfold SFdiv, SFdiv_core_binary. rewrite !Zdigits2_normal by done.
  assert (Z.min (fexp 53 1024 (53 + e1 - (53 + e2))) (e1 - e2) = e1 - e2 - 53) as ->.
  { unfold fexp, emin. lia. }
  replace (e1 - e2 - (e1 - e2 - 53)) with 53 by lia. cbv iota.
  rewrite Z.shiftl_mul_pow2 by done. change (2 ^ 53) with two53.
  set (A := Z.pos m1 * two53) in *.
  pose proof (Z.div_mod A (Z.pos m2) ltac:(lia)) as Hdm.
  unfold Z.div, Z.modulo in Hdm.
  pose proof (new_location_code (Z.pos m2) A ltac:(lia) ltac:(unfold two53 in *; lia)) as Hloc.
  assert (Hq : two52 * 2 ^ n ≤ A / Z.pos m2 < two53 * 2 ^ n).
  { split.
    - apply Z.div_le_lower_bound; [lia|]. lia.
    - apply Z.div_lt_upper_bound; [lia|]. lia. }
  unfold Z.div, Z.modulo in Hloc, Hq.
  destruct (Z.div_eucl A (Z.pos m2)) as [q r]. simpl in Hloc, Hq.
  assert (0 ≤ n ≤ 1) by (subst n; destruct (_ <? _); lia).
  rewrite (binary_round_aux_spec q _ _ n A (Z.pos m2)); try done; try lia.
Qed.

(** *** Monotonicity *)

Lemma Zdigits2_mono c1 c2 : 0 < c1 → c1 ≤ c2 → Zdigits2 c1 ≤ Zdigits2 c2.
Proof.
  intros H0 Hle. destruct c1 as [|p1|p1]; [lia| |lia]. destruct c2 as [|p2|p2]; [lia| |lia].
  simpl. pose proof (digits2_pos_bounds p1). pose proof (digits2_pos_bounds p2).
  destruct (Z_lt_le_dec (Z.pos (digits2_pos p2)) (Z.pos (digits2_pos p1))); [|done].
  assert (2 ^ Z.pos (digits2_pos p2) ≤ 2 ^ (Z.pos (digits2_pos p1) - 1))
    by (apply Z.pow_le_mono_r; lia).
  lia.
Qed.

(** [float64] of a positive 64-bit integer is a float with a 53-bit
    mantissa, and the conversion is monotone. *)
Lemma of_int_mono c1 c2 :
  0 < c1 → c1 ≤ c2 → c2 < 2 ^ 64 →
  ∃ m1 e1 m2 e2,
    f64.of_int c1 = S754_finite false m1 e1
    ∧ f64.of_int c2 = S754_finite false m2 e2
    ∧ two52 ≤ Z.pos m1 < two53 ∧ two52 ≤ Z.pos m2 < two53
    ∧ -52 ≤ e1 ≤ 12 ∧ -52 ≤ e2 ≤ 12
    ∧ (e1 < e2 ∨ e1 = e2 ∧ Z.pos m1 ≤ Z.pos m2).
Proof.
  intros H0 Hle H64.
  destruct (of_int_spec c1) as (Hd1 & Hc1 & Hb1 & E1); [lia|].
  destruct (of_int_spec c2) as (Hd2 & Hc2 & Hb2 & E2); [lia|].
  pose proof (Zdigits2_mono c1 c2 H0 Hle) as Hd.
  set (d1 := Zdigits2 c1) in *. set (d2 := Zdigits2 c2) in *.
  set (s1 := Z.max (53 - d1) 0) in *. set (n1 := Z.max (d1 - 53) 0) in *.
  set (s2 := Z.max (53 - d2) 0) in *. set (n2 := Z.max (d2 - 53) 0) in *.
  assert (0 < 2 ^ n1) by (apply Z.pow_pos_nonneg; lia).
  assert (0 < 2 ^ n2) by (apply Z.pow_pos_nonneg; lia).
  destruct (round_le (c1 * 2 ^ s1) (2 ^ n1) (d1 - 53) (c2 * 2 ^ s2) (2 ^ n2) (d2 - 53))
    as (Hr1 & Hr2 & Hlex); try done.
  { destruct (Z_lt_le_dec d1 d2); [left; lia|right]. split; [lia|].
    assert (s1 = s2 ∧ n1 = n2) as [Hs Hn] by lia.
    assert (0 < 2 ^ s2) by (apply Z.pow_pos_nonneg; lia).
    clearbody s1 s2 n1 n2. subst s1 n1. nia. }
  destruct (normal_shape _ (d1 - 53) Hr1) as (m1 & e1 & F1 & _).
  destruct (normal_shape _ (d2 - 53) Hr2) as (m2 & e2 & F2 & _).
  destruct (normal_lex _ _ _ _ m1 e1 m2 e2 Hr1 Hr2 Hlex F1 F2) as (? & ? & ? & ? & ?).
  exists m1, e1, m2, e2. rewrite E1, E2. repeat split; try done; lia.
Qed.

(** Dividing by the same float is monotone in the dividend. *)
Lemma div_mono m1 e1 m1' e1' m2 e2 :
  two52 ≤ Z.pos m1 < two53 → two52 ≤ Z.pos m1' < two53 → two52 ≤ Z.pos m2 < two53 →
  -100 ≤ e1 ≤ 100 → -100 ≤ e1' ≤ 100 → -100 ≤ e2 ≤ 100 →
  e1 < e1' ∨ e1 = e1' ∧ Z.pos m1 ≤ Z.pos m1' →
  SFleb (SFdiv 53 1024 (S754_finite false m1 e1) (S754_finite false m2 e2))
        (SFdiv 53 1024 (S754_finite false m1' e1') (S754_finite false m2 e2)) = true.
Proof.
  intros Hm1 Hm1' Hm2 He1 He1' He2 Hle.
  destruct (SFdiv_normal m1 e1 m2 e2) as [Hb1 ->]; try done.
  destruct (SFdiv_normal m1' e1' m2 e2) as [Hb2 ->]; try done.
  set (n1 := if Z.pos m1 <? Z.pos m2 then 0 else 1) in *.
  set (n2 := if Z.pos m1' <? Z.pos m2 then 0 else 1) in *.
  assert (Hn1 : n1 = 0 ∧ Z.pos m1 < Z.pos m2 ∨ n1 = 1 ∧ Z.pos m2 ≤ Z.pos m1)
    by (subst n1; destruct (Z.ltb_spec (Z.pos m1) (Z.pos m2)); lia).
  assert (Hn2 : n2 = 0 ∧ Z.pos m1' < Z.pos m2 ∨ n2 = 1 ∧ Z.pos m2 ≤ Z.pos m1')
    by (subst n2; destruct (Z.ltb_spec (Z.pos m1') (Z.pos m2)); lia).
  clearbody n1 n2.
  assert (H2n1 : 2 ^ n1 = 1 ∧ n1 = 0 ∨ 2 ^ n1 = 2 ∧ n1 = 1)
    by (destruct Hn1 as [[-> _]|[-> _]]; [left|right]; done).
  assert (H2n2 : 2 ^ n2 = 1 ∧ n2 = 0 ∨ 2 ^ n2 = 2 ∧ n2 = 1)
    by (destruct Hn2 as [[-> _]|[-> _]]; [left|right]; done).
  destruct (round_le (Z.pos m1 * two53) (Z.pos m2 * 2 ^ n1) (e1 - e2 - 53 + n1)
              (Z.pos m1' * two53) (Z.pos m2 * 2 ^ n2) (e1' - e2 - 53 + n2))
    as (Hr1 & Hr2 & Hlex); try done; try lia.
  - destruct (Z_lt_le_dec (e1 - e2 - 53 + n1) (e1' - e2 - 53 + n2)); [left; lia|right].
    split; [lia|]. unfold two52, two53 in *. 
    destruct H2n1 as [[-> ?]|[-> ?]], H2n2 as [[-> ?]|[-> ?]]; nia.
  - by apply normal_le.
Qed.

(** The factor never decreases when the new timing grows. *)
Theorem factor_of_mono b c1 c2 :
  0 < b < 2 ^ 64 → 0 ≤ c1 → c1 ≤ c2 → c2 < 2 ^ 64 →
  f64.le (factor_of c1 b) (factor_of c2 b) = true.
Proof.
  intros Hb H0 Hle H64. unfold factor_of, f64.div, f64.le.
  destruct (of_int_mono b b) as (mb & eb & _ & _ & Eb & _ & Hmb & _ & Heb & _); try lia.
  rewrite Eb. unfold f64.prec, f64.emax.
  destruct (Z.eq_dec c1 0) as [->|Hc1].
  - change (f64.of_int 0) with (S754_zero false).
    destruct (Z.eq_dec c2 0) as [->|Hc2]; [done|].
    destruct (of_int_mono c2 c2) as (m2 & e2 & _ & _ & E2 & _ & Hm2 & _ & He2 & _); try lia.
    rewrite E2.
    destruct (SFdiv_normal m2 e2 mb eb) as [Hbin ->]; try done; try lia.
    destruct (normal_shape (rne (code (Z.pos m2 * two53)
                (Z.pos mb * 2 ^ (if Z.pos m2 <? Z.pos mb then 0 else 1))))
                (e2 - eb - 53 + (if Z.pos m2 <? Z.pos mb then 0 else 1)))
      as (m & e & -> & _); [|done].
    apply rne_bounds, code_bounds; [|done].
    destruct (_ <? _); simpl; lia.
  - destruct (of_int_mono c1 c2) as (m1 & e1 & m2 & e2 & E1 & E2 & ? & ? & ? & ? & ?);
      try lia.
    rewrite E1, E2. apply div_mono; try done; lia.
Qed.

(** *** The order of floats *)

Ltac case_compare :=
  repeat match goal with
    | |- context [Z.compare ?a ?b] => destruct (Z.compare_spec a b)
    | |- context [Pos.compare_cont Eq ?a ?b] =>
        change (Pos.compare_cont Eq a b) with (Pos.compare a b);
        destruct (Pos.compare_spec a b)
    end.

Lemma SFltb_key x y :
  SFltb x y = true ↔ ¬ is_nan x ∧ ¬ is_nan y ∧ key_lt (key x) (key y).
Proof.
  unfold SFltb, SFcompare, is_nan, key_lt, key.
  destruct x as [[]|[]| |[] mx ex], y as [[]|[]| |[] my ey]; simpl;
    case_compare; simpl; split; try done; try (intros; repeat split; try done; lia);
    try (intros (_ & _ & ?); lia); try (intros (? & _); done); try (intros (_ & ? & _); done).
Qed.

Lemma SFleb_key x y :
  SFleb x y = true ↔ ¬ is_nan x ∧ ¬ is_nan y ∧ key_le (key x) (key y).
Proof.
  unfold SFleb, SFcompare, is_nan, key_le, key_lt, key.
  destruct x as [[]|[]| |[] mx ex], y as [[]|[]| |[] my ey]; simpl;
    case_compare; simpl; split; try done;
    try (intros; repeat split; try done; (left; lia) || (right; repeat f_equal; lia));
    try (intros (_ & _ & [?|[=]]); lia); try (intros (? & _); done);
    try (intros (_ & ? & _); done).
Qed.

Lemma key_lt_le_trans k1 k2 k3 : key_lt k1 k2 → key_le k2 k3 → key_lt k1 k3.
Proof.
  destruct k1 as [[a1 b1] c1], k2 as [[a2 b2] c2], k3 as [[a3 b3] c3].
  unfold key_le, key_lt. intros H1 [H2|[= -> -> ->]]; lia.
Qed.

Lemma key_le_lt_trans k1 k2 k3 : key_le k1 k2 → key_lt k2 k3 → key_lt k1 k3.
Proof.
  destruct k1 as [[a1 b1] c1], k2 as [[a2 b2] c2], k3 as [[a3 b3] c3].
  unfold key_le, key_lt. intros [H1|[= -> -> ->]] H2; lia.
Qed.

Lemma SFltb_leb_trans t x y : SFltb t x = true → SFleb x y = true → SFltb t y = true.
Proof.
  rewrite !SFltb_key, SFleb_key. intros (? & ? & ?) (? & ? & ?).
  repeat split; try done. by eapply key_lt_le_trans.
Qed.

Lemma SFleb_ltb_trans x y t : SFleb x y = true → SFltb y t = true → SFltb x t = true.
Proof.
  rewrite !SFltb_key, SFleb_key. intros (? & ? & ?) (? & ? & ?).
  repeat split; try done. by eapply key_le_lt_trans.
Qed.

(** C9 as stated fails: the factor is a [float64], and two timings above
    [2^53] can have the same one. *)
Lemma factor_strict_counterexample :
  9007199254740992 < 9007199254740993
  ∧ factor_of 9007199254740992 1 = factor_of 9007199254740993 1
  ∧ f64.lt (factor_of 9007199254740992 1) (factor_of 9007199254740993 1) = false.
Proof. split; [done|]. split; vm_compute; reflexivity. Qed.

(** C9, amended. For a positive old timing and any tolerances, a larger
    new timing never has a smaller factor; a benchmark that is Regressed
    stays Regressed when its new timing grows, and one that is Improved
    stays Improved when its new timing shrinks. *)
Theorem factor_monotone (b c1 c2 : Z) (speedTol recordTol : float64) :
  0 < b < 2 ^ 64 → 0 ≤ c1 → c1 ≤ c2 → c2 < 2 ^ 64 →
  f64.le (factor_of c1 b) (factor_of c2 b) = true
  ∧ (judge speedTol recordTol (factor_of c1 b) = Regressed →
     judge speedTol recordTol (factor_of c2 b) = Regressed)
  ∧ (judge speedTol recordTol (factor_of c2 b) = Improved →
     judge speedTol recordTol (factor_of c1 b) = Improved).
Proof.
  intros Hb H0 Hle H64.
  pose proof (factor_of_mono b c1 c2 Hb H0 Hle H64) as Hmono.
  split; [done|]. unfold f64.le in Hmono. unfold judge, f64.gt, f64.lt. split.
  - destruct (SFltb speedTol (factor_of c1 b)) eqn:H1.
    + by rewrite (SFltb_leb_trans _ _ _ H1 Hmono).
    + by destruct (SFltb (factor_of c1 b) recordTol).
  - destruct (SFltb speedTol (factor_of c2 b)) eqn:H2; [done|].
    destruct (SFltb (factor_of c2 b) recordTol) eqn:H3; [|done]. intros _.
    rewrite (SFleb_ltb_trans _ _ _ Hmono H3).
    destruct (SFltb speedTol (factor_of c1 b)) eqn:H1; [|done].
    by rewrite (SFltb_leb_trans _ _ _ H1 Hmono) in H2.
Qed.

Lemma factor_monotone_witness :
  f64.le (factor_of 500 1000) (factor_of 2000 1000) = true
  ∧ (judge examples.speedTol examples.recordTol (factor_of 500 1000) = Regressed →
     judge examples.speedTol examples.recordTol (factor_of 2000 1000) = Regressed)
  ∧ (judge examples.speedTol examples.recordTol (factor_of 2000 1000) = Improved →
     judge examples.speedTol examples.recordTol (factor_of 500 1000) = Improved).
Proof.
  apply (factor_monotone 1000 500 2000 examples.speedTol examples.recordTol); done.
Defined.
(** * Further properties *)

(** ** Splitting and joining *)

Lemma contains_cons s c x : contains (String c s) x ↔ x = c ∨ contains s x.
Proof. unfold contains. simpl. apply elem_of_cons. Qed.

Lemma contains_nil x : ¬ contains EmptyString x.
Proof. unfold contains. simpl. apply not_elem_of_nil. Qed.

Lemma contains_app s1 s2 x : contains (s1 +:+ s2) x ↔ contains s1 x ∨ contains s2 x.
Proof.
  induction s1 as [|c s1 IH].
  - rewrite append_nil_l. split; [by right|]. intros [H|H]; [|done].
    by apply contains_nil in H.
  - rewrite append_cons, !contains_cons, IH. tauto.
Qed.

Lemma append_nil_r (s : string) : s +:+ EmptyString = s.
Proof. induction s as [|c s IH]; [done|]. by rewrite append_cons, IH. Qed.

Lemma length_append (s1 s2 : string) :
  String.length (s1 +:+ s2) = (String.length s1 + String.length s2)%nat.
Proof. induction s1 as [|c s1 IH]; [done|]. rewrite append_cons. simpl. by rewrite IH. Qed.

Lemma Join_cons w w' ws sep :
  strings.Join (w :: w' :: ws) sep = w +:+ sep +:+ strings.Join (w' :: ws) sep.
Proof. done. Qed.

Lemma Join_Split s c : strings.Join (strings.Split s c) (String c EmptyString) = s.
Proof.
  induction s as [|a s IH]; [done|].
  cbn [strings.Split]. destruct (decide (a = c)) as [->|Hne].
  - destruct (strings.Split s c) as [|w ws] eqn:E; [by apply Split_nonempty in E|].
    rewrite Join_cons, IH. by rewrite append_nil_l, append_cons, append_nil_l.
  - destruct (strings.Split s c) as [|w ws] eqn:E; [by apply Split_nonempty in E|].
    destruct ws as [|w' ws].
    + simpl in *. by rewrite IH.
    + rewrite Join_cons, append_cons. rewrite Join_cons in IH. by rewrite IH.
Qed.

Lemma Split_no_sep w c : ¬ contains w c → strings.Split w c = [w].
Proof.
  induction w as [|a w IH]; [done|]. intros Hn. cbn [strings.Split].
  destruct (decide (a = c)) as [->|Hne].
  - exfalso. apply Hn, contains_cons. by left.
  - rewrite IH; [done|]. intros H. apply Hn, contains_cons. by right.
Qed.

Lemma Split_Join l c :
  l ≠ [] → (∀ w, w ∈ l → ¬ contains w c) →
  strings.Split (strings.Join l (String c EmptyString)) c = l.
Proof.
  induction l as [|w l IH]; [done|]. intros _ Hl.
  destruct l as [|w' l].
  - simpl. apply Split_no_sep, Hl. by left.
  - rewrite Join_cons, append_cons, append_nil_l, Split_app.
    rewrite Split_no_sep by (apply Hl; by left).
    rewrite IH; [done|done|]. intros x Hx. apply Hl. by right.
Qed.

(** The pieces of a split hold no separator, and no byte that the string
    does not hold. *)
Lemma Split_pieces s c w :
  w ∈ strings.Split s c → ¬ contains w c ∧ ∀ x, contains w x → contains s x.
Proof.
  revert w. induction s as [|a s IH]; intros w.
  - simpl. intros ->%list_elem_of_singleton. split; [apply contains_nil|done].
  - cbn [strings.Split]. destruct (decide (a = c)) as [->|Hne].
    + intros [->|Hin]%elem_of_cons.
      * split; [apply contains_nil|]. intros x Hx. by apply contains_nil in Hx.
      * destruct (IH w Hin) as [H1 H2]. split; [done|].
        intros x Hx. apply contains_cons. right. by apply H2.
    + destruct (strings.Split s c) as [|v vs] eqn:E; [by apply Split_nonempty in E|].
      intros [->|Hin]%elem_of_cons.
      * destruct (IH v) as [H1 H2]; [by left|]. split.
        -- intros [?|?]%contains_cons; [by subst|done].
        -- intros x [->|Hx]%contains_cons; apply contains_cons; [by left|].
           right. by apply H2.
      * destruct (IH w) as [H1 H2]; [by right|]. split; [done|].
        intros x Hx. apply contains_cons. right. by apply H2.
Qed.

(** ** Paths: [getPieces], [reform], [convertPath] and [findGosrc] *)

(** X1. Joining the pieces of a path gives the path back, on both builds. *)
Theorem reform_getPieces (path : string) :
  reform (getPieces path) = path
  ∧ windows.reform (windows.getPieces path) = path.
Proof. split; apply Join_Split. Qed.

(** X2. Pieces that hold no slash (and there is at least one piece) are
    what [getPieces] finds in the path [reform] makes of them. *)
Theorem getPieces_reform (pieces : list string) :
  pieces ≠ [] → (∀ p, p ∈ pieces → ¬ contains p "/") →
  getPieces (reform pieces) = pieces.
Proof. apply Split_Join. Qed.

Lemma getPieces_reform_witness :
  getPieces (reform ["go"; "src"; "pkg"]) = ["go"; "src"; "pkg"].
Proof.
  apply getPieces_reform; [done|].
  intros p Hp. unfold contains.
  repeat (apply elem_of_cons in Hp as [->|Hp]; [by apply (bool_decide_unpack _)|]).
  by apply elem_of_nil in Hp.
Defined.

Lemma occurs_at_bound s substr i :
  occurs_at s substr i → (i + String.length substr ≤ String.length s)%nat.
Proof. intros (pre & post & -> & <-). rewrite !length_append. lia. Qed.

(** A path that ends with [sep] and [path] has its last occurrence of
    [path] there. *)
Lemma LastIndex_suffix root sep path :
  strings.LastIndex (root +:+ String sep path) path = Z.of_nat (S (String.length root)).
Proof.
  assert (Hocc : last_occurrence (root +:+ String sep path) path (S (String.length root))).
  { split.
    - exists (root +:+ String sep EmptyString), EmptyString. split.
      + by rewrite append_nil_r, append_assoc, append_cons, append_nil_l.
      + rewrite length_append. simpl. lia.
    - intros j Hj%occurs_at_bound. rewrite length_append in Hj. simpl in Hj. lia. }
  destruct (LastIndex_spec (root +:+ String sep path) path) as [[_ Hno]|[Hge Hlast]].
  - destruct Hocc as [Hocc _]. by apply Hno in Hocc.
  - pose proof (last_occurrence_unique _ _ _ _ Hocc Hlast). lia.
Qed.

Lemma slice_root root sep path :
  root ≠ EmptyString →
  (let index := Z.of_nat (S (String.length root)) in
   if decide (index ≤ 1) then EmptyString
   else strings.slice_to (root +:+ String sep path) (Z.to_nat (index - 1))) = root.
Proof.
  intros Hroot. cbv zeta.
  assert (0 < String.length root)%nat by (destruct root; [done|simpl; lia]).
  rewrite decide_False by lia.
  replace (Z.to_nat (Z.of_nat (S (String.length root)) - 1)) with (String.length root) by lia.
  apply slice_to_prefix.
Qed.

(** X3. Run in the directory of the package, [findGosrc] finds the
    directory the package path starts from: the path that [reform] makes of
    it and the package leads back to the working directory. *)
Theorem findGosrc_reform (root pkgName : string) :
  root ≠ EmptyString →
  findGosrc (reform [root; pkgName]) pkgName = root
  ∧ reform [findGosrc (reform [root; pkgName]) pkgName; pkgName] = reform [root; pkgName].
Proof.
  intros Hroot.
  assert (findGosrc (reform [root; pkgName]) pkgName = root) as ->; [|done].
  unfold findGosrc, reform, convertPath. rewrite Join_cons. cbn [strings.Join].
  rewrite append_cons, append_nil_l, LastIndex_suffix.
  by apply (slice_root root "/" pkgName).
Qed.

Lemma findGosrc_reform_witness :
  findGosrc (reform ["/go/src"; "example.com/pkg"]) "example.com/pkg" = "/go/src"
  ∧ reform [findGosrc (reform ["/go/src"; "example.com/pkg"]) "example.com/pkg";
            "example.com/pkg"]
    = reform ["/go/src"; "example.com/pkg"].
Proof. apply findGosrc_reform. discriminate. Defined.

(** ** The build for Windows *)

Lemma Join_cons_head a w ws sep :
  strings.Join (String a w :: ws) sep = String a (strings.Join (w :: ws) sep).
Proof. destruct ws; [done|]. by rewrite !Join_cons, append_cons. Qed.

Lemma Replace_pieces p old new :
  windows.Replace p old new
  = strings.Join (strings.Split p old) (String new EmptyString).
Proof.
  induction p as [|a p IH]; [done|].
  cbn [windows.Replace strings.Split]. rewrite IH.
  destruct (decide (a = old)) as [->|Hne].
  - destruct (strings.Split p old) as [|w ws] eqn:E; [by apply Split_nonempty in E|].
    by rewrite Join_cons, append_nil_l, append_cons, append_nil_l.
  - destruct (strings.Split p old) as [|w ws] eqn:E; [by apply Split_nonempty in E|].
    by rewrite Join_cons_head.
Qed.

Lemma Replace_length p old new :
  String.length (windows.Replace p old new) = String.length p.
Proof. induction p as [|a p IH]; [done|]. simpl. by rewrite IH. Qed.

Lemma Replace_contains p old new x :
  contains (windows.Replace p old new) x
  ↔ (x = new ∧ contains p old) ∨ (x ≠ old ∧ contains p x).
Proof.
  induction p as [|a p IH].
  - simpl. split; [by intros ?%contains_nil|].
    intros [[_ H]|[_ H]]; by apply contains_nil in H.
  - cbn [windows.Replace]. rewrite !contains_cons, IH.
    destruct (decide (a = old)) as [->|Hne].
    + split.
      * intros [->|[[-> H]|[Hx H]]]; [left|left|right]; split; auto.
      * intros [[-> _]|[Hx [->|H]]]; [by left|done|right; right; by split].
    + split.
      * intros [->|[[-> H]|[Hx H]]]; [right|left|right]; split; auto.
      * intros [[-> [E|H]]|[Hx [->|H]]]; [by subst|right; left; by split|by left|].
        right; right; by split.
Qed.

Lemma Replace_absent p old new : ¬ contains p old → windows.Replace p old new = p.
Proof.
  induction p as [|a p IH]; [done|]. intros Hn. cbn [windows.Replace].
  rewrite decide_False.
  - rewrite IH; [done|]. intros H. apply Hn, contains_cons. by right.
  - intros ->. apply Hn, contains_cons. by left.
Qed.

(** X4. On Windows [convertPath] turns the slash-separated pieces of the
    package path into a backslash-separated path of the same length that
    holds no slash; a path without a slash is the same on both builds. *)
Theorem windows_convertPath_pieces (pathFromTest : string) :
  windows.convertPath pathFromTest = windows.reform (getPieces pathFromTest)
  ∧ String.length (windows.convertPath pathFromTest) = String.length pathFromTest
  ∧ ¬ contains (windows.convertPath pathFromTest) "/"
  ∧ (¬ contains pathFromTest "/" →
       windows.convertPath pathFromTest = convertPath pathFromTest).
Proof.
  unfold windows.convertPath, windows.reform, getPieces, convertPath.
  split; [apply Replace_pieces|]. split; [apply Replace_length|split].
  - intros [[H _]|[H _]]%Replace_contains; [discriminate|done].
  - apply Replace_absent.
Qed.

(** X5. On Windows too: with the working directory written with
    backslashes, [findGosrc] finds the directory the package path starts
    from. *)
Theorem windows_findGosrc_reform (root pkgName : string) :
  root ≠ EmptyString →
  windows.findGosrc (windows.reform (root :: getPieces pkgName)) pkgName = root.
Proof.
  intros Hroot. unfold windows.findGosrc, windows.reform, getPieces.
  destruct (strings.Split pkgName "/") as [|w ws] eqn:E; [by apply Split_nonempty in E|].
  rewrite Join_cons, <- E. fold (windows.reform (strings.Split pkgName "/")).
  unfold windows.reform, windows.convertPath. rewrite <- Replace_pieces.
  rewrite append_cons, append_nil_l, LastIndex_suffix.
  by apply (slice_root root windows.bs).
Qed.

Lemma windows_findGosrc_reform_witness :
  windows.findGosrc (windows.reform ("C:" :: getPieces "example.com/pkg")) "example.com/pkg"
  = "C:".
Proof. apply windows_findGosrc_reform. discriminate. Defined.

(** ** [compare]: the remaining branches *)

Lemma missing_nonempty r (M C : gmap string Z) :
  filter (is_missing C) (range r M) ≠ [] ↔ ∃ k v, M !! k = Some v ∧ C !! k = None.
Proof.
  split.
  - intros Hne. destruct (filter (is_missing C) (range r M)) as [|[k v] l] eqn:E; [done|].
    assert ((k, v) ∈ filter (is_missing C) (range r M)) as Hin by (rewrite E; by left).
    apply list_elem_of_filter in Hin as [Hm Hin]. apply elem_of_range in Hin.
    by exists k, v.
  - intros (k & v & HM & HC) Hnil.
    assert ((k, v) ∈ filter (is_missing C) (range r M)) as Hin.
    { apply list_elem_of_filter. split; [done|]. by apply elem_of_range. }
    rewrite Hnil in Hin. by apply elem_of_nil in Hin.
Qed.

Lemma lookup_new_baseline speedTol recordTol (B C : gmap string Z) k :
  new_baseline speedTol recordTol B C !! k
  = match C !! k with
    | None => B !! k
    | Some c => Some (best_of speedTol recordTol (B !! k) c)
    end.
Proof. unfold new_baseline. rewrite lookup_merge. by destruct (B !! k), (C !! k). Qed.

Lemma best_of_idem speedTol recordTol o c :
  best_of speedTol recordTol (Some (best_of speedTol recordTol o c)) c
  = best_of speedTol recordTol o c.
Proof.
  destruct o as [b|]; simpl.
  - destruct (judge speedTol recordTol (factor_of c b)) eqn:Hj; simpl;
      try rewrite Hj; try done.
    by destruct (judge speedTol recordTol (factor_of c c)).
  - by destruct (judge speedTol recordTol (factor_of c c)).
Qed.

Lemma new_baseline_idem speedTol recordTol (B C : gmap string Z) :
  new_baseline speedTol recordTol (new_baseline speedTol recordTol B C) C
  = new_baseline speedTol recordTol B C.
Proof.
  apply map_eq. intros k. rewrite !lookup_new_baseline.
  destruct (C !! k) as [c|]; [|done]. by rewrite best_of_idem.
Qed.

Lemma new_baseline_self speedTol recordTol (B : gmap string Z) :
  new_baseline speedTol recordTol B B = B.
Proof.
  apply map_eq. intros k. rewrite lookup_new_baseline.
  destruct (B !! k) as [b|]; [|done]. simpl.
  by destruct (judge speedTol recordTol (factor_of b b)).
Qed.

(** The messages of the second loop about [name] come from the entry of
    [name]. *)
Lemma speed_logs_name speedTol recordTol (B : gmap string Z) kv m :
  m ∈ speed_logs speedTol recordTol B kv →
  m = LogNew kv.1 ∨ (∃ f, m = LogSlower kv.1 f) ∨ (∃ f, m = LogRecord kv.1 f).
Proof.
  unfold speed_logs. destruct (B !! kv.1) as [o|].
  - destruct (judge speedTol recordTol (factor_of kv.2 o)).
    + by intros ?%elem_of_nil.
    + by intros ?%elem_of_nil.
    + intros ->%list_elem_of_singleton. right. left. eauto.
    + intros ->%list_elem_of_singleton. right. right. eauto.
    + by intros ?%elem_of_nil.
  - intros ->%list_elem_of_singleton. by left.
Qed.

(** X6. With a best map, the map [compare] returns as the new best holds,
    key by key: the old value of a key the run lacks; the new value of a
    key the best map lacked; and for a key of both, the new value when the
    benchmark is Improved and the old value otherwise. *)
Theorem compare_best_pointwise (rOld rNew : ranger) (h : heap)
    (old benches : loc) (pkgPath : string) (speedTol recordTol : float64)
    (name : string) :
  let B := deref h old in
  let C := deref h benches in
  let r := compare rOld rNew h (Some old) benches pkgPath speedTol recordTol in
  res_best r !! name
  = match C !! name, B !! name with
    | None, o => o
    | Some c, None => Some c
    | Some c, Some b =>
        Some (match judge speedTol recordTol (factor_of c b) with
              | Improved => c
              | _ => b
              end)
    end.
Proof.
  intros B C r.
  destruct (compare_present rOld rNew h benches pkgPath speedTol recordTol old)
    as (Hbest & _ & _ & _ & Hd & _).
  fold r B C in Hbest, Hd. unfold res_best. rewrite Hbest, Hd, lookup_new_baseline.
  by destruct (C !! name), (B !! name).
Qed.

Lemma slow_flag_iff (r : ranger) speedTol recordTol (B C : gmap string Z) :
  existsb (speed_slow speedTol recordTol B) (range r C) = true
  ↔ ∃ name b c, B !! name = Some b ∧ C !! name = Some c
                ∧ f64.gt (factor_of c b) speedTol = true.
Proof.
  rewrite existsb_exists. split.
  - intros ([name c] & Hin%list_elem_of_In%elem_of_range & Hs).
    unfold speed_slow in Hs. simpl in Hs.
    destruct (B !! name) as [b|] eqn:Hb; [|done].
    exists name, b, c. split; [done|]. split; [done|].
    unfold judge in Hs. by destruct (f64.gt (factor_of c b) speedTol);
      [|destruct (f64.lt (factor_of c b) recordTol)].
  - intros (name & b & c & Hb & Hc & Hgt). exists (name, c). split.
    + by apply list_elem_of_In, elem_of_range.
    + unfold speed_slow, judge. simpl. by rewrite Hb, Hgt.
Qed.

(** X7. The two flags, exactly: [missing] is raised when and only when
    some key of the best map is not in the run, and [tooSlow] when and only
    when some benchmark of both has a factor above [speedTol]. *)
Theorem compare_flags_exact (rOld rNew : ranger) (h : heap)
    (old benches : loc) (pkgPath : string) (speedTol recordTol : float64) :
  let B := deref h old in
  let C := deref h benches in
  let r := compare rOld rNew h (Some old) benches pkgPath speedTol recordTol in
  (res_missing r = true ↔ ∃ key b, B !! key = Some b ∧ C !! key = None)
  ∧ (res_tooSlow r = true
     ↔ ∃ name b c, B !! name = Some b ∧ C !! name = Some c
                   ∧ f64.gt (factor_of c b) speedTol = true).
Proof.
  intros B C r.
  destruct (compare_present rOld rNew h benches pkgPath speedTol recordTol old)
    as (_ & _ & Hmiss & Hslow & _).
  fold r B C in Hmiss, Hslow. rewrite Hmiss, Hslow. split.
  - rewrite bool_decide_eq_true. apply missing_nonempty.
  - apply slow_flag_iff.
Qed.

(** X8. A benchmark of the run that the best map lacks is New: it gets the
    row with MISSING as its best speed and the "new benchmark" message, and
    the new best map records its timing. *)
Theorem compare_new_recorded (rOld rNew : ranger) (h : heap)
    (old benches : loc) (pkgPath : string) (speedTol recordTol : float64)
    (name : string) (c : Z) :
  deref h old !! name = None → deref h benches !! name = Some c →
  let r := compare rOld rNew h (Some old) benches pkgPath speedTol recordTol in
  RowNew name c ∈ res_rows r
  ∧ classified r name New
  ∧ LogNew name ∈ res_log r
  ∧ res_best r !! name = Some c.
Proof.
  intros Hb Hc r.
  destruct (compare_present rOld rNew h benches pkgPath speedTol recordTol old)
    as (Hbest & Hrows & _ & _ & Hd & _ & _ & log1 & Hlog & _).
  fold r in Hbest, Hrows, Hd, Hlog.
  assert (Hin : (name, c) ∈ range rNew (deref h benches)) by by apply elem_of_range.
  assert (Hrow : RowNew name c ∈ res_rows r).
  { rewrite Hrows. apply elem_of_app. right.
    apply (list_elem_of_fmap_2' _ _ (name, c)); [done|].
    unfold speed_row. simpl. by rewrite Hb. }
  split; [done|]. split; [exists c; by left|]. split.
  - rewrite Hlog. apply elem_of_app. right. apply elem_of_cons. right.
    apply list_elem_of_bind. exists (name, c). split; [|done].
    unfold speed_logs. simpl. rewrite Hb. by left.
  - unfold res_best. by rewrite Hbest, Hd, lookup_new_baseline, Hc, Hb.
Qed.

Lemma compare_new_recorded_witness :
  let r := compare in_order in_order
             {[ 1%positive := {[ "X" := 500 ]}; 2%positive := {[ "X" := 500; "Y" := 7 ]} ]}
             (Some 1%positive) 2%positive "pkg" examples.speedTol examples.recordTol in
  RowNew "Y" 7 ∈ res_rows r
  ∧ classified r "Y" New
  ∧ LogNew "Y" ∈ res_log r
  ∧ res_best r !! "Y" = Some 7.
Proof.
  apply (compare_new_recorded in_order in_order
           {[ 1%positive := {[ "X" := 500 ]}; 2%positive := {[ "X" := 500; "Y" := 7 ]} ]}
           1%positive 2%positive "pkg" examples.speedTol examples.recordTol "Y" 7);
    reflexivity.
Defined.

(** The part of the log that is about the benchmarks of both maps. *)
Lemma compare_log_of_name (rNew : ranger) speedTol recordTol (B C : gmap string Z)
    (log1 : list logmsg) name b c m :
  (∀ m, m ∈ log1 → m = LogMissingHeader ∨ ∃ key, m = LogMissingKey key) →
  B !! name = Some b → C !! name = Some c →
  (m = LogNew name ∨ (∃ f, m = LogSlower name f) ∨ (∃ f, m = LogRecord name f)) →
  m ∈ log1 ++ LogLn :: (range rNew C ≫= speed_logs speedTol recordTol B) →
  m ∈ speed_logs speedTol recordTol B (name, c).
Proof.
  intros Hlog1 Hb Hc Hm [Hin|Hin]%elem_of_app.
  { apply Hlog1 in Hin as [->|[key ->]]; destruct Hm as [?|[[? ?]|[? ?]]]; done. }
  apply elem_of_cons in Hin as [->|Hin].
  { destruct Hm as [?|[[? ?]|[? ?]]]; done. }
  apply list_elem_of_bind in Hin as ([k v] & Hin & Hkv).
  assert (k = name) as ->.
  { apply speed_logs_name in Hin. simpl in Hin.
    destruct Hm as [->|[[f ->]|[f ->]]], Hin as [?|[[? ?]|[? ?]]]; congruence. }
  apply elem_of_range in Hkv. by replace c with v by congruence.
Qed.

(** X9. A benchmark of both maps whose factor is not above [speedTol] and
    is below [recordTol] is Improved: the new best map adopts its new
    timing, with the "new record" message and no other. *)
Theorem compare_improved_adopts (rOld rNew : ranger) (h : heap)
    (old benches : loc) (pkgPath : string) (speedTol recordTol : float64)
    (name : string) (b c : Z) :
  deref h old !! name = Some b → deref h benches !! name = Some c →
  f64.gt (factor_of c b) speedTol = false →
  f64.lt (factor_of c b) recordTol = true →
  let r := compare rOld rNew h (Some old) benches pkgPath speedTol recordTol in
  classified r name Improved
  ∧ (∀ f, LogSlower name f ∉ res_log r)
  ∧ res_best r !! name = Some c.
Proof.
  intros Hb Hc Hgt Hlt r.
  destruct (compare_present rOld rNew h benches pkgPath speedTol recordTol old)
    as (Hbest & Hrows & _ & _ & Hd & _ & _ & log1 & Hlog & Hlog1 & _).
  fold r in Hbest, Hrows, Hd, Hlog.
  assert (Hin : (name, c) ∈ range rNew (deref h benches)) by by apply elem_of_range.
  assert (Hj : judge speedTol recordTol (factor_of c b) = Improved).
  { unfold judge. by rewrite Hgt, Hlt. }
  assert (Hlogs : speed_logs speedTol recordTol (deref h old) (name, c)
                  = [LogRecord name (factor_of c b)]).
  { unfold speed_logs. simpl. by rewrite Hb, Hj. }
  split; [|split].
  - exists c, b, (factor_of c b). split.
    + rewrite Hrows. apply elem_of_app. right.
      apply (list_elem_of_fmap_2' _ _ (name, c)); [done|].
      unfold speed_row. simpl. by rewrite Hb.
    + rewrite Hlog. apply elem_of_app. right. apply elem_of_cons. right.
      apply list_elem_of_bind. exists (name, c). split; [|done].
      rewrite Hlogs. by left.
  - intros f Hf. rewrite Hlog in Hf.
    eapply compare_log_of_name in Hf; [|done|done|done|right; left; eauto].
    rewrite Hlogs in Hf. by apply list_elem_of_singleton in Hf.
  - unfold res_best. rewrite Hbest, Hd, lookup_new_baseline, Hc, Hb. simpl.
    by rewrite Hj.
Qed.

Lemma compare_improved_adopts_witness :
  let r := compare reversed in_order examples.improvement (Some 1%positive) 2%positive
             "pkg" examples.speedTol examples.recordTol in
  classified r "X" Improved
  ∧ (∀ f, LogSlower "X" f ∉ res_log r)
  ∧ res_best r !! "X" = Some 500.
Proof.
  apply (compare_improved_adopts reversed in_order examples.improvement
           1%positive 2%positive "pkg" examples.speedTol examples.recordTol
           "X" 1000 500); reflexivity.
Defined.

(** X10. A benchmark of both maps whose factor is neither above [speedTol]
    nor below [recordTol] is Unchanged: it has its row, no message, and the
    new best map keeps the old timing. *)
Theorem compare_unchanged_keeps (rOld rNew : ranger) (h : heap)
    (old benches : loc) (pkgPath : string) (speedTol recordTol : float64)
    (name : string) (b c : Z) :
  deref h old !! name = Some b → deref h benches !! name = Some c →
  f64.gt (factor_of c b) speedTol = false →
  f64.lt (factor_of c b) recordTol = false →
  let r := compare rOld rNew h (Some old) benches pkgPath speedTol recordTol in
  classified r name Unchanged
  ∧ res_best r !! name = Some b.
Proof.
  intros Hb Hc Hgt Hlt r.
  destruct (compare_present rOld rNew h benches pkgPath speedTol recordTol old)
    as (Hbest & Hrows & _ & _ & Hd & _ & _ & log1 & Hlog & Hlog1 & _).
  fold r in Hbest, Hrows, Hd, Hlog.
  assert (Hin : (name, c) ∈ range rNew (deref h benches)) by by apply elem_of_range.
  assert (Hj : judge speedTol recordTol (factor_of c b) = Unchanged).
  { unfold judge. by rewrite Hgt, Hlt. }
  assert (Hlogs : speed_logs speedTol recordTol (deref h old) (name, c) = []).
  { unfold speed_logs. simpl. by rewrite Hb, Hj. }
  split.
  - exists c, b, (factor_of c b). split; [|split].
    + rewrite Hrows. apply elem_of_app. right.
      apply (list_elem_of_fmap_2' _ _ (name, c)); [done|].
      unfold speed_row. simpl. by rewrite Hb.
    + intros f Hf. rewrite Hlog in Hf.
      eapply compare_log_of_name in Hf; [|done|done|done|right; left; eauto].
      rewrite Hlogs in Hf. by apply elem_of_nil in Hf.
    + intros f Hf. rewrite Hlog in Hf.
      eapply compare_log_of_name in Hf; [|done|done|done|right; right; eauto].
      rewrite Hlogs in Hf. by apply elem_of_nil in Hf.
  - unfold res_best. rewrite Hbest, Hd, lookup_new_baseline, Hc, Hb. simpl.
    by rewrite Hj.
Qed.

Lemma compare_unchanged_keeps_witness :
  let r := compare reversed in_order examples.improvement (Some 1%positive) 2%positive
             "pkg" examples.speedTol examples.recordTol in
  classified r "Y" Unchanged ∧ res_best r !! "Y" = Some 10000.
Proof.
  apply (compare_unchanged_keeps reversed in_order examples.improvement
           1%positive 2%positive "pkg" examples.speedTol examples.recordTol
           "Y" 10000 10000); reflexivity.
Defined.

(** X11. Comparing the same run a second time, against the best map the
    first comparison left, changes no map, whatever the tolerances and the
    iteration orders; the [missing] flag is raised again exactly when it was
    raised the first time. *)
Theorem compare_rerun_stable (rOld rNew rOld' rNew' : ranger) (h : heap)
    (old benches : loc) (pkgPath : string) (speedTol recordTol : float64) :
  is_Some (h !! old) →
  let r := compare rOld rNew h (Some old) benches pkgPath speedTol recordTol in
  let r' := compare rOld' rNew' (res_heap r) (Some old) benches pkgPath
              speedTol recordTol in
  res_heap r' = res_heap r
  ∧ res_bestBenches r' = res_bestBenches r
  ∧ res_missing r' = res_missing r.
Proof.
  intros Hold r r'.
  destruct (compare_present rOld rNew h benches pkgPath speedTol recordTol old)
    as (Hbest & _ & Hmiss & _ & Hd & Hf & Hsome & _).
  destruct (compare_present rOld' rNew' (res_heap r) benches pkgPath speedTol recordTol old)
    as (Hbest' & _ & Hmiss' & _ & Hd' & Hf' & Hsome' & _).
  fold r in Hbest, Hmiss, Hd, Hf, Hsome, Hbest', Hmiss', Hd', Hf', Hsome'.
  fold r' in Hbest', Hmiss', Hd', Hf', Hsome'.
  set (B := deref h old) in *. set (C := deref h benches) in *.
  assert (HC : deref (res_heap r) benches = C).
  { destruct (decide (benches = old)) as [->|Hne].
    - rewrite Hd. subst B C. apply new_baseline_self.
    - unfold deref. by rewrite Hf. }
  rewrite HC in Hd', Hmiss'. rewrite Hd in Hd', Hmiss'.
  rewrite new_baseline_idem in Hd'.
  split; [|split].
  - apply map_eq. intros l. destruct (decide (l = old)) as [->|Hne]; [|by apply Hf'].
    destruct (Hsome Hold) as [M HM]. destruct (Hsome' (Hsome Hold)) as [M' HM'].
    unfold deref in Hd, Hd'. rewrite HM in Hd. rewrite HM' in Hd'. simpl in Hd, Hd'.
    rewrite HM, HM'. congruence.
  - congruence.
  - rewrite Hmiss, Hmiss'. apply bool_decide_ext. rewrite !missing_nonempty.
    split; intros (k & v & Hk & Hc); exists k, v; split; try done.
    + by rewrite lookup_new_baseline, Hc in Hk.
    + by rewrite lookup_new_baseline, Hc.
Qed.

Lemma compare_rerun_stable_witness :
  let r := compare in_order in_order examples.improvement (Some 1%positive) 2%positive
             "pkg" examples.speedTol examples.recordTol in
  let r' := compare reversed reversed (res_heap r) (Some 1%positive) 2%positive "pkg"
              examples.speedTol examples.recordTol in
  res_heap r' = res_heap r
  ∧ res_bestBenches r' = res_bestBenches r
  ∧ res_missing r' = res_missing r.
Proof.
  apply (compare_rerun_stable in_order in_order reversed reversed examples.improvement
           1%positive 2%positive "pkg" examples.speedTol examples.recordTol).
  by eexists.
Defined.

(** X12. [compare] divides by the old timing without looking at it. With
    an old timing of 0 the factor of a positive new timing is +Inf, which is
    Regressed for every tolerance but NaN and +Inf; the factor of 0 against
    0 is NaN, which is Unchanged for every tolerance. *)
Theorem compare_zero_baseline (speedTol recordTol : float64) (c : Z) :
  0 < c < 2 ^ 64 →
  factor_of c 0 = S754_infinity false
  ∧ (judge speedTol recordTol (factor_of c 0) = Regressed
     ↔ speedTol ≠ S754_nan ∧ speedTol ≠ S754_infinity false)
  ∧ factor_of 0 0 = S754_nan
  ∧ judge speedTol recordTol (factor_of 0 0) = Unchanged.
Proof.
  intros Hc.
  destruct (of_int_mono c c) as (m & e & _ & _ & E & _); [lia..|].
  assert (Hf : factor_of c 0 = S754_infinity false).
  { unfold factor_of, f64.div. by rewrite E. }
  split; [done|]. rewrite Hf. split; [|split].
  - unfold judge, f64.gt, f64.lt.
    destruct speedTol as [[]|[]| |[] ms es]; simpl; split; try done;
      try (intros [? ?]; done); try (by destruct recordTol as [[]|[]| |[] ? ?]).
  - done.
  - by destruct speedTol as [[]|[]| |[] ms es], recordTol as [[]|[]| |[] mr er].
Qed.

Lemma compare_zero_baseline_witness :
  factor_of 1 0 = S754_infinity false
  ∧ (judge examples.speedTol examples.recordTol (factor_of 1 0) = Regressed
     ↔ examples.speedTol ≠ S754_nan ∧ examples.speedTol ≠ S754_infinity false)
  ∧ factor_of 0 0 = S754_nan
  ∧ judge examples.speedTol examples.recordTol (factor_of 0 0) = Unchanged.
Proof. apply (compare_zero_baseline examples.speedTol examples.recordTol 1). lia. Defined.

(** The names of the rows of the two loops. *)
Lemma row_name_missing l : row_name <$> (missing_row <$> l) = l.*1.
Proof. rewrite <- list_fmap_compose. by apply list_fmap_ext. Qed.

Lemma row_name_speed B l : row_name <$> (speed_row B <$> l) = l.*1.
Proof.
  rewrite <- list_fmap_compose. apply list_fmap_ext. intros _ [k v] _.
  unfold speed_row. simpl. by destruct (B !! k).
Qed.

Lemma row_name_nofile l : row_name <$> (nofile_row <$> l) = l.*1.
Proof. rewrite <- list_fmap_compose. by apply list_fmap_ext. Qed.

Lemma NoDup_fst_filter {A B} (P : A * B → Prop) `{!∀ x, Decision (P x)} (l : list (A * B)) :
  NoDup l.*1 → NoDup (filter P l).*1.
Proof.
  induction l as [|x l IH]; [done|]. rewrite fmap_cons, NoDup_cons. intros [Hx Hl].
  destruct (decide (P x)).
  - rewrite filter_cons_True by done. rewrite fmap_cons, NoDup_cons. split; [|auto].
    intros (y & Hy & Hin)%list_elem_of_fmap. apply list_elem_of_filter in Hin as [_ Hin].
    apply Hx, list_elem_of_fmap. eauto.
  - rewrite filter_cons_False by done. auto.
Qed.

(** X13. The report has exactly one row for every benchmark of the best
    map or of the run (with no best file: of the run), and no other row. *)
Theorem compare_one_row_each (rOld rNew : ranger) (h : heap)
    (oldBenches : option loc) (benches : loc) (pkgPath : string)
    (speedTol recordTol : float64) :
  let B := match oldBenches with Some old => deref h old | None => ∅ end in
  let C := deref h benches in
  let r := compare rOld rNew h oldBenches benches pkgPath speedTol recordTol in
  NoDup (row_name <$> res_rows r)
  ∧ (∀ name, name ∈ row_name <$> res_rows r ↔ name ∈ dom B ∪ dom C)
  ∧ length (res_rows r) = size (B ∪ C).
Proof.
  intros B C r.
  assert (Hnames : ∃ l, row_name <$> res_rows r = (filter (is_missing C) l).*1
                          ++ (range rNew C).*1
                        ∧ NoDup l.*1 ∧ ∀ k v, (k, v) ∈ l ↔ B !! k = Some v).
  { destruct oldBenches as [old|].
    - destruct (compare_present rOld rNew h benches pkgPath speedTol recordTol old)
        as (_ & Hrows & _).
      fold r C B in Hrows. exists (range rOld B). split; [|split].
      + by rewrite Hrows, fmap_app, row_name_missing, row_name_speed.
      + apply range_NoDup_fst.
      + intros k v. apply elem_of_range.
    - destruct (compare_absent rOld rNew h benches pkgPath speedTol recordTol)
        as (_ & Hrows & _).
      fold r C in Hrows. exists []. split; [|split].
      + by rewrite Hrows, row_name_nofile.
      + constructor.
      + intros k v. subst B. rewrite lookup_empty. split; [by intros ?%elem_of_nil|done]. }
  destruct Hnames as (l & Hnames & Hnd & Hl).
  assert (Hmem : ∀ name, name ∈ row_name <$> res_rows r ↔ name ∈ dom B ∪ dom C).
  { intros name. rewrite Hnames, elem_of_app, elem_of_union, !elem_of_dom. split.
    - intros [([k v] & -> & [_ Hin]%list_elem_of_filter)%list_elem_of_fmap
             |([k v] & -> & Hin%elem_of_range)%list_elem_of_fmap]; simpl.
      + left. apply Hl in Hin. eauto.
      + right. eauto.
    - intros [[v Hv]|[v Hv]].
      + destruct (C !! name) as [c|] eqn:Hc.
        * right. apply list_elem_of_fmap. exists (name, c). split; [done|].
          by apply elem_of_range.
        * left. apply list_elem_of_fmap. exists (name, v). split; [done|].
          apply list_elem_of_filter. split; [done|]. by apply Hl.
      + right. apply list_elem_of_fmap. exists (name, v). split; [done|].
        by apply elem_of_range. }
  assert (Hdup : NoDup (row_name <$> res_rows r)).
  { rewrite Hnames. apply NoDup_app. split; [|split].
    - by apply NoDup_fst_filter.
    - intros name ([k v] & -> & [Hm _]%list_elem_of_filter)%list_elem_of_fmap
                  ([k' v'] & Heq & Hin%elem_of_range)%list_elem_of_fmap.
      unfold is_missing in Hm. simpl in *. congruence.
    - apply range_NoDup_fst. }
  split; [done|]. split; [done|].
  rewrite <- (length_fmap row_name), <- size_dom, dom_union_L.
  rewrite <- (size_list_to_set (C := gset string) (row_name <$> res_rows r)) by done.
  f_equal. apply set_eq. intros name. rewrite elem_of_list_to_set. apply Hmem.
Qed.

(** ** [tabAlign]: the lines of the output *)

Lemma tabAlign_closed delta :
  tabAlign delta
  = Some (strings.Join (aligned_row (strings.Split delta "010") <$> strings.Split delta "010") nl).
Proof.
  unfold tabAlign. rewrite widen_rows_spec by done. cbn [mbind option_bind].
  rewrite !Z.max_r by lia.
  pose proof (align_rows_spec (strings.Split delta "010") (strings.Split delta "010") []
                (λ _ H, H)) as Ha.
  simpl in Ha. by rewrite Ha.
Qed.

Lemma contains_spaces n x : contains (spaces n) x → x = " "%char.
Proof.
  unfold spaces. induction n as [|n IH]; simpl.
  - by intros ?%contains_nil.
  - rewrite append_cons, append_nil_l. intros [?|?]%contains_cons; auto.
Qed.

Lemma spaces_length n : String.length (spaces n) = n.
Proof.
  unfold spaces. induction n as [|n IH]; [done|]. cbn [strings.repeat_nat].
  rewrite append_cons, append_nil_l. simpl. by rewrite IH.
Qed.

Lemma contains_pad rows i c x : contains (pad rows i c) x → contains c x ∨ x = " "%char.
Proof. unfold pad. intros [?|?%contains_spaces]%contains_app; auto. Qed.

(** An aligned row holds the bytes of the row, and spaces. *)
Lemma contains_aligned_row rows row x :
  contains (aligned_row rows row) x → contains row x ∨ x = " "%char.
Proof.
  unfold aligned_row.
  pose proof (λ w, Split_pieces row "009" w) as Hp. fold (fields row) in Hp.
  destruct (fields row) as [|c0 [|c1 [|c2 [|c3 [|? ?]]]]]; try by intros ?%contains_nil.
  assert (∀ w, w ∈ [c0; c1; c2; c3] → contains w x → contains row x) as Hw.
  { intros w Hin. by apply Hp. }
  intros [H|[H|[H|H]%contains_app]%contains_app]%contains_app.
  - apply contains_pad in H as [H|H]; [left|by right]. revert H. apply Hw; repeat constructor.
  - apply contains_pad in H as [H|H]; [left|by right]. revert H. apply Hw; repeat constructor.
  - apply contains_pad in H as [H|H]; [left|by right]. revert H. apply Hw; repeat constructor.
  - left. revert H. apply Hw; repeat constructor.
Qed.

(** The lines of the joined aligned rows are the aligned rows. *)
Lemma Split_aligned delta :
  let rows := strings.Split delta "010" in
  strings.Split (strings.Join (aligned_row rows <$> rows) nl) "010" = aligned_row rows <$> rows.
Proof.
  intros rows. apply Split_Join.
  - intros Hnil%fmap_nil_inv. by apply Split_nonempty in Hnil.
  - intros w (row & -> & Hrow)%list_elem_of_fmap Hc.
    apply contains_aligned_row in Hc as [Hc|Hc]; [|done].
    by apply (Split_pieces delta "010" row Hrow).
Qed.

(** X14. The output of [tabAlign] has as many lines as its input, and line
    [r] of the output is the aligned row [r] of the input (an empty line for
    a row that does not have four fields). *)
Theorem tabAlign_line_by_line (delta : string) :
  let rows := strings.Split delta "010" in
  ∃ out, tabAlign delta = Some out
         ∧ strings.Split out "010" = aligned_row rows <$> rows
         ∧ length (strings.Split out "010") = length rows.
Proof.
  intros rows. exists (strings.Join (aligned_row rows <$> rows) nl).
  split; [apply tabAlign_closed|].
  pose proof (Split_aligned delta) as Hs. cbv zeta in Hs. fold rows in Hs.
  rewrite Hs. split; [done|]. by rewrite length_fmap.
Qed.

Lemma slice_from_app (s1 s2 : string) : slice_from (s1 +:+ s2) (String.length s1) = s2.
Proof.
  unfold slice_from. induction s1 as [|c s1 IH].
  - rewrite append_nil_l. by destruct s2.
  - rewrite append_cons. simpl. apply IH.
Qed.

Lemma pad_length rows i c :
  (String.length c ≤ col_width rows i)%nat →
  String.length (pad rows i c) = (col_width rows i + 4)%nat.
Proof. intros. unfold pad. rewrite length_append, spaces_length. lia. Qed.

(** X15. The columns line up: in the output line of every row with four
    fields, field [k] starts at the same offset, the sum over the columns
    before it of the column's width and 4; between two fields there are
    only spaces, and the line ends with its last field. *)
Theorem tabAlign_columns_line_up (delta : string) (r : nat) (row : string) :
  let rows := strings.Split delta "010" in
  rows !! r = Some row → well_formed row →
  ∃ out line,
    tabAlign delta = Some out
    ∧ strings.Split out "010" !! r = Some line
    ∧ String.length line = (column_start rows 3 + field_width 3 row)%nat
    ∧ ∀ k, (k < 3)%nat →
        ∃ rest,
          slice_from line (column_start rows k)
          = (fields row !!! k)
            +:+ spaces (column_start rows (S k) - column_start rows k - field_width k row)
            +:+ rest
          ∧ slice_from line (column_start rows (S k)) = rest
          ∧ strings.HasPrefix rest (fields row !!! S k) = true.
Proof.
  intros rows Hr Hwf.
  pose proof (Split_aligned delta) as Hlines. cbv zeta in Hlines. fold rows in Hlines.
  exists (strings.Join (aligned_row rows <$> rows) nl), (aligned_row rows row).
  split; [apply tabAlign_closed|]. split.
  { by rewrite Hlines, list_lookup_fmap, Hr. }
  assert (Hrow : row ∈ rows) by by eapply list_elem_of_lookup_2.
  pose proof (col_width_le rows row 0 Hrow Hwf) as H0.
  pose proof (col_width_le rows row 1 Hrow Hwf) as H1.
  pose proof (col_width_le rows row 2 Hrow Hwf) as H2.
  destruct (well_formed_fields row Hwf) as (c0 & c1 & c2 & c3 & Hf).
  unfold field_width in *. unfold aligned_row. rewrite Hf in *.
  change ([c0; c1; c2; c3] !!! 0%nat) with c0 in *.
  change ([c0; c1; c2; c3] !!! 1%nat) with c1 in *.
  change ([c0; c1; c2; c3] !!! 2%nat) with c2 in *.
  change ([c0; c1; c2; c3] !!! 3%nat) with c3 in *.
  pose proof (pad_length rows 0 c0 H0) as L0.
  pose proof (pad_length rows 1 c1 H1) as L1.
  pose proof (pad_length rows 2 c2 H2) as L2.
  assert (S1 : column_start rows 1 = String.length (pad rows 0 c0)) by (simpl; lia).
  assert (S2 : column_start rows 2 = String.length (pad rows 0 c0 +:+ pad rows 1 c1)).
  { rewrite length_append. simpl. lia. }
  assert (S3 : column_start rows 3
               = String.length ((pad rows 0 c0 +:+ pad rows 1 c1) +:+ pad rows 2 c2)).
  { rewrite !length_append. simpl. lia. }
  split.
  { rewrite !length_append. simpl. lia. }
  assert (E1 : slice_from (pad rows 0 c0 +:+ pad rows 1 c1 +:+ pad rows 2 c2 +:+ c3)
                 (column_start rows 1) = pad rows 1 c1 +:+ pad rows 2 c2 +:+ c3).
  { rewrite S1. apply slice_from_app. }
  assert (E2 : slice_from (pad rows 0 c0 +:+ pad rows 1 c1 +:+ pad rows 2 c2 +:+ c3)
                 (column_start rows 2) = pad rows 2 c2 +:+ c3).
  { rewrite S2, <- append_assoc. apply slice_from_app. }
  assert (E3 : slice_from (pad rows 0 c0 +:+ pad rows 1 c1 +:+ pad rows 2 c2 +:+ c3)
                 (column_start rows 3) = c3).
  { rewrite S3, <- !append_assoc. apply slice_from_app. }
  intros k Hk.
  assert (k = 0 ∨ k = 1 ∨ k = 2)%nat as [-> | [-> | ->]] by lia.
  - exists (pad rows 1 c1 +:+ pad rows 2 c2 +:+ c3). split; [|split; [done|]].
    + change ([c0; c1; c2; c3] !!! 0%nat) with c0. unfold slice_from at 1. simpl.
      unfold pad at 1. rewrite append_assoc. repeat f_equal. lia.
    + change ([c0; c1; c2; c3] !!! 1%nat) with c1.
      apply HasPrefix_spec. unfold pad at 1. rewrite append_assoc. eauto.
  - exists (pad rows 2 c2 +:+ c3). split; [|split; [done|]].
    + change ([c0; c1; c2; c3] !!! 1%nat) with c1. rewrite E1.
      unfold pad at 1. rewrite append_assoc. repeat f_equal. simpl. lia.
    + change ([c0; c1; c2; c3] !!! 2%nat) with c2.
      apply HasPrefix_spec. unfold pad at 1. rewrite append_assoc. eauto.
  - exists c3. split; [|split; [done|]].
    + change ([c0; c1; c2; c3] !!! 2%nat) with c2. rewrite E2.
      unfold pad at 1. rewrite append_assoc. repeat f_equal. simpl. lia.
    + change ([c0; c1; c2; c3] !!! 3%nat) with c3.
      apply HasPrefix_spec. exists EmptyString. by rewrite append_nil_r.
Qed.

Lemma tabAlign_columns_line_up_witness :
  let row := "eeee" +:+ tab +:+ "f" +:+ tab +:+ "g" +:+ tab +:+ "h" in
  let rows := strings.Split examples_text.report "010" in
  ∃ out line,
    tabAlign examples_text.report = Some out
    ∧ strings.Split out "010" !! 2%nat = Some line
    ∧ String.length line = (column_start rows 3 + field_width 3 row)%nat
    ∧ ∀ k, (k < 3)%nat →
        ∃ rest,
          slice_from line (column_start rows k)
          = (fields row !!! k)
            +:+ spaces (column_start rows (S k) - column_start rows k - field_width k row)
            +:+ rest
          ∧ slice_from line (column_start rows (S k)) = rest
          ∧ strings.HasPrefix rest (fields row !!! S k) = true.
Proof. apply (tabAlign_columns_line_up examples_text.report 2); reflexivity. Defined.


(** ** The parser: errors, packages and the values it records *)

Lemma parse_lines_error st lines e :
  parse_lines st lines = inl e →
  e = ErrConvert ∧ ∃ line, line ∈ lines ∧ bad_timing line.
Proof.
  revert st. induction lines as [|line lines IH]; intros st; simpl; [done|].
  destruct (parse_step st line) as [e'|st1] eqn:Hs.
  - intros [= <-]. apply parse_step_error in Hs as [-> Hbad].
    split; [done|]. exists line. split; [by left|done].
  - intros (-> & l & Hl & Hbad)%IH. split; [done|]. exists l. split; [by right|done].
Qed.

(** X16. The parser fails exactly when some line is a measurement whose
    timing is not an unsigned 64-bit integer, and then with the conversion
    error; otherwise it returns a record and no error. *)
Theorem parse_output_fails_iff (outstr : string) :
  (parse_output outstr = (None, Some ErrConvert)
   ↔ ∃ line, line ∈ strings.Split outstr "010" ∧ bad_timing line)
  ∧ (parse_output outstr = (None, Some ErrConvert)
     ∨ ∃ record, parse_output outstr = (Some record, None)).
Proof.
  unfold parse_output.
  destruct (parse_lines parse_init (strings.Split outstr "010")) as [e|st] eqn:Hp.
  - apply parse_lines_error in Hp as [-> Hbad]. simpl. split; [|by left].
    split; [done|]. done.
  - simpl. split; [|right; eauto]. split; [done|].
    intros (line & Hin & Hbad).
    by rewrite (parse_lines_bad _ _ _ Hin Hbad) in Hp.
Qed.

Lemma digit_range c v : strconv.digit c = Some v → 0 ≤ v ≤ 9.
Proof. unfold strconv.digit. case_decide; [|done]. intros [= <-]. lia. Qed.

Lemma digits_nonneg s acc v : 0 ≤ acc → strconv.digits s acc = Some v → 0 ≤ v.
Proof.
  revert acc. induction s as [|c s IH]; intros acc Hacc; simpl.
  - by intros [= <-].
  - destruct (strconv.digit c) as [d|] eqn:Hd; [|done]. simpl.
    apply digit_range in Hd. apply IH. lia.
Qed.

Lemma ParseUint_range s v : strconv.ParseUint s = Some v → 0 ≤ v < 2 ^ 64.
Proof.
  unfold strconv.ParseUint. case_decide; [done|].
  destruct (strconv.digits s 0) as [x|] eqn:Hx; [|done]. simpl.
  case_decide; [|done]. intros [= <-]. split; [|done].
  by apply (digits_nonneg s 0).
Qed.

Lemma parse_step_entries st line st' :
  parse_step st line = inr st' →
  map_Forall parsed_entry (ps_curr st) →
  map_Forall (λ _, map_Forall parsed_entry) (ps_record st) →
  map_Forall parsed_entry (ps_curr st')
  ∧ map_Forall (λ _, map_Forall parsed_entry) (ps_record st').
Proof.
  unfold parse_step.
  destruct (columns line) as [|r0 [|r1 [|r2 rest]]]; try by intros [= <-].
  case_decide; [by intros [= <-]|].
  destruct (strings.HasPrefix r0 "Benchmark") eqn:Hp.
  - destruct (strconv.ParseUint _) as [t|] eqn:Hu; [|done]. intros [= <-] Hc Hr.
    simpl. split; [|done]. apply map_Forall_insert_2; [|done].
    split; [done|]. by eapply ParseUint_range.
  - case_decide; intros [= <-] Hc Hr; [|done]. simpl. split.
    + apply map_Forall_empty.
    + by apply map_Forall_insert_2.
Qed.

Lemma parse_lines_entries st lines st' :
  parse_lines st lines = inr st' →
  map_Forall parsed_entry (ps_curr st) →
  map_Forall (λ _, map_Forall parsed_entry) (ps_record st) →
  map_Forall parsed_entry (ps_curr st')
  ∧ map_Forall (λ _, map_Forall parsed_entry) (ps_record st').
Proof.
  revert st. induction lines as [|line lines IH]; intros st; simpl.
  - by intros [= <-].
  - destruct (parse_step st line) as [e|st1] eqn:Hs; [done|].
    intros Hl Hc Hr. destruct (parse_step_entries _ _ _ Hs Hc Hr). by apply (IH st1).
Qed.

(** X17. Every benchmark of the record that the parser returns has a name
    that starts with [Benchmark] and a timing that fits 64 bits. *)
Theorem parse_output_entries (outstr : string)
    (record : gmap string (gmap string Z)) (pkg name : string) (m : gmap string Z) (t : Z) :
  parse_output outstr = (Some record, None) →
  record !! pkg = Some m → m !! name = Some t →
  strings.HasPrefix name "Benchmark" = true ∧ 0 ≤ t < 2 ^ 64.
Proof.
  unfold parse_output.
  destruct (parse_lines parse_init (strings.Split outstr "010")) as [e|st] eqn:Hp; [done|].
  simpl. intros [= <-] Hpkg Hname.
  destruct (parse_lines_entries _ _ _ Hp) as [_ Hr]; [apply map_Forall_empty..|].
  by apply (Hr pkg m Hpkg name t).
Qed.

Lemma parse_output_entries_witness :
  strings.HasPrefix "BenchmarkSleep" "Benchmark" = true ∧ 0 ≤ 1000123456 < 2 ^ 64.
Proof.
  apply (parse_output_entries examples_output.good
           {[ "example.com/pkg" := {[ "BenchmarkSleep" := 1000123456 ]} ]}
           "example.com/pkg" "BenchmarkSleep" {[ "BenchmarkSleep" := 1000123456 ]}
           1000123456); reflexivity.
Defined.

Lemma parse_step_skipped st line : is_skipped line → parse_step st line = inr st.
Proof.
  unfold is_skipped, is_measurement, is_flush, parse_step.
  destruct (columns line) as [|r0 [|r1 [|r2 rest]]]; try done.
  intros [Hm Hf]. case_decide; [done|].
  destruct (strings.HasPrefix r0 "Benchmark"); [done|]. by case_decide.
Qed.

(** X18. A line with fewer than three columns, or whose first column is
    [?], or neither starts with [Benchmark] nor is [ok], is skipped: the
    parser gives the same result without it, wherever it stands. *)
Theorem skipped_lines_ignored (st : parse_state) (l1 l2 : list string) (line : string) :
  (length (columns line) < 3)%nat
  ∨ (∃ r0, columns line !! 0%nat = Some r0
           ∧ (r0 = "?" ∨ strings.HasPrefix r0 "Benchmark" = false ∧ r0 ≠ "ok")) →
  is_skipped line
  ∧ parse_lines st (l1 ++ line :: l2) = parse_lines st (l1 ++ l2).
Proof.
  intros Hline.
  assert (Hskip : is_skipped line).
  { unfold is_skipped, is_measurement, is_flush.
    destruct (columns line) as [|r0 [|r1 [|r2 rest]]]; try (split; by intros []).
    destruct Hline as [Hlen|(r & [= <-] & [->|[Hp Hok]])].
    - simpl in Hlen. lia.
    - split; [|done]. simpl. discriminate.
    - split; [|done]. by rewrite Hp. }
  split; [done|]. rewrite !parse_lines_app.
  destruct (parse_lines st l1) as [e|st1]; [done|]. simpl.
  by rewrite parse_step_skipped.
Qed.

Lemma skipped_lines_ignored_witness :
  is_skipped "PASS"
  ∧ parse_lines parse_init ([] ++ "PASS" :: [examples_output.sleep_line; examples_output.ok_line])
    = parse_lines parse_init ([] ++ [examples_output.sleep_line; examples_output.ok_line]).
Proof. apply skipped_lines_ignored. left. vm_compute. lia. Defined.

Lemma parse_step_flush st line :
  is_flush line →
  ∃ pkg, flush_package line = Some pkg
         ∧ parse_step st line = inr (ParseState (<[pkg := ps_curr st]> (ps_record st)) ∅).
Proof.
  unfold is_flush, flush_package, parse_step.
  destruct (columns line) as [|r0 [|r1 [|r2 rest]]]; try done.
  intros ->. exists r1. split; [done|]. done.
Qed.

Lemma is_flush_dec line : is_flush line ∨ ¬ is_flush line.
Proof.
  unfold is_flush. destruct (columns line) as [|r0 [|r1 [|r2 rest]]]; try (right; tauto).
  destruct (decide (r0 = "ok")); [by left|by right].
Qed.

Lemma parse_lines_packages st lines st' pkg :
  parse_lines st lines = inr st' →
  is_Some (ps_record st' !! pkg)
  ↔ is_Some (ps_record st !! pkg)
    ∨ ∃ line, line ∈ lines ∧ is_flush line ∧ flush_package line = Some pkg.
Proof.
  revert st. induction lines as [|line lines IH]; intros st; simpl.
  - intros [= <-]. split; [by left|]. intros [?|(? & ?%elem_of_nil & _)]; done.
  - destruct (parse_step st line) as [e|st1] eqn:Hs; [done|]. intros Hl.
    rewrite (IH st1 Hl).
    assert (Hstep : is_Some (ps_record st1 !! pkg)
                    ↔ is_Some (ps_record st !! pkg)
                      ∨ is_flush line ∧ flush_package line = Some pkg).
    { destruct (is_flush_dec line) as [Hf|Hf].
      - destruct (parse_step_flush st line Hf) as (p & Hp & Hst).
        rewrite Hst in Hs. injection Hs as <-. simpl.
        rewrite lookup_insert_is_Some. split.
        + intros [->|[_ ?]]; [right|left]; done.
        + intros [?|[_ Hq]].
          * destruct (decide (p = pkg)); [by left|right; done].
          * left. congruence.
      - rewrite (parse_step_record _ _ _ Hf Hs). split; [by left|].
        intros [?|[? _]]; done. }
    rewrite Hstep. split.
    + intros [[?|[? ?]]|(l & Hin & Hf & Hp)].
      * by left.
      * right. exists line. split; [by left|done].
      * right. exists l. split; [by right|done].
    + intros [?|(l & [->|Hin]%elem_of_cons & Hf & Hp)].
      * left. by left.
      * left. by right.
      * right. eauto.
Qed.

(** X19. The packages of the record are exactly the second columns of the
    flush lines; the record is empty exactly when the output has no flush
    line. *)
Theorem parse_output_packages (outstr : string) (record : gmap string (gmap string Z)) :
  parse_output outstr = (Some record, None) →
  (∀ pkg, is_Some (record !! pkg)
          ↔ ∃ line, line ∈ strings.Split outstr "010" ∧ is_flush line
                    ∧ flush_package line = Some pkg)
  ∧ (record = ∅ ↔ ∀ line, line ∈ strings.Split outstr "010" → ¬ is_flush line).
Proof.
  unfold parse_output.
  destruct (parse_lines parse_init (strings.Split outstr "010")) as [e|st] eqn:Hp; [done|].
  simpl. intros [= <-].
  assert (Hpk : ∀ pkg, is_Some (ps_record st !! pkg)
                       ↔ ∃ line, line ∈ strings.Split outstr "010" ∧ is_flush line
                                 ∧ flush_package line = Some pkg).
  { intros pkg. rewrite (parse_lines_packages _ _ _ pkg Hp). simpl.
    rewrite lookup_empty. split; [|by right]. intros [[? ?]|?]; done. }
  split; [done|]. split.
  - intros Hempty line Hin Hf.
    destruct (parse_step_flush parse_init line Hf) as (pkg & Hpkg & _).
    assert (is_Some (ps_record st !! pkg)) as [m Hm] by (apply Hpk; eauto).
    by rewrite Hempty, lookup_empty in Hm.
  - intros Hno. apply map_empty. intros pkg.
    destruct (ps_record st !! pkg) as [m|] eqn:Hm; [|done].
    assert (is_Some (ps_record st !! pkg)) as (line & Hin & Hf & _)%Hpk by eauto.
    by apply Hno in Hf.
Qed.

Lemma parse_output_packages_witness :
  let record : gmap string (gmap string Z) :=
    {[ "example.com/pkg" := {[ "BenchmarkSleep" := 1000123456 ]} ]} in
  (∀ pkg, is_Some (record !! pkg)
          ↔ ∃ line, line ∈ strings.Split examples_output.good "010" ∧ is_flush line
                    ∧ flush_package line = Some pkg)
  ∧ (record = ∅ ↔ ∀ line, line ∈ strings.Split examples_output.good "010" → ¬ is_flush line).
Proof. apply (parse_output_packages examples_output.good). reflexivity. Defined.

(** ** The timing column *)

Lemma TrimRight_all t cutset :
  (∀ x, contains t x → x ∈ cutset) → strings.TrimRight t cutset = EmptyString.
Proof.
  induction t as [|c t IH]; [done|]. intros Ht. simpl.
  rewrite IH by (intros x Hx; apply Ht, contains_cons; by right).
  rewrite decide_True; [done|]. apply Ht, contains_cons. by left.
Qed.

Lemma TrimRight_app_cut s t cutset :
  (∀ x, contains t x → x ∈ cutset) →
  strings.TrimRight (s +:+ t) cutset = strings.TrimRight s cutset.
Proof.
  intros Ht. induction s as [|c s IH].
  - rewrite append_nil_l. by apply TrimRight_all.
  - rewrite append_cons. simpl. by rewrite IH.
Qed.

Lemma TrimRight_keep s c cutset :
  c ∉ cutset →
  strings.TrimRight (s +:+ String c EmptyString) cutset = s +:+ String c EmptyString.
Proof.
  intros Hc. induction s as [|a s IH].
  - rewrite append_nil_l. simpl. by rewrite decide_False.
  - rewrite append_cons. simpl. rewrite IH.
    destruct s; by rewrite ?append_nil_l, ?append_cons.
Qed.

Lemma pretty_N_go_app x s : pretty_N_go x s = pretty_N_go x EmptyString +:+ s.
Proof.
  revert s. induction (N.lt_wf_0 x) as [x _ IH]. intros s.
  destruct (decide (x = 0)%N) as [->|Hx].
  - by rewrite !pretty_N_go_0, append_nil_l.
  - assert (Hlt : (x `div` 10 < x)%N) by (apply N.div_lt; lia).
    rewrite (pretty_N_go_step x s), (pretty_N_go_step x EmptyString) by lia.
    set (c := pretty_N_char (x `mod` 10)).
    rewrite (IH _ Hlt (String c s)), (IH _ Hlt (String c EmptyString)).
    by rewrite append_assoc, append_cons, append_nil_l.
Qed.

Lemma digits_app s1 s2 acc :
  strconv.digits (s1 +:+ s2) acc = strconv.digits s1 acc ≫= strconv.digits s2.
Proof.
  revert acc. induction s1 as [|c s1 IH]; intros acc.
  - by rewrite append_nil_l.
  - rewrite append_cons. simpl. destruct (strconv.digit c); [apply IH|done].
Qed.

Lemma digit_pretty_N_char d :
  (d < 10)%N → strconv.digit (pretty_N_char d) = Some (Z.of_N d).
Proof.
  intros Hd.
  assert (d = 0 ∨ d = 1 ∨ d = 2 ∨ d = 3 ∨ d = 4 ∨ d = 5 ∨ d = 6 ∨ d = 7 ∨ d = 8 ∨ d = 9)%N
    as Hcases by lia.
  repeat (destruct Hcases as [-> | Hcases]; [reflexivity|]). by subst.
Qed.

Lemma digits_pretty_N_go x :
  strconv.digits (pretty_N_go x EmptyString) 0 = Some (Z.of_N x).
Proof.
  induction (N.lt_wf_0 x) as [x _ IH].
  destruct (decide (x = 0)%N) as [->|Hx]; [done|].
  rewrite pretty_N_go_step, pretty_N_go_app, digits_app by lia.
  rewrite IH by (apply N.div_lt; lia). simpl.
  rewrite digit_pretty_N_char by (apply N.mod_lt; lia). simpl.
  f_equal. rewrite N2Z.inj_div, N2Z.inj_mod. 
  pose proof (Z.div_mod (Z.of_N x) 10). lia.
Qed.

(** The last byte of a printed number is a digit. *)
Lemma d_last n :
  ∃ s c v, fmt.d n = s +:+ String c EmptyString ∧ strconv.digit c = Some v.
Proof.
  unfold fmt.d, pretty, pretty_N.
  destruct (decide (Z.to_N n = 0)%N) as [_|Hx].
  - by exists EmptyString, "0"%char, 0.
  - rewrite pretty_N_go_step, pretty_N_go_app by lia.
    eexists _, _, _. split; [done|]. apply digit_pretty_N_char, N.mod_lt. lia.
Qed.

(** X20. The timing column as [go test] prints it, the number and the unit
    [ns/op], gives the number back: [TrimRight] removes the unit and
    nothing else, and [ParseUint] reads what [%d] printed, for every
    unsigned 64-bit timing. *)
Theorem timing_column_parses (n : Z) :
  0 ≤ n < 2 ^ 64 →
  strings.TrimRight (fmt.d n +:+ " ns/op") ns_op = fmt.d n
  ∧ strconv.ParseUint (fmt.d n) = Some n
  ∧ strconv.ParseUint (strings.TrimRight (fmt.d n +:+ " ns/op") ns_op) = Some n.
Proof.
  intros Hn.
  assert (Htrim : strings.TrimRight (fmt.d n +:+ " ns/op") ns_op = fmt.d n).
  { rewrite TrimRight_app_cut.
    - destruct (d_last n) as (s & c & v & -> & Hc). apply TrimRight_keep.
      intros Hin. unfold ns_op in Hin.
      repeat (apply elem_of_cons in Hin as [->|Hin]; [done|]). by apply elem_of_nil in Hin.
    - intros x Hx. unfold contains in Hx. simpl in Hx. done. }
  assert (Hparse : strconv.ParseUint (fmt.d n) = Some n).
  { unfold strconv.ParseUint.
    destruct (d_last n) as (s & c & v & Hs & _).
    rewrite decide_False by (rewrite Hs; by destruct s).
    assert (strconv.digits (fmt.d n) 0 = Some n) as ->.
    { unfold fmt.d, pretty, pretty_N.
      destruct (decide (Z.to_N n = 0)%N) as [H0|Hx].
      - simpl. f_equal. lia.
      - rewrite digits_pretty_N_go. f_equal. lia. }
    simpl. by rewrite decide_True by lia. }
  split; [done|]. split; [done|]. by rewrite Htrim.
Qed.

Lemma timing_column_parses_witness :
  strings.TrimRight (fmt.d 1000123456 +:+ " ns/op") ns_op = fmt.d 1000123456
  ∧ strconv.ParseUint (fmt.d 1000123456) = Some 1000123456
  ∧ strconv.ParseUint (strings.TrimRight (fmt.d 1000123456 +:+ " ns/op") ns_op)
    = Some 1000123456.
Proof. apply timing_column_parses. lia. Defined.

(** ** The files of a package directory *)

Lemma path_inj w a b : os.path w a = os.path w b → a = b.
Proof.
  unfold os.path, reform. rewrite !Join_cons. cbn [strings.Join].
  intros H. apply (inj (String.app (w_cwd w))) in H.
  rewrite !append_cons, !append_nil_l in H. by injection H.
Qed.

Lemma path_cwd w w' name : w_cwd w' = w_cwd w → os.path w' name = os.path w name.
Proof. unfold os.path. by intros ->. Qed.

Lemma backup_cwd name old w : w_cwd (backup name old w) = w_cwd w.
Proof.
  unfold backup, os.Rename, os.Remove. destruct (os.exists_ w name); [|done]. simpl.
  by destruct (delete _ _ !! _).
Qed.

Lemma backup_dirs name old w : w_dirs (backup name old w) = w_dirs w.
Proof.
  unfold backup, os.Rename, os.Remove. destruct (os.exists_ w name); [|done]. simpl.
  by destruct (delete _ _ !! _).
Qed.

(** A backup moves the file to its backup name, when there is a file. *)
Lemma backup_lookup name old w p :
  name ≠ old →
  w_files (backup name old w) !! p
  = match w_files w !! os.path w name with
    | Some data =>
        if decide (p = os.path w old) then Some data
        else if decide (p = os.path w name) then None
        else w_files w !! p
    | None => w_files w !! p
    end.
Proof.
  intros Hne. unfold backup, os.exists_.
  destruct (w_files w !! os.path w name) as [data|] eqn:Hn.
  - rewrite bool_decide_eq_true_2 by eauto.
    unfold os.Rename, os.Remove. cbn [w_files w_cwd w_dirs].
    change (os.path (World (w_cwd w) (w_dirs w) (delete (os.path w old) (w_files w))) name)
      with (os.path w name).
    change (os.path (World (w_cwd w) (w_dirs w) (delete (os.path w old) (w_files w))) old)
      with (os.path w old).
    assert (os.path w name ≠ os.path w old) as Hp by (intros ?%path_inj; done).
    rewrite lookup_delete_ne, Hn by done. cbn [w_files].
    destruct (decide (p = os.path w old)) as [->|Hpo].
    { by rewrite lookup_insert_eq. }
    rewrite lookup_insert_ne by done.
    destruct (decide (p = os.path w name)) as [->|Hpn].
    { by rewrite lookup_delete_eq. }
    by rewrite !lookup_delete_ne.
  - rewrite bool_decide_eq_false_2; [done|]. by intros [? ?].
Qed.

Lemma WriteFile_lookup w name data p :
  w_files (os.WriteFile w name data) !! p
  = if decide (p = os.path w name) then Some data else w_files w !! p.
Proof.
  unfold os.WriteFile. cbn [w_files]. destruct (decide (p = os.path w name)) as [->|Hp].
  - by rewrite lookup_insert_eq.
  - by rewrite lookup_insert_ne.
Qed.

Lemma WriteFile_cwd w name data : w_cwd (os.WriteFile w name data) = w_cwd w.
Proof. done. Qed.

Lemma file_backup name old w x :
  name ≠ old →
  file (backup name old w) x
  = match file w name with
    | Some data =>
        if decide (x = old) then Some data
        else if decide (x = name) then None
        else file w x
    | None => file w x
    end.
Proof.
  intros Hne. unfold file. rewrite (path_cwd w _ x) by apply backup_cwd.
  rewrite backup_lookup by done. destruct (w_files w !! os.path w name); [|done].
  destruct (decide (x = old)) as [->|Hxo].
  { by rewrite decide_True. }
  rewrite decide_False by (intros ?%path_inj; done).
  destruct (decide (x = name)) as [->|Hxn].
  { by rewrite decide_True. }
  by rewrite decide_False by (intros ?%path_inj; done).
Qed.

Lemma file_WriteFile w name data x :
  file (os.WriteFile w name data) x
  = if decide (x = name) then Some data else file w x.
Proof.
  unfold file. rewrite (path_cwd w _ x) by done. rewrite WriteFile_lookup.
  destruct (decide (x = name)) as [->|Hx].
  - by rewrite decide_True.
  - by rewrite decide_False by (intros ?%path_inj; done).
Qed.

Lemma file_backup_other name old w x :
  name ≠ old → x ≠ name → x ≠ old → file (backup name old w) x = file w x.
Proof.
  intros Hne Hn Ho. rewrite file_backup by done.
  destruct (file w name); [|done]. by rewrite !decide_False.
Qed.

Lemma file_backup_name name old w : name ≠ old → file (backup name old w) name = None.
Proof.
  intros Hne. rewrite file_backup by done. destruct (file w name) eqn:E; [|done].
  by rewrite decide_False, decide_True.
Qed.

Lemma file_backup_old name old w :
  name ≠ old →
  file (backup name old w) old = from_option Some (file w old) (file w name).
Proof.
  intros Hne. rewrite file_backup by done. destruct (file w name); [|done].
  by rewrite decide_True.
Qed.

Lemma file_WriteFile_eq w name data : file (os.WriteFile w name data) name = Some data.
Proof. by rewrite file_WriteFile, decide_True. Qed.

Lemma file_WriteFile_ne w name data x :
  x ≠ name → file (os.WriteFile w name data) x = file w x.
Proof. intros. by rewrite file_WriteFile, decide_False. Qed.

(** The files after the three backups. *)
Lemma file_backups w :
  let w3 := backup "bench_comparison.txt" ".bench_comparison.txt.old"
              (backup ".bench_best.json" ".bench_best.json.old"
                 (backup ".bench_results.json" ".bench_results.json.old" w)) in
  file w3 ".bench_results.json" = None
  ∧ file w3 ".bench_best.json" = None
  ∧ file w3 "bench_comparison.txt" = None
  ∧ file w3 ".bench_results.json.old"
    = from_option Some (file w ".bench_results.json.old") (file w ".bench_results.json")
  ∧ file w3 ".bench_best.json.old"
    = from_option Some (file w ".bench_best.json.old") (file w ".bench_best.json")
  ∧ file w3 ".bench_comparison.txt.old"
    = from_option Some (file w ".bench_comparison.txt.old") (file w "bench_comparison.txt").
Proof.
  cbv zeta. repeat split.
  - rewrite !file_backup_other by discriminate. by apply file_backup_name.
  - rewrite file_backup_other by discriminate. by apply file_backup_name.
  - by apply file_backup_name.
  - rewrite !file_backup_other by discriminate. by apply file_backup_old.
  - rewrite file_backup_other by discriminate. rewrite file_backup_old by discriminate.
    by rewrite !file_backup_other by discriminate.
  - rewrite file_backup_old by discriminate. by rewrite !file_backup_other by discriminate.
Qed.

(** The writes, after the backups: the proof of each fact about a file
    after the call. *)
Ltac stored_file w benches newBest :=
  let H1 := fresh in let H2 := fresh in let H3 := fresh in
  let H4 := fresh in let H5 := fresh in let H6 := fresh in
  let Hor := fresh in
  let w3 := fresh "w" in
  unfold backupMarshallAndStore; cbv zeta;
  destruct (file_backups w) as (H1 & H2 & H3 & H4 & H5 & H6); cbv zeta in *;
  set (w3 := backup "bench_comparison.txt" _ _) in *; clearbody w3;
  rewrite <- ?H4, <- ?H5, <- ?H6; clear H4 H5 H6;
  destruct (decide (0 < size benches)%nat), (decide (0 < size newBest)%nat);
  (destruct (decide ((0 < size benches)%nat ∨ (0 < size newBest)%nat)) as [Hor|Hor];
   [|try (exfalso; apply Hor; tauto)]; try (exfalso; tauto));
  repeat first [ rewrite file_WriteFile_eq | rewrite file_WriteFile_ne by discriminate ];
  done.

Lemma stored_results js delta (benches newBest : gmap string Z) w :
  file (backupMarshallAndStore js delta benches newBest w) ".bench_results.json"
  = if decide (0 < size benches)%nat then Some (json_Marshal js benches) else None.
Proof. stored_file w benches newBest. Qed.

Lemma stored_best js delta (benches newBest : gmap string Z) w :
  file (backupMarshallAndStore js delta benches newBest w) ".bench_best.json"
  = if decide (0 < size newBest)%nat then Some (json_Marshal js newBest) else None.
Proof. stored_file w benches newBest. Qed.

Lemma stored_best_old js delta (benches newBest : gmap string Z) w :
  file (backupMarshallAndStore js delta benches newBest w) ".bench_best.json.old"
  = from_option Some (file w ".bench_best.json.old") (file w ".bench_best.json").
Proof. stored_file w benches newBest. Qed.

(** X21. The files after [backupMarshallAndStore]: each of the three files
    holds what was just written, or is gone when there was nothing to
    write (an empty map is not written, and the report only with a map that
    is not empty); each backup holds what the file held before the call,
    or, when there was no file, the backup that was there. *)
Theorem backupMarshallAndStore_files (js : json_codec) (delta : string)
    (benches newBest : gmap string Z) (w : world) :
  let w' := backupMarshallAndStore js delta benches newBest w in
  file w' ".bench_results.json"
  = (if decide (0 < size benches)%nat then Some (json_Marshal js benches) else None)
  ∧ file w' ".bench_best.json"
    = (if decide (0 < size newBest)%nat then Some (json_Marshal js newBest) else None)
  ∧ file w' "bench_comparison.txt"
    = (if decide ((0 < size benches)%nat ∨ (0 < size newBest)%nat) then Some delta
       else None)
  ∧ file w' ".bench_results.json.old"
    = from_option Some (file w ".bench_results.json.old") (file w ".bench_results.json")
  ∧ file w' ".bench_best.json.old"
    = from_option Some (file w ".bench_best.json.old") (file w ".bench_best.json")
  ∧ file w' ".bench_comparison.txt.old"
    = from_option Some (file w ".bench_comparison.txt.old") (file w "bench_comparison.txt").
Proof.
  intros w'. subst w'. unfold backupMarshallAndStore. cbv zeta.
  destruct (file_backups w) as (H1 & H2 & H3 & H4 & H5 & H6). cbv zeta in *.
  set (w3 := backup "bench_comparison.txt" _ _) in *. clearbody w3.
  rewrite <- H4, <- H5, <- H6. clear H4 H5 H6.
  destruct (decide (0 < size benches)%nat) as [Hb|Hb],
    (decide (0 < size newBest)%nat) as [Hn|Hn];
    (destruct (decide ((0 < size benches)%nat ∨ (0 < size newBest)%nat)) as [Hor|Hor];
     [|try (exfalso; apply Hor; tauto)]; try (exfalso; tauto));
    repeat split;
    repeat first [ rewrite file_WriteFile_eq | rewrite file_WriteFile_ne by discriminate ];
    done.
Qed.


Lemma backup_frame name old w p :
  name ≠ old → p ≠ os.path w name → p ≠ os.path w old →
  w_files (backup name old w) !! p = w_files w !! p.
Proof.
  intros Hne Hn Ho. rewrite backup_lookup by done.
  destruct (w_files w !! os.path w name); [|done]. by rewrite !decide_False.
Qed.

Lemma WriteFile_frame w name data p :
  p ≠ os.path w name → w_files (os.WriteFile w name data) !! p = w_files w !! p.
Proof. intros Hn. by rewrite WriteFile_lookup, decide_False. Qed.

Lemma backupMarshallAndStore_cwd js delta benches newBest w :
  w_cwd (backupMarshallAndStore js delta benches newBest w) = w_cwd w.
Proof.
  unfold backupMarshallAndStore. cbv zeta.
  repeat case_decide; rewrite ?WriteFile_cwd, ?backup_cwd; done.
Qed.

Lemma backupMarshallAndStore_dirs js delta benches newBest w :
  w_dirs (backupMarshallAndStore js delta benches newBest w) = w_dirs w.
Proof.
  unfold backupMarshallAndStore. cbv zeta.
  repeat case_decide; cbn [os.WriteFile w_dirs]; rewrite ?backup_dirs; done.
Qed.

Lemma backupMarshallAndStore_lookup js delta benches newBest w p :
  (∀ name, name ∈ artifacts → p ≠ os.path w name) →
  w_files (backupMarshallAndStore js delta benches newBest w) !! p = w_files w !! p.
Proof.
  intros Hp. unfold backupMarshallAndStore. cbv zeta.
  assert (∀ w' name, w_cwd w' = w_cwd w → name ∈ artifacts → p ≠ os.path w' name) as Hp'.
  { intros w' name Hc Hin. rewrite (path_cwd w w') by done. by apply Hp. }
  assert (Hart : ∀ name, name ∈ artifacts ↔ In name artifacts)
    by (intros; apply list_elem_of_In).
  repeat case_decide;
    repeat (rewrite WriteFile_frame
              by (apply Hp'; [by rewrite ?WriteFile_cwd, ?backup_cwd|apply Hart; simpl; tauto]));
    repeat (rewrite backup_frame
              by (done || (apply Hp'; [by rewrite ?backup_cwd|apply Hart; simpl; tauto])));
    done.
Qed.

(** X22. [backupMarshallAndStore] stays in the working directory: it
    changes neither the working directory nor the directories, and no file
    but the six of the working directory that it names. *)
Theorem backupMarshallAndStore_frame (js : json_codec) (delta : string)
    (benches newBest : gmap string Z) (w : world) :
  let w' := backupMarshallAndStore js delta benches newBest w in
  w_cwd w' = w_cwd w
  ∧ w_dirs w' = w_dirs w
  ∧ ∀ p, p ∉ os.path w <$> artifacts → w_files w' !! p = w_files w !! p.
Proof.
  intros w'. split; [apply backupMarshallAndStore_cwd|].
  split; [apply backupMarshallAndStore_dirs|].
  intros p Hp. apply backupMarshallAndStore_lookup. intros name Hin ->.
  apply Hp, list_elem_of_fmap. eauto.
Qed.

(** X23. What [backupMarshallAndStore] stored as the new best,
    [unmarshallAndStoreBench] loads, with a codec that reads back what it
    wrote; but an empty best map is not stored, and loading it gives [nil]
    (the file is gone, even if there was one before). *)
Theorem store_then_load (js : json_codec) (delta : string)
    (benches newBest : gmap string Z) (w : world) :
  round_trips js newBest →
  let w' := backupMarshallAndStore js delta benches newBest w in
  unmarshallAndStoreBench js w' ".bench_best.json"
  = if decide (0 < size newBest)%nat then Some newBest else None.
Proof.
  intros Hrt w'.
  unfold unmarshallAndStoreBench. fold (file w' ".bench_best.json").
  subst w'. rewrite stored_best. by case_decide.
Qed.

Lemma store_then_load_witness :
  unmarshallAndStoreBench examples_output.json
    (backupMarshallAndStore examples_output.json "report" ∅ examples_output.fast
       examples_output.w0) ".bench_best.json"
  = if decide (0 < size examples_output.fast)%nat then Some examples_output.fast else None.
Proof.
  apply (store_then_load examples_output.json "report" ∅ examples_output.fast
           examples_output.w0).
  reflexivity.
Defined.

(** ** [rebench] *)

Lemma pkg_loop_spec js sch gosrc speedTol recordTol pkgs :
  ∀ w missing tooSlow,
  ∃ w' missing' tooSlow',
    pkg_loop js sch gosrc speedTol recordTol pkgs w missing tooSlow
    = Some (w', missing', tooSlow')
    ∧ w_dirs w' = w_dirs w
    ∧ (∀ p, (∀ dir name, dir ∈ w_dirs w → name ∈ artifacts → p ≠ reform [dir; name]) →
            w_files w' !! p = w_files w !! p)
    ∧ ((∀ kv, kv ∈ pkgs → reform [gosrc; kv.1] ∉ w_dirs w) →
       w' = w ∧ missing' = missing ∧ tooSlow' = tooSlow).
Proof.
  induction pkgs as [|[pkgPath benches] pkgs IH]; intros w missing tooSlow.
  { exists w, missing, tooSlow. by repeat split. }
  cbn [pkg_loop]. unfold os.Chdir.
  destruct (decide (reform [gosrc; pkgPath] ∈ w_dirs w)) as [Hdir|Hdir].
  - set (w1 := World (reform [gosrc; pkgPath]) (w_dirs w) (w_files w)).
    cbv zeta.
    set (r := compare _ _ _ _ _ _ _ _).
    unfold res_delta. rewrite tabAlign_closed.
    set (report := strings.Join _ _).
    set (w2 := backupMarshallAndStore js report _ _ w1).
    assert (Hd : w_dirs w2 = w_dirs w).
    { change (w_dirs w) with (w_dirs w1). apply backupMarshallAndStore_dirs. }
    assert (Hf : ∀ p, p ∉ os.path w1 <$> artifacts → w_files w2 !! p = w_files w !! p).
    { intros p Hp. change (w_files w) with (w_files w1).
      apply backupMarshallAndStore_lookup.
      intros name Hin ->. apply Hp, list_elem_of_fmap. eauto. }
    destruct (IH w2 (missing || res_missing r) (tooSlow || res_tooSlow r))
      as (w' & m' & t' & Hloop & Hd' & Hf' & _).
    exists w', m', t'. split; [done|]. split; [congruence|]. split.
    + intros p Hp. rewrite Hf'.
      * rewrite Hf; [done|]. intros (name & -> & Hin)%list_elem_of_fmap.
        by apply (Hp (reform [gosrc; pkgPath]) name).
      * intros dir name Hin. apply Hp. by rewrite <- Hd.
    + intros Hno. exfalso. apply (Hno (pkgPath, benches)); [by left|done].
  - destruct (IH w missing tooSlow) as (w' & m' & t' & Hloop & Hd' & Hf' & Hskip).
    exists w', m', t'. split; [done|]. split; [done|]. split; [done|].
    intros Hno. apply Hskip. intros kv Hin. apply Hno. by right.
Qed.

Ltac destruct_gosrc :=
  match goal with
  | |- context [match ?x with Some _ => _ | None => (Fatal, _) end] =>
      destruct x as [gosrc|]
  end.

Lemma runAndStoreBenches_cases gotest :
  (∃ record, runAndStoreBenches gotest = (Some record, None))
  ∨ (∃ e, runAndStoreBenches gotest = (None, Some e)
          ∧ (gotest = None
             ∨ ∃ out line, gotest = Some out ∧ line ∈ strings.Split out "010"
                           ∧ bad_timing line)).
Proof.
  destruct gotest as [out|]; simpl.
  - unfold parse_output.
    destruct (parse_lines parse_init (strings.Split out "010")) as [e|st] eqn:Hp; simpl.
    + right. exists e. split; [done|]. right.
      apply parse_lines_error in Hp as (_ & line & Hin & Hbad). eauto.
    + left. eauto.
  - right. exists ErrGoTest. split; [done|]. by left.
Qed.

(** X24. How [rebench] ends: it returns -1, 0 or 1 or ends in
    [log.Fatalln], and never panics; it returns -1 exactly when [go test]
    failed or a measurement has a timing that is not an unsigned 64-bit
    integer; and when it returns -1 or ends in [log.Fatalln] it has changed
    nothing. *)
Theorem rebench_outcomes (js : json_codec) (sch : schedule) (gotest : option string)
    (w : world) (speedTolPercent recordTolPercent : Z) :
  let res := rebench js sch gotest w speedTolPercent recordTolPercent in
  (res.1 = Returned (-1) ∨ res.1 = Returned 0 ∨ res.1 = Returned 1 ∨ res.1 = Fatal)
  ∧ (res.1 = Returned (-1)
     ↔ gotest = None
       ∨ ∃ out line, gotest = Some out ∧ line ∈ strings.Split out "010" ∧ bad_timing line)
  ∧ (res.1 = Returned (-1) ∨ res.1 = Fatal → res.2 = w).
Proof.
  intros res. subst res. unfold rebench.
  destruct (runAndStoreBenches_cases gotest) as [[record Hrun]|(e & Hrun & Hwhy)];
    rewrite Hrun.
  2:{ simpl. split; [by left|]. split; [|done]. split; [done|]. done. }
  assert (Hnot : ¬ (gotest = None
                    ∨ ∃ out line, gotest = Some out ∧ line ∈ strings.Split out "010"
                                  ∧ bad_timing line)).
  { intros [->|(out & line & -> & Hin & Hbad)]; [done|].
    simpl in Hrun. unfold parse_output in Hrun.
    by rewrite (parse_lines_bad _ _ _ Hin Hbad) in Hrun. }
  change (default ∅ (Some record)) with record.
  destruct (decide (size record = 0%nat)).
  { simpl. split; [right; by left|]. split; [|by intros [?|?]]. split; [done|tauto]. }
  destruct_gosrc.
  2:{ simpl. split; [by do 3 right|]. split; [|done]. split; [done|tauto]. }
  destruct (pkg_loop_spec js sch gosrc (tolerance speedTolPercent)
              (tolerance recordTolPercent) (range (sch_pkgs sch) record) w false false)
    as (w' & m' & t' & -> & _).
  simpl. split.
  - destruct t', m'; auto.
  - split; [|by destruct t', m'; intros [?|?]].
    split; [by destruct t', m'|tauto].
Qed.

(** X25. [rebench] writes only into package directories: it leaves the
    directories as they are, and every file but the six named files of a
    directory that can be entered. *)
Theorem rebench_frame (js : json_codec) (sch : schedule) (gotest : option string)
    (w : world) (speedTolPercent recordTolPercent : Z) :
  let res := rebench js sch gotest w speedTolPercent recordTolPercent in
  w_dirs res.2 = w_dirs w
  ∧ ∀ p, (∀ dir name, dir ∈ w_dirs w → name ∈ artifacts → p ≠ reform [dir; name]) →
         w_files res.2 !! p = w_files w !! p.
Proof.
  intros res. subst res. unfold rebench.
  destruct (runAndStoreBenches gotest) as [record [e|]]; [done|].
  destruct (decide (size (default ∅ record) = 0%nat)); [done|].
  destruct_gosrc; [|done].
  destruct (pkg_loop_spec js sch gosrc (tolerance speedTolPercent)
              (tolerance recordTolPercent) (range (sch_pkgs sch) (default ∅ record))
              w false false)
    as (w' & m' & t' & -> & Hd & Hf & _).
  done.
Qed.

(** X26. Without a flush line (and without a bad timing) there is nothing
    to do: [rebench] returns 0 and changes nothing, whatever benchmarks the
    output lists. *)
Theorem rebench_nothing_to_do (js : json_codec) (sch : schedule) (outstr : string)
    (w : world) (speedTolPercent recordTolPercent : Z) :
  (∀ line, line ∈ strings.Split outstr "010" → ¬ is_flush line) →
  (∀ line, line ∈ strings.Split outstr "010" → ¬ bad_timing line) →
  rebench js sch (Some outstr) w speedTolPercent recordTolPercent = (Returned 0, w).
Proof.
  intros Hnf Hnb. unfold rebench, runAndStoreBenches, parse_output.
  pose proof (parse_lines_no_flush parse_init (strings.Split outstr "010") Hnf) as Hp.
  destruct (parse_lines parse_init (strings.Split outstr "010")) as [e|st].
  - destruct Hp as (line & Hin & Hbad). by apply Hnb in Hbad.
  - cbn [parse_result ps_record]. rewrite Hp. cbn [parse_init ps_record].
    change (default ∅ (Some ∅)) with (∅ : gmap string (gmap string Z)).
    by rewrite decide_True by apply map_size_empty.
Qed.

Lemma rebench_nothing_to_do_witness :
  rebench examples_output.json examples_output.sched
    (Some ("PASS" +:+ nl +:+ examples_output.orphan_line)) examples_output.w1 150 70
  = (Returned 0, examples_output.w1).
Proof.
  assert (∀ line, line ∈ strings.Split ("PASS" +:+ nl +:+ examples_output.orphan_line) "010" →
                  line = "PASS" ∨ line = examples_output.orphan_line) as Hline.
  { intros line Hin. apply list_elem_of_In in Hin. destruct Hin as [<-|[<-|[]]]; auto. }
  apply rebench_nothing_to_do.
  - intros line [->| ->]%Hline; vm_compute; [tauto|discriminate].
  - intros line [->| ->]%Hline; intros [Hm Hbad]; vm_compute in Hm, Hbad;
      [done|discriminate].
Defined.

(** X27. Packages whose directory cannot be entered are skipped without a
    trace in the exit code: when no package directory can be entered,
    [rebench] changes nothing and returns 0, unless it ends in
    [log.Fatalln] for want of the source directory. *)
Theorem rebench_skips_unreachable (js : json_codec) (sch : schedule) (outstr : string)
    (record : gmap string (gmap string Z)) (w : world)
    (speedTolPercent recordTolPercent : Z) :
  parse_output outstr = (Some record, None) →
  (∀ gosrc pkgPath, is_Some (record !! pkgPath) → reform [gosrc; pkgPath] ∉ w_dirs w) →
  let res := rebench js sch (Some outstr) w speedTolPercent recordTolPercent in
  (res.1 = Returned 0 ∨ res.1 = Fatal) ∧ res.2 = w.
Proof.
  intros Hparse Hno res. subst res. unfold rebench, runAndStoreBenches.
  rewrite Hparse. change (default ∅ (Some record)) with record.
  destruct (decide (size record = 0%nat)); [by split; [left|]|].
  destruct_gosrc; [|by split; [right|]].
  destruct (pkg_loop_spec js sch gosrc (tolerance speedTolPercent)
              (tolerance recordTolPercent) (range (sch_pkgs sch) record) w false false)
    as (w' & m' & t' & -> & _ & _ & Hskip).
  destruct Hskip as (-> & -> & ->).
  { intros [pkgPath benches] Hin%elem_of_range. apply Hno. simpl. eauto. }
  by split; [left|].
Qed.

Lemma rebench_skips_unreachable_witness :
  let res := rebench examples_output.json examples_output.sched
               (Some examples_output.good)
               (World "/go/src/example.com/pkg" ∅ ∅) 150 70 in
  (res.1 = Returned 0 ∨ res.1 = Fatal) ∧ res.2 = World "/go/src/example.com/pkg" ∅ ∅.
Proof.
  apply (rebench_skips_unreachable examples_output.json examples_output.sched
           examples_output.good
           {[ "example.com/pkg" := {[ "BenchmarkSleep" := 1000123456 ]} ]}).
  - reflexivity.
  - intros gosrc pkgPath _. simpl. apply not_elem_of_empty.
Defined.

(** *** One package *)

Lemma range_singleton {V} (r : ranger) (k : string) (v : V) :
  range r ({[ k := v ]} : gmap string V) = [(k, v)].
Proof.
  apply Permutation_singleton_r. rewrite range_perm. by rewrite map_to_list_singleton.
Qed.

(** A run with one package, in terms of the call of [compare] it makes. *)
Lemma rebench_one js sch outstr w speedTolPercent recordTolPercent pkgPath
    (C : gmap string Z) :
  parse_output outstr = (Some {[ pkgPath := C ]}, None) →
  findGosrc (w_cwd w) pkgPath ≠ EmptyString →
  reform [findGosrc (w_cwd w) pkgPath; pkgPath] ∈ w_dirs w →
  let w1 := World (reform [findGosrc (w_cwd w) pkgPath; pkgPath]) (w_dirs w) (w_files w) in
  let read := unmarshallAndStoreBench js w1 ".bench_best.json" in
  let h : heap := match read with
                  | Some old => {[ 1%positive := C; 2%positive := old ]}
                  | None => {[ 1%positive := C ]}
                  end in
  let cr := compare (sch_old sch pkgPath) (sch_new sch pkgPath) h
              (match read with Some _ => Some 2%positive | None => None end)
              1%positive pkgPath (tolerance speedTolPercent) (tolerance recordTolPercent) in
  ∃ report,
    tabAlign (res_delta cr) = Some report
    ∧ rebench js sch (Some outstr) w speedTolPercent recordTolPercent
      = (Returned (if res_tooSlow cr then 1 else if res_missing cr then 1 else 0),
         backupMarshallAndStore js report (deref (res_heap cr) 1%positive) (res_best cr) w1).
Proof.
  intros Hparse Hsrc Hdir w1 read h cr.
  exists (strings.Join (aligned_row (strings.Split (res_delta cr) "010")
                          <$> strings.Split (res_delta cr) "010") nl).
  split; [apply tabAlign_closed|].
  unfold rebench, runAndStoreBenches. rewrite Hparse.
  change (default ∅ (Some ({[ pkgPath := C ]} : gmap string (gmap string Z))))
    with ({[ pkgPath := C ]} : gmap string (gmap string Z)).
  rewrite decide_False by (rewrite map_size_singleton; lia).
  rewrite !range_singleton. rewrite decide_False by done.
  cbn [pkg_loop]. unfold os.Chdir. rewrite decide_True by done.
  fold w1. fold read. cbv zeta. fold h. fold cr.
  rewrite tabAlign_closed. reflexivity.
Qed.

Lemma exit_code_cases (missing tooSlow : bool) :
  let code := if tooSlow then 1 else if missing then 1 else 0 in
  (Returned code = Returned 0 ∨ Returned code = Returned 1)
  ∧ (Returned code = Returned 1 ↔ missing = true ∨ tooSlow = true).
Proof. destruct missing, tooSlow; simpl; intuition congruence. Qed.

(** X28. A run with one package and a best file that can be read. The
    exit code is 1 exactly when a benchmark of the best file is missing
    from the run or some benchmark is Regressed, and 0 otherwise; afterwards
    the working directory is the package directory, the best file holds the
    new best map, the results file holds the run, and the backup of the
    best file holds the best file as it was. *)
Theorem rebench_run_with_best (js : json_codec) (sch : schedule) (outstr : string)
    (w : world) (speedTolPercent recordTolPercent : Z) (pkgPath : string)
    (B C : gmap string Z) (raw : string) :
  parse_output outstr = (Some {[ pkgPath := C ]}, None) →
  findGosrc (w_cwd w) pkgPath ≠ EmptyString →
  let dir := reform [findGosrc (w_cwd w) pkgPath; pkgPath] in
  dir ∈ w_dirs w →
  w_files w !! reform [dir; ".bench_best.json"] = Some raw →
  json_Unmarshal js raw = Some B →
  let res := rebench js sch (Some outstr) w speedTolPercent recordTolPercent in
  let best := new_baseline (tolerance speedTolPercent) (tolerance recordTolPercent) B C in
  (res.1 = Returned 0 ∨ res.1 = Returned 1)
  ∧ (res.1 = Returned 1
     ↔ (∃ key b, B !! key = Some b ∧ C !! key = None)
       ∨ ∃ name b c, B !! name = Some b ∧ C !! name = Some c
                     ∧ f64.gt (factor_of c b) (tolerance speedTolPercent) = true)
  ∧ w_cwd res.2 = dir
  ∧ file res.2 ".bench_best.json"
    = (if decide (0 < size best)%nat then Some (json_Marshal js best) else None)
  ∧ file res.2 ".bench_results.json"
    = (if decide (0 < size C)%nat then Some (json_Marshal js C) else None)
  ∧ file res.2 ".bench_best.json.old" = Some raw.
Proof.
  intros Hparse Hsrc dir Hdir Hraw Hjs res best.
  destruct (rebench_one js sch outstr w speedTolPercent recordTolPercent pkgPath C
              Hparse Hsrc Hdir) as (report & _ & Hres).
  fold dir in Hres. cbv zeta in Hres.
  set (w1 := World dir (w_dirs w) (w_files w)) in *.
  assert (Hread : unmarshallAndStoreBench js w1 ".bench_best.json" = Some B).
  { unfold unmarshallAndStoreBench. change (os.path w1 ".bench_best.json")
      with (reform [dir; ".bench_best.json"]). change (w_files w1) with (w_files w).
    by rewrite Hraw. }
  rewrite Hread in Hres. cbv beta iota in Hres.
  set (h := ({[ 1%positive := C; 2%positive := B ]} : heap)) in *.
  destruct (compare_present (sch_old sch pkgPath) (sch_new sch pkgPath) h 1%positive
              pkgPath (tolerance speedTolPercent) (tolerance recordTolPercent) 2%positive)
    as (Hbest & _ & Hmiss & Hslow & Hd & Hf & _).
  set (cr := compare _ _ h _ _ _ _ _) in *.
  assert (HB : deref h 2%positive = B) by done.
  assert (HC : deref h 1%positive = C) by done.
  rewrite HB, HC in Hmiss, Hslow, Hd. fold best in Hd.
  assert (HC' : deref (res_heap cr) 1%positive = C).
  { unfold deref. rewrite Hf by done. done. }
  assert (Hb' : res_best cr = best).
  { unfold res_best. by rewrite Hbest. }
  rewrite HC', Hb' in Hres. subst res. rewrite Hres. cbn [fst snd].
  destruct (exit_code_cases (res_missing cr) (res_tooSlow cr)) as [Hcode Hone].
  cbv zeta in Hcode, Hone.
  pose proof (stored_results js report C best w1) as Hfr.
  pose proof (stored_best js report C best w1) as Hfb.
  pose proof (stored_best_old js report C best w1) as Hfo.
  split; [done|]. split; [|split; [|split; [done|split; [done|]]]].
  - rewrite Hone, Hmiss, Hslow, bool_decide_eq_true, missing_nonempty, slow_flag_iff. done.
  - by rewrite backupMarshallAndStore_cwd.
  - rewrite Hfo. unfold file.
    change (os.path w1 ".bench_best.json") with (reform [dir; ".bench_best.json"]).
    change (w_files w1) with (w_files w). by rewrite Hraw.
Qed.

Lemma rebench_run_with_best_witness :
  let C : gmap string Z := {[ "BenchmarkSleep" := 1000123456 ]} in
  let B := examples_output.fast in
  let res := rebench examples_output.json examples_output.sched
               (Some examples_output.good) examples_output.w1 150 70 in
  let best := new_baseline (tolerance 150) (tolerance 70) B C in
  (res.1 = Returned 0 ∨ res.1 = Returned 1)
  ∧ (res.1 = Returned 1
     ↔ (∃ key b, B !! key = Some b ∧ C !! key = None)
       ∨ ∃ name b c, B !! name = Some b ∧ C !! name = Some c
                     ∧ f64.gt (factor_of c b) (tolerance 150) = true)
  ∧ w_cwd res.2 = "/go/src/example.com/pkg"
  ∧ file res.2 ".bench_best.json"
    = (if decide (0 < size best)%nat then Some (json_Marshal examples_output.json best)
       else None)
  ∧ file res.2 ".bench_results.json"
    = (if decide (0 < size C)%nat then Some (json_Marshal examples_output.json C) else None)
  ∧ file res.2 ".bench_best.json.old" = Some (examples_output.show examples_output.fast).
Proof.
  apply (rebench_run_with_best examples_output.json examples_output.sched
           examples_output.good examples_output.w1 150 70 "example.com/pkg"
           examples_output.fast {[ "BenchmarkSleep" := 1000123456 ]}
           (examples_output.show examples_output.fast)).
  - reflexivity.
  - vm_compute. discriminate.
  - vm_compute. reflexivity.
  - reflexivity.
  - reflexivity.
Defined.

(** X29. A run with one package and no best file that can be read (none,
    or one that does not parse). The exit code is 0; afterwards the best
    file and the results file both hold the run, and what was in the place
    of the best file, if anything, is in its backup. *)
Theorem rebench_run_without_best (js : json_codec) (sch : schedule) (outstr : string)
    (w : world) (speedTolPercent recordTolPercent : Z) (pkgPath : string)
    (C : gmap string Z) :
  parse_output outstr = (Some {[ pkgPath := C ]}, None) →
  findGosrc (w_cwd w) pkgPath ≠ EmptyString →
  let dir := reform [findGosrc (w_cwd w) pkgPath; pkgPath] in
  dir ∈ w_dirs w →
  w_files w !! reform [dir; ".bench_best.json"] ≫= json_Unmarshal js = None →
  let res := rebench js sch (Some outstr) w speedTolPercent recordTolPercent in
  res.1 = Returned 0
  ∧ w_cwd res.2 = dir
  ∧ file res.2 ".bench_best.json"
    = (if decide (0 < size C)%nat then Some (json_Marshal js C) else None)
  ∧ file res.2 ".bench_results.json" = file res.2 ".bench_best.json"
  ∧ file res.2 ".bench_best.json.old"
    = from_option Some (w_files w !! reform [dir; ".bench_best.json.old"])
        (w_files w !! reform [dir; ".bench_best.json"]).
Proof.
  intros Hparse Hsrc dir Hdir Hraw res.
  destruct (rebench_one js sch outstr w speedTolPercent recordTolPercent pkgPath C
              Hparse Hsrc Hdir) as (report & _ & Hres).
  fold dir in Hres. cbv zeta in Hres.
  set (w1 := World dir (w_dirs w) (w_files w)) in *.
  assert (Hread : unmarshallAndStoreBench js w1 ".bench_best.json" = None).
  { unfold unmarshallAndStoreBench. change (os.path w1 ".bench_best.json")
      with (reform [dir; ".bench_best.json"]). change (w_files w1) with (w_files w).
    by destruct (w_files w !! reform [dir; ".bench_best.json"]). }
  rewrite Hread in Hres. cbv beta iota in Hres.
  set (h := ({[ 1%positive := C ]} : heap)) in *.
  destruct (compare_absent (sch_old sch pkgPath) (sch_new sch pkgPath) h 1%positive
              pkgPath (tolerance speedTolPercent) (tolerance recordTolPercent))
    as (Hbest & _ & Hmiss & Hslow & _ & Hnew & Hf).
  set (cr := compare _ _ h _ _ _ _ _) in *.
  assert (HC : deref h 1%positive = C) by done.
  rewrite HC in Hnew.
  assert (Hne : (1 : loc)%positive ≠ new_loc h).
  { intros Heq. pose proof (new_loc_fresh h) as Hfresh. rewrite <- Heq in Hfresh. done. }
  assert (HC' : deref (res_heap cr) 1%positive = C).
  { unfold deref. rewrite Hf by done. done. }
  assert (Hb' : res_best cr = C).
  { unfold res_best, deref. by rewrite Hbest, Hnew. }
  rewrite HC', Hb', Hmiss, Hslow in Hres. subst res. rewrite Hres. cbn [fst snd].
  pose proof (stored_results js report C C w1) as Hfr.
  pose proof (stored_best js report C C w1) as Hfb.
  pose proof (stored_best_old js report C C w1) as Hfo.
  split; [done|]. split; [by rewrite backupMarshallAndStore_cwd|].
  split; [done|]. split; [by rewrite Hfr, Hfb|]. done.
Qed.

Lemma rebench_run_without_best_witness :
  let C : gmap string Z := {[ "BenchmarkSleep" := 1000123456 ]} in
  let res := rebench examples_output.json examples_output.sched
               (Some examples_output.good) examples_output.w0 150 70 in
  res.1 = Returned 0
  ∧ w_cwd res.2 = "/go/src/example.com/pkg"
  ∧ file res.2 ".bench_best.json"
    = (if decide (0 < size C)%nat then Some (json_Marshal examples_output.json C) else None)
  ∧ file res.2 ".bench_results.json" = file res.2 ".bench_best.json"
  ∧ file res.2 ".bench_best.json.old"
    = from_option Some
        (w_files examples_output.w0 !! "/go/src/example.com/pkg/.bench_best.json.old")
        (w_files examples_output.w0 !! "/go/src/example.com/pkg/.bench_best.json").
Proof.
  apply (rebench_run_without_best examples_output.json examples_output.sched
           examples_output.good examples_output.w0 150 70 "example.com/pkg"
           {[ "BenchmarkSleep" := 1000123456 ]}).
  - reflexivity.
  - vm_compute. discriminate.
  - vm_compute. reflexivity.
  - reflexivity.
Defined.

(** ** The report of [compare] as [tabAlign] reads it *)

Lemma plain_digit c v : strconv.digit c = Some v → plain c.
Proof.
  unfold strconv.digit, plain. case_decide as H; [|done]. intros _.
  split; intros ->; cbn in H; lia.
Qed.

Lemma contains_pretty_N_go x c :
  contains (pretty_N_go x EmptyString) c → is_Some (strconv.digit c).
Proof.
  induction (N.lt_wf_0 x) as [x _ IH].
  destruct (decide (x = 0)%N) as [->|Hx].
  - rewrite pretty_N_go_0. by intros ?%contains_nil.
  - rewrite pretty_N_go_step, pretty_N_go_app by lia.
    intros [H|H]%contains_app.
    + apply (IH (x `div` 10)%N); [apply N.div_lt; lia|done].
    + apply contains_cons in H as [->|H]; [|by apply contains_nil in H].
      rewrite digit_pretty_N_char by (apply N.mod_lt; lia). eauto.
Qed.

Lemma plain_d n c : contains (fmt.d n) c → plain c.
Proof.
  unfold fmt.d, pretty, pretty_N. destruct (decide (Z.to_N n = 0)%N).
  - intros [->|H]%contains_cons; [done|]. by apply contains_nil in H.
  - intros [v Hv]%contains_pretty_N_go. by eapply plain_digit.
Qed.

Ltac plain_literal :=
  let H := fresh in
  unfold contains; simpl; intros H;
  repeat (apply elem_of_cons in H as [->|H]; [done|]);
  by apply elem_of_nil in H.

Lemma plain_repeat_zero k c : contains (strings.repeat_nat "0" k) c → plain c.
Proof.
  induction k as [|k IH]; simpl.
  - by intros ?%contains_nil.
  - rewrite append_cons, append_nil_l. intros [->|H]%contains_cons; [done|auto].
Qed.

Lemma plain_f x c : contains (fmt.f x) c → plain c.
Proof.
  destruct x as [s|s| |s m e]; cbn [fmt.f].
  - destruct s; rewrite ?append_nil_l; plain_literal.
  - destruct s; plain_literal.
  - plain_literal.
  - intros [H|[H|[H|H]%contains_app]%contains_app]%contains_app.
    + destruct s; revert H; plain_literal.
    + by eapply plain_d.
    + revert H. plain_literal.
    + unfold fmt.pad6 in H. apply contains_app in H as [H|H].
      * by eapply plain_repeat_zero.
      * by eapply plain_d.
Qed.


Lemma plain_row_fields x w c :
  (∀ c, contains (row_name x) c → plain c) →
  w ∈ row_fields x → contains w c → plain c.
Proof.
  intros Hname Hw. destruct x; cbn [row_fields row_name] in *;
    repeat (apply elem_of_cons in Hw as [->|Hw];
            [first [by apply Hname | by apply plain_d | by apply plain_f | plain_literal]|]);
    by apply elem_of_nil in Hw.
Qed.

Lemma plain_header_fields w c : w ∈ header_fields → contains w c → plain c.
Proof.
  intros Hw. unfold header_fields in Hw.
  repeat (apply elem_of_cons in Hw as [->|Hw]; [plain_literal|]).
  by apply elem_of_nil in Hw.
Qed.

Lemma contains_Join l sep c :
  contains (strings.Join l sep) c → contains sep c ∨ ∃ w, w ∈ l ∧ contains w c.
Proof.
  induction l as [|w l IH]; [by intros ?%contains_nil|].
  destruct l as [|w' l].
  - simpl. intros H. right. exists w. split; [by left|done].
  - rewrite Join_cons. intros [H|[H|H]%contains_app]%contains_app.
    + right. exists w. split; [by left|done].
    + by left.
    + destruct (IH H) as [?|(v & Hv & Hc)]; [by left|].
      right. exists v. split; [by right|done].
Qed.

Lemma render_row_Join r : render_row r = strings.Join (row_fields r) tab +:+ nl.
Proof. destruct r; cbn [render_row row_fields]; by rewrite !Join_cons, !append_assoc. Qed.

Lemma delta_header_Join : delta_header = strings.Join header_fields tab +:+ nl.
Proof. unfold delta_header, header_fields. by rewrite !Join_cons, !append_assoc. Qed.

(** The lines of a text made of lines that each end with a newline. *)
Lemma Split_lines (lines : list string) :
  (∀ l, l ∈ lines → ¬ contains l "010") →
  strings.Split (foldr (λ l s, (l +:+ nl) +:+ s) EmptyString lines) "010"
  = lines ++ [EmptyString].
Proof.
  induction lines as [|l lines IH]; intros Hl; [done|].
  cbn [foldr]. rewrite append_assoc. unfold nl at 1.
  rewrite append_cons, append_nil_l, Split_app.
  rewrite Split_no_sep by (apply Hl; by left).
  rewrite IH by (intros; apply Hl; by right). done.
Qed.

Lemma render_delta_lines rows :
  render_delta rows
  = foldr (λ l s, (l +:+ nl) +:+ s) EmptyString
      (strings.Join header_fields tab :: ((λ r, strings.Join (row_fields r) tab) <$> rows)).
Proof.
  unfold render_delta. cbn [foldr]. rewrite <- delta_header_Join. f_equal.
  induction rows as [|r rows IH]; [done|].
  cbn [foldr fmap list_fmap]. by rewrite render_row_Join, IH.
Qed.

(** X30. The report [compare] builds reads back: when no benchmark name
    holds a tab or a newline, the lines of [delta] are the header, one line
    for every row and an empty last line, and splitting a line at its tabs
    gives the four fields that were printed. So [tabAlign] finds four
    fields in every line but the last. *)
Theorem render_delta_fields (rows : list row) :
  (∀ x c, x ∈ rows → contains (row_name x) c → plain c) →
  fields <$> strings.Split (render_delta rows) "010"
  = header_fields :: (row_fields <$> rows) ++ [[EmptyString]]
  ∧ ∃ lines, strings.Split (render_delta rows) "010" = lines ++ [EmptyString]
             ∧ length lines = S (length rows)
             ∧ ∀ line, line ∈ lines → well_formed line.
Proof.
  intros Hnames.
  set (lines := strings.Join header_fields tab
                :: ((λ r, strings.Join (row_fields r) tab) <$> rows)).
  assert (Hplain : ∀ line, line ∈ lines →
            ∃ fs, line = strings.Join fs tab ∧ length fs = 4%nat
                  ∧ (∀ w c, w ∈ fs → contains w c → plain c)
                  ∧ (fs = header_fields ∨ ∃ r, r ∈ rows ∧ fs = row_fields r)).
  { intros line [->|(r & -> & Hr)%list_elem_of_fmap]%elem_of_cons.
    - exists header_fields. split; [done|]. split; [done|].
      split; [apply plain_header_fields|by left].
    - exists (row_fields r). split; [done|]. split; [by destruct r|]. split.
      + intros w c. apply plain_row_fields. intros c'. by apply Hnames.
      + right. eauto. }
  assert (Hfields : ∀ fs, length fs = 4%nat → (∀ w c, w ∈ fs → contains w c → plain c) →
            fields (strings.Join fs tab) = fs).
  { intros fs Hlen Hfs. unfold fields, tab. apply Split_Join.
    - by destruct fs.
    - intros w Hw Hc. by destruct (Hfs w _ Hw Hc). }
  assert (Hsplit : strings.Split (render_delta rows) "010" = lines ++ [EmptyString]).
  { rewrite render_delta_lines. apply Split_lines.
    intros line (fs & -> & _ & Hfs & _)%Hplain Hc.
    apply contains_Join in Hc as [Hc|(w & Hw & Hc)].
    - revert Hc. unfold tab. intros [?|?%contains_nil]%contains_cons; done.
    - by destruct (Hfs w _ Hw Hc). }
  split.
  - rewrite Hsplit, fmap_app. subst lines. rewrite fmap_cons.
    rewrite Hfields by (done || apply plain_header_fields).
    rewrite <- app_comm_cons. f_equal. f_equal.
    rewrite <- list_fmap_compose. apply list_fmap_ext. intros i r Hr. simpl.
    apply Hfields; [by destruct r|]. intros w c. apply plain_row_fields.
    intros c'. apply Hnames. by eapply list_elem_of_lookup_2.
  - exists lines. split; [done|]. split; [subst lines; simpl; by rewrite length_fmap|].
    intros line (fs & -> & Hlen & Hfs & _)%Hplain. unfold well_formed.
    by rewrite Hfields.
Qed.

Lemma render_delta_fields_witness :
  let rows := [RowCompared "X" 500 1000 (factor_of 500 1000); RowMissing "Y" 7] in
  fields <$> strings.Split (render_delta rows) "010"
  = header_fields :: (row_fields <$> rows) ++ [[EmptyString]]
  ∧ ∃ lines, strings.Split (render_delta rows) "010" = lines ++ [EmptyString]
             ∧ length lines = S (length rows)
             ∧ ∀ line, line ∈ lines → well_formed line.
Proof.
  apply render_delta_fields. intros x c Hx.
  repeat (apply elem_of_cons in Hx as [->|Hx]; [plain_literal|]).
  by apply elem_of_nil in Hx.
Defined.
